(** * Cross-platform market matching: normalizer, scorers, engine, metrics

    A shallow embedding of [agents/identify_products.py]
    ([ProductIdentifierFlow]) and of
    [agents/rearrange_data.py] ([DataArrangerFlow.calculate_advanced_metrics]).

    Conventions of the embedding.
    - Python [str] values are ASCII texts: [string] at the interfaces, the
      list of their characters ([chars]) inside the text functions.  A byte
      above 127 is neither a word character nor white space here.
    - Python floats are exact rationals ([Q]); [==] on floats is [Qeq].
    - A Python [dict] is an association list kept in insertion order,
      assignment to an existing key replaces the value in place.
    - Code that can raise returns a [Result]; the external language model is
      an oracle that threads an abstract [World]. *)

From Stdlib Require Import List String Ascii Bool Arith ZArith QArith Qround.
From Stdlib Require Import Lia Lqa Permutation.
From Stdlib Require DecimalString.
Import ListNotations.

Set Implicit Arguments.
Close Scope Q_scope.
Open Scope nat_scope.

(* ================================================================== *)
(** ** Python runtime fragments *)
(* ================================================================== *)

Module Py.

Definition chars := list ascii.

Definition of_str (s : string) : chars := list_ascii_of_string s.
Definition to_str (l : chars) : string := string_of_list_ascii l.

Definition code (c : ascii) : nat := nat_of_ascii c.

Definition in_range (lo hi : nat) (c : ascii) : bool :=
  (lo <=? code c) && (code c <=? hi).

(** [str.isspace] on ASCII: TAB..CR, FS..US and the blank. *)
Definition isspace (c : ascii) : bool :=
  in_range 9 13 c || in_range 28 32 c.

Definition isupper (c : ascii) : bool := in_range 65 90 c.

Definition lower_char (c : ascii) : ascii :=
  if isupper c then ascii_of_nat (code c + 32) else c.

(** [s.lower()] *)
Definition lower (s : chars) : chars := map lower_char s.

Fixpoint lstrip (s : chars) : chars :=
  match s with
  | [] => []
  | c :: s' => if isspace c then lstrip s' else s
  end.

Definition rstrip (s : chars) : chars := rev (lstrip (rev s)).

(** [s.strip()] *)
Definition strip (s : chars) : chars := rstrip (lstrip s).

(** The maximal runs of characters that are not separators; [cur] is the
    run being read. *)
Fixpoint fields_from (sep : ascii -> bool) (cur : chars) (s : chars)
  : list chars :=
  match s with
  | [] => match cur with [] => [] | _ => [cur] end
  | c :: s' =>
      if sep c
      then match cur with
           | [] => fields_from sep [] s'
           | _ => cur :: fields_from sep [] s'
           end
      else fields_from sep (cur ++ [c]) s'
  end.

(** [s.split()]: the maximal runs of non-space characters. *)
Definition split (s : chars) : list chars := fields_from isspace [] s.

(** [sep.join(ws)] *)
Fixpoint join (sep : chars) (ws : list chars) : chars :=
  match ws with
  | [] => []
  | [w] => w
  | w :: ws' => w ++ sep ++ join sep ws'
  end.

Definition chars_eq_dec : forall x y : chars, {x = y} + {x <> y} :=
  list_eq_dec ascii_dec.

Definition chars_eqb (x y : chars) : bool :=
  if chars_eq_dec x y then true else false.

(** *** Floats as rationals *)

(** Round half to even of a rational to an integer. *)
Definition round_half_even (q : Q) : Z :=
  let f := Qfloor q in
  let r := Qminus q (inject_Z f) in
  match Qcompare r (1 # 2) with
  | Lt => f
  | Gt => (f + 1)%Z
  | Eq => if Z.even f then f else (f + 1)%Z
  end.

(** [round(q, ndigits)] *)
Definition round (q : Q) (ndigits : nat) : Q :=
  let p := Z.pow 10 (Z.of_nat ndigits) in
  Qmake (round_half_even (Qmult q (inject_Z p))) (Z.to_pos p).

Definition Qltb (x y : Q) : bool :=
  match Qcompare x y with Lt => true | _ => false end.

Definition Qmin (x y : Q) : Q := if Qltb y x then y else x.
Definition Qmax (x y : Q) : Q := if Qltb x y then y else x.

(** [min(l)], [max(l)] and [sum(l)] of a non-empty list (first extremal
    element wins, as in Python). *)
Definition min_list (x : Q) (l : list Q) : Q := fold_left Qmin l x.
Definition max_list (x : Q) (l : list Q) : Q := fold_left Qmax l x.
Definition sum (l : list Q) : Q := fold_left Qplus l 0%Q.

(** *** Ordered dictionaries *)

Definition dict (V : Type) := list (string * V).

Fixpoint get {V} (d : dict V) (k : string) : option V :=
  match d with
  | [] => None
  | (k', v) :: d' => if String.eqb k' k then Some v else get d' k
  end.

(** [d[k] = v] *)
Fixpoint set {V} (d : dict V) (k : string) (v : V) : dict V :=
  match d with
  | [] => [(k, v)]
  | (k', v') :: d' =>
      if String.eqb k' k then (k', v) :: d' else (k', v') :: set d' k v
  end.

Definition keys {V} (d : dict V) : list string := map fst d.
Definition values {V} (d : dict V) : list V := map snd d.

(** *** Exceptions *)

Inductive exn : Type :=
| KeyError (key : string)
| ValueError
| TypeError
| ZeroDivisionError
| OtherError (what : string).

Inductive Result (A : Type) : Type :=
| Ok (a : A)
| Raise (e : exn).
Arguments Ok {A} a.
Arguments Raise {A} e.

(** JSON-like scalar values carried by listings and payloads. *)
Inductive value : Type :=
| VNone
| VBool (b : bool)
| VNum (q : Q)
| VStr (s : string).

End Py.

(* ================================================================== *)
(** ** The regular expressions used by the normalizer and the scorer *)
(* ================================================================== *)

Module re.
Import Py.

Definition isalnum (c : ascii) : bool :=
  in_range 48 57 c || in_range 65 90 c || in_range 97 122 c.

(** The class [\w]. *)
Definition isword (c : ascii) : bool := isalnum c || (code c =? 95).

(** The class [[\w\s\-\?\!]]. *)
Definition kept (c : ascii) : bool :=
  isword c || isspace c || (code c =? 45) || (code c =? 63) || (code c =? 33).

(** [re.sub(r'[^\w\s\-\?\!]', ' ', s)] *)
Definition sub_special (s : chars) : chars :=
  map (fun c => if kept c then c else " "%char) s.

(** [\b] between two neighbours ([None] is an end of the text). *)
Definition opt_word (c : option ascii) : bool :=
  match c with Some c => isword c | None => false end.

Definition boundary (before after : option ascii) : bool :=
  xorb (opt_word before) (opt_word after).

Fixpoint strip_prefix (p s : chars) : option chars :=
  match p, s with
  | [], _ => Some s
  | a :: p', b :: s' =>
      if Ascii.eqb a b then strip_prefix p' s' else None
  | _ :: _, [] => None
  end.

(** Does [\bold\b] match at the head of [s], [prev] being the character
    before it? *)
Definition match_here (old : chars) (prev : option ascii) (s : chars) : bool :=
  match strip_prefix old s with
  | Some rest =>
      boundary prev (hd_error s) && boundary (hd_error (rev old)) (hd_error rest)
  | None => false
  end.

(** Left-to-right scan of [re.sub(r'\b' + re.escape(old) + r'\b', new, s)]
    for a non-empty [old]; [skip] counts the characters of the current
    match still to be consumed. *)
Fixpoint sub_scan (old new : chars) (skip : nat) (prev : option ascii)
         (s : chars) : chars :=
  match s with
  | [] => []
  | c :: s' =>
      match skip with
      | S k => sub_scan old new k (Some c) s'
      | O =>
          if match_here old prev s
          then new ++ sub_scan old new (List.length old - 1) (Some c) s'
          else c :: sub_scan old new 0 (Some c) s'
      end
  end.

Definition sub_word (old new : chars) (s : chars) : chars :=
  sub_scan old new 0 None s.

(** The maximal runs of word characters of a text: the only places where
    [\bold\b] can match when [old] is made of word characters. *)
Definition word_runs (s : chars) : list chars :=
  fields_from (fun c => negb (isword c)) [] s.

(** The longest prefix made of word characters. *)
Fixpoint word_prefix (s : chars) : chars :=
  match s with
  | c :: s' => if isword c then c :: word_prefix s' else []
  | [] => []
  end.

(** The substitution read run by run: a run equal to [old] becomes [new],
    everything else is copied. *)
Definition replace_run (old new run : chars) : chars :=
  if chars_eqb run old then new else run.

Fixpoint sub_runs_from (old new : chars) (cur : chars) (s : chars) : chars :=
  match s with
  | [] => replace_run old new cur
  | c :: s' =>
      if isword c then sub_runs_from old new (cur ++ [c]) s'
      else replace_run old new cur ++ c :: sub_runs_from old new [] s'
  end.

(** The runs after a substitution, from the runs before it. *)
Definition replace_in_runs (old new : chars) (runs : list chars)
  : list chars :=
  flat_map (fun run => if chars_eqb run old then word_runs new else [run]) runs.

(** [re.search(r'\{.*\}', s, re.DOTALL)]: from the first opening brace to
    the last closing brace after it. *)
Fixpoint from_first_brace (s : chars) : option chars :=
  match s with
  | [] => None
  | c :: s' => if code c =? 123 then Some s else from_first_brace s'
  end.

Fixpoint upto_last_brace (s : chars) : option chars :=
  match s with
  | [] => None
  | c :: s' =>
      match upto_last_brace s' with
      | Some r => Some (c :: r)
      | None => if code c =? 125 then Some [c] else None
      end
  end.

Definition search_braces (s : chars) : option chars :=
  match from_first_brace s with
  | Some (c :: rest) =>
      match upto_last_brace rest with
      | Some r => Some (c :: r)
      | None => None
      end
  | _ => None
  end.

End re.

(* ================================================================== *)
(** ** [difflib.SequenceMatcher(None, a, b).ratio()] *)
(* ================================================================== *)

(** The standard library's matcher, with [isjunk = None] and the default
    [autojunk = True]: no junk set, and in a [b] of 200 characters or more
    a character occurring more than [len(b) // 100 + 1] times is "popular"
    and does not seed a match. *)
Module difflib.
Import Py.

Section SequenceMatcher.
Variables a b : chars.

Definition popular (c : ascii) : bool :=
  (200 <=? List.length b)
  && (List.length b / 100 + 1 <? count_occ ascii_dec b c).

Fixpoint indices_from (j0 : nat) (s : chars) (c : ascii) : list nat :=
  match s with
  | [] => []
  | x :: s' =>
      if Ascii.eqb x c
      then j0 :: indices_from (S j0) s' c
      else indices_from (S j0) s' c
  end.

(** [b2j.get(c, [])] after [__chain_b]. *)
Definition b2j (c : ascii) : list nat :=
  if popular c then [] else indices_from 0 b c.

Definition j2len := list (nat * nat).

Fixpoint j2len_get (d : j2len) (j : nat) : nat :=
  match d with
  | [] => 0
  | (j', k) :: d' => if j' =? j then k else j2len_get d' j
  end.

(** [j2len.get(j-1, 0)] *)
Definition before (d : j2len) (j : nat) : nat :=
  match j with
  | O => 0
  | S j' => j2len_get d j'
  end.

Definition match_triple := (nat * nat * nat)%type.

(** The loop [for j in b2j.get(a[i], nothing)] of one row [i]. *)
Fixpoint row (i blo bhi : nat) (old : j2len) (js : list nat)
         (new : j2len) (best : match_triple) : j2len * match_triple :=
  match js with
  | [] => (new, best)
  | j :: js' =>
      if j <? blo then row i blo bhi old js' new best
      else if bhi <=? j then (new, best)
      else
        let k := before old j + 1 in
        let '(_, _, bestsize) := best in
        row i blo bhi old js' ((j, k) :: new)
            (if bestsize <? k then (i + 1 - k, j + 1 - k, k) else best)
  end.

Definition at_a (i : nat) : option ascii := nth_error a i.
Definition at_b (j : nat) : option ascii := nth_error b j.

Definition same_at (i j : nat) : bool :=
  match at_a i, at_b j with
  | Some x, Some y => Ascii.eqb x y
  | _, _ => false
  end.

(** The loop [for i in range(alo, ahi)]. *)
Fixpoint rows (range : list nat) (blo bhi : nat) (old : j2len)
         (best : match_triple) : match_triple :=
  match range with
  | [] => best
  | i :: range' =>
      let js := match at_a i with Some c => b2j c | None => [] end in
      let '(new, best') := row i blo bhi old js [] best in
      rows range' blo bhi new best'
  end.

(** The two [while] loops that extend the seed over equal characters
    (no character is junk). *)
Fixpoint extend_left (fuel alo blo : nat) (best : match_triple)
  : match_triple :=
  let '(besti, bestj, bestsize) := best in
  match fuel with
  | O => best
  | S fuel' =>
      if (alo <? besti) && (blo <? bestj) && same_at (besti - 1) (bestj - 1)
      then extend_left fuel' alo blo (besti - 1, bestj - 1, bestsize + 1)
      else best
  end.

Fixpoint extend_right (fuel ahi bhi : nat) (best : match_triple)
  : match_triple :=
  let '(besti, bestj, bestsize) := best in
  match fuel with
  | O => best
  | S fuel' =>
      if (besti + bestsize <? ahi) && (bestj + bestsize <? bhi)
         && same_at (besti + bestsize) (bestj + bestsize)
      then extend_right fuel' ahi bhi (besti, bestj, bestsize + 1)
      else best
  end.

Definition find_longest_match (alo ahi blo bhi : nat) : match_triple :=
  let seed := rows (seq alo (ahi - alo)) blo bhi [] (alo, blo, 0) in
  let '(besti, _, _) := seed in
  let left := extend_left besti alo blo seed in
  let '(i, _, k) := left in
  extend_right (ahi - (i + k)) ahi bhi left.

(** The work list of [get_matching_blocks]; its head is the element
    that [queue.pop()] takes.  Returns the blocks found. *)
Fixpoint blocks (fuel : nat) (queue : list (nat * nat * nat * nat))
         (found : list match_triple) : list match_triple :=
  match fuel, queue with
  | S fuel', (alo, ahi, blo, bhi) :: queue' =>
      let '(i, j, k) := find_longest_match alo ahi blo bhi in
      if k =? 0 then blocks fuel' queue' found
      else
        let q1 := if (alo <? i) && (blo <? j)
                  then (alo, i, blo, j) :: queue' else queue' in
        let q2 := if (i + k <? ahi) && (j + k <? bhi)
                  then (i + k, ahi, j + k, bhi) :: q1 else q1 in
        blocks fuel' q2 (found ++ [(i, j, k)])
  | _, _ => found
  end.

(** Sorting the blocks, merging adjacent ones and appending the
    sentinel of size 0 leave the sum of the sizes unchanged. *)
Definition matches : nat :=
  let la := List.length a in
  let lb := List.length b in
  fold_left (fun n t => n + snd t)
            (blocks (2 * la + 1) [(0, la, 0, lb)] []) 0.

(** [_calculate_ratio(matches, len(a) + len(b))] *)
Definition ratio : Q :=
  let total := List.length a + List.length b in
  if total =? 0 then 1%Q
  else Qmake (Z.of_nat (2 * matches)) (Pos.of_nat total).

End SequenceMatcher.

(** Ghost measure of the proofs: the length of the run of characters that
    are not popular in [s] and ends at index [i] of [s]. *)
Fixpoint run (s : chars) (i : nat) : nat :=
  match nth_error s i with
  | Some c =>
      if popular s c then 0
      else match i with
           | O => 1
           | S i' => S (run s i')
           end
  | None => 0
  end.

(** The run ending just before index [i]. *)
Definition run_before (s : chars) (i : nat) : nat :=
  match i with
  | O => 0
  | S i' => run s i'
  end.

(** Ghost measure of the work list: every pending range counts twice
    its length in [a] plus one, which bounds the number of times that
    [queue.pop()] still runs. *)
Definition weight (queue : list (nat * nat * nat * nat)) : nat :=
  fold_right (fun q n => let '(alo, ahi, _, _) := q in 2 * (ahi - alo) + 1 + n)
             0 queue.

(** A match that lies in the range [alo, ahi) of [a]. *)
Definition within (alo ahi : nat) (t : match_triple) : Prop :=
  let '(i, _, k) := t in alo <= i /\ i + k <= ahi.

Definition ordered (q : nat * nat * nat * nat) : Prop :=
  let '(alo, ahi, _, _) := q in alo <= ahi.

End difflib.

(* ================================================================== *)
(** ** Effects: exceptions over an external world *)
(* ================================================================== *)

Module Eff.
Import Py.

Section WithWorld.
Variable World : Type.

Definition M (A : Type) : Type := World -> Result A * World.

Definition ret {A} (x : A) : M A := fun w => (Ok x, w).

Definition raise {A} (e : exn) : M A := fun w => (Raise e, w).

Definition bind {A B} (m : M A) (f : A -> M B) : M B :=
  fun w =>
    match m w with
    | (Ok x, w') => f x w'
    | (Raise e, w') => (Raise e, w')
    end.

(** [try: m  except Exception as e: h e] *)
Definition try_except {A} (m : M A) (h : exn -> M A) : M A :=
  fun w =>
    match m w with
    | (Ok x, w') => (Ok x, w')
    | (Raise e, w') => h e w'
    end.

(** [for x in xs: s = body s x] *)
Fixpoint for_each {A S} (xs : list A) (body : S -> A -> M S) (s : S)
  : M S :=
  match xs with
  | [] => ret s
  | x :: xs' => bind (body s x) (for_each xs' body)
  end.

(** [d[key]] on a record field that may be absent. *)
Definition item {A} (key : string) (field : option A) : M A :=
  match field with
  | Some x => ret x
  | None => raise (KeyError key)
  end.

End WithWorld.

(** Two computations, possibly over different worlds, that end the
    same way whatever the worlds are. *)
Definition same_outcome {W1 W2 A} (m1 : M W1 A) (m2 : M W2 A) : Prop :=
  forall w1 w2, fst (m1 w1) = fst (m2 w2).

Arguments ret {World A} x.
Arguments raise {World A} e.
Arguments item {World A} key field.

(** [enumerate(xs, start)] *)
Fixpoint enumerate {A} (xs : list A) (start : nat) : list (nat * A) :=
  match xs with
  | [] => []
  | x :: xs' => (start, x) :: enumerate xs' (S start)
  end.

End Eff.

Declare Scope eff_scope.
Delimit Scope eff_scope with eff.
Notation "x <- m ;; k" := (Eff.bind m (fun x => k))
  (at level 61, m at next level, right associativity) : eff_scope.
Notation "' pat <- m ;; k" := (Eff.bind m (fun x => match x with pat => k end))
  (at level 61, pat pattern, m at next level, right associativity) : eff_scope.

(* ================================================================== *)
(** ** agents/identify_products.py *)
(* ================================================================== *)

Module identify_products.
Import Py Eff.
Local Open Scope string_scope.

(** The dictionary of the lexical scorer, which sets the four keys
    [same_event], [confidence], [unified_name] and [reasoning]. *)
Record Verdict : Type := {
  same_event : bool;
  confidence : Q;
  unified_name : string;
  reasoning : string
}.

(** The dictionary that a scorer hands to the engine: the lexical
    verdict, or the object decoded from the reply of the service, which
    has the keys that the reply has; [None] is an absent key. *)
Record Answer : Type := {
  a_same_event : option bool;
  a_confidence : option Q;
  a_unified_name : option string;
  a_reasoning : option string
}.

Definition answer (v : Verdict) : Answer :=
  {| a_same_event := Some (same_event v);
     a_confidence := Some (confidence v);
     a_unified_name := Some (unified_name v);
     a_reasoning := Some (reasoning v) |}.

(** One raw market entry; [None] is an absent key. *)
Record Listing : Type := {
  product : option string;
  site : option string;
  price : option value;
  volume : option value;
  category : option string;
  market_id : option string;
  description : option string
}.

(** One per-platform payload of a unified entry. *)
Record Payload : Type := {
  original_product : string;
  p_price : option value;
  p_volume : option value;
  p_category : string;
  p_market_id : string;
  p_description : string
}.

Record UnifiedEntry : Type := {
  u_confidence : Q;
  u_match_reasoning : string;
  product_count : nat;
  platforms : dict (list Payload)
}.

(** [current_group] of [match_products]. *)
Record Group : Type := {
  g_unified_name : string;
  g_products : list Listing;
  g_confidence : Q;
  g_match_reasoning : string
}.

(** *** normalize_product_name *)

Definition replacements : list (string * string) :=
  [ ("trump", "donald trump");
    ("biden", "joe biden");
    ("harris", "kamala harris");
    ("democrats", "democratic party");
    ("republicans", "republican party");
    ("gop", "republican party");
    ("dems", "democratic party");
    ("senate", "us senate");
    ("house", "us house");
    ("congress", "us congress");
    ("presidency", "president");
    ("presidential", "president");
    ("2024", "2024 election");
    ("2025", "2025");
    ("next", "upcoming");
    ("win", "victory");
    ("wins", "victory");
    ("elected", "victory");
    ("control", "majority");
    ("controls", "majority");
    ("above", "over");
    ("below", "under");
    ("reaches", "hits");
    ("exceeds", "over") ].

(** The loop [for old, new in replacements.items()]. *)
Definition apply_replacements (table : list (string * string)) (s : chars)
  : chars :=
  fold_left (fun acc on => re.sub_word (of_str (fst on)) (of_str (snd on)) acc)
            table s.

Definition normalize_chars (s : chars) : chars :=
  let normalized := strip (lower s) in
  let normalized := re.sub_special normalized in
  let normalized := apply_replacements replacements normalized in
  join [" "%char] (split normalized).

Definition normalize_product_name (product_name : string) : string :=
  match product_name with
  | EmptyString => ""
  | _ => to_str (normalize_chars (of_str product_name))
  end.

(** The keys whose replacement contains the key itself as a word and
    differs from it: a second pass expands them again. *)
Definition expanding_keys : list string :=
  ["trump"; "biden"; "harris"; "senate"; "house"; "congress"; "2024"].

(** The runs of word characters after the loop over the table, from the
    runs before it. *)
Definition runs_after (table : list (string * string)) (runs : list chars)
  : list chars :=
  fold_left
    (fun runs on => re.replace_in_runs (of_str (fst on)) (of_str (snd on)) runs)
    table runs.

Definition mem_chars (w : chars) (l : list chars) : bool :=
  existsb (chars_eqb w) l.

(** A key is a non-empty text of word characters. *)
Definition key_ok (k : chars) : bool :=
  match k with
  | [] => false
  | _ => forallb re.isword k
  end.

(** [vanishes k table]: the table replaces [k] by a text without the word
    [k], and no later entry brings the word [k] back. *)
Fixpoint vanishes (k : chars) (table : list (string * string)) : bool :=
  match table with
  | [] => false
  | (k', v') :: table' =>
      if chars_eqb (of_str k') k
      then negb (mem_chars k (re.word_runs (of_str v')))
           && forallb
                (fun on => negb (mem_chars k (re.word_runs (of_str (snd on)))))
                table'
      else vanishes k table'
  end.

(** [expands k table]: the first entry for [k] replaces it by at least two
    words. *)
Fixpoint expands (k : chars) (table : list (string * string)) : bool :=
  match table with
  | [] => false
  | (k', v') :: table' =>
      if chars_eqb (of_str k') k
      then (2 <=? List.length (re.word_runs (of_str v')))%nat
      else expands k table'
  end.

(** A character that [lower] and the special-character substitution
    leave alone. *)
Definition normal_char (c : ascii) : bool :=
  Ascii.eqb (lower_char c) c && re.kept c.

(** *** extract_keywords *)

Definition stop_words : list string :=
  ["the"; "a"; "an"; "and"; "or"; "but"; "in"; "on"; "at"; "to"; "for";
   "of"; "with"; "by"; "will"; "be"; "is"; "are"; "was"; "were"].

Definition mem (w : string) (l : list string) : bool :=
  existsb (String.eqb w) l.

(** [keywords.add(word)] on a set kept as a duplicate-free list. *)
Definition add (w : string) (s : list string) : list string :=
  if mem w s then s else (s ++ [w])%list.

Definition extract_keywords (text : string) : list string :=
  let normalized := normalize_product_name text in
  let words := map to_str (split (of_str normalized)) in
  fold_left
    (fun keywords word =>
       if (2 <? String.length word)%nat && negb (mem word stop_words)
       then add word keywords else keywords)
    words [].

Definition intersection (s1 s2 : list string) : list string :=
  filter (fun w => mem w s2) s1.

Definition union (s1 s2 : list string) : list string :=
  fold_left (fun acc w => add w acc) s2 s1.

(** *** calculate_similarity_rule_based *)

(** [str(round(q, 2))] for a non-negative [q]. *)
Definition show2 (q : Q) : string :=
  let h := Z.to_nat (round_half_even (Qmult q (inject_Z 100))) in
  let digits n := DecimalString.NilZero.string_of_uint (Nat.to_uint n) in
  let frac := h mod 100 in
  digits (h / 100) ++ "." ++
  (if (frac mod 10 =? 0)%nat then digits (frac / 10)
   else if (frac <? 10)%nat then "0" ++ digits frac
   else digits frac).

Definition jaccard (keywords1 keywords2 : list string) : Q :=
  let i := intersection keywords1 keywords2 in
  let u := union keywords1 keywords2 in
  match u with
  | [] => 0%Q
  | _ => Qmake (Z.of_nat (List.length i)) (Pos.of_nat (List.length u))
  end.

Definition sequence (product1 product2 : string) : Q :=
  difflib.ratio (lower (of_str product1)) (lower (of_str product2)).

Definition combine_scores (jaccard_similarity sequence_similarity : Q) : Q :=
  (jaccard_similarity * (7 # 10) + sequence_similarity * (3 # 10))%Q.

Definition threshold : Q := 65 # 100.

(** The part of the scorer after the two sub-scores are known. *)
Definition verdict_of_scores (jaccard_similarity sequence_similarity : Q)
           (product1 product2 : string) : Verdict :=
  let combined_similarity :=
    combine_scores jaccard_similarity sequence_similarity in
  {| same_event := Qltb threshold combined_similarity;
     confidence := round combined_similarity 3;
     unified_name :=
       if (String.length product1 <=? String.length product2)%nat
       then product1 else product2;
     reasoning :=
       "Rule-based matching: " ++ show2 (round jaccard_similarity 2)
       ++ " keyword + " ++ show2 (round sequence_similarity 2)
       ++ " sequence similarity" |}.

Definition combined_similarity (product1 product2 : string) : Q :=
  combine_scores
    (jaccard (extract_keywords product1) (extract_keywords product2))
    (sequence product1 product2).

Definition calculate_similarity_rule_based (product1 product2 : string)
  : Verdict :=
  verdict_of_scores
    (jaccard (extract_keywords product1) (extract_keywords product2))
    (sequence product1 product2)
    product1 product2.

(** The test of [match_products] on the scorer's dictionary,
    [similarity_result['same_event'] and
     similarity_result['confidence'] > 0.65]: the second key is read
    only when the first holds a true value. *)
Definition accepted (similarity_result : Answer) : Result bool :=
  match a_same_event similarity_result with
  | None => Raise (KeyError "same_event")
  | Some false => Ok false
  | Some true =>
      match a_confidence similarity_result with
      | None => Raise (KeyError "confidence")
      | Some c => Ok (Qltb threshold c)
      end
  end.

Definition default {A} (d : A) (o : option A) : A :=
  match o with Some x => x | None => d end.

Definition payload_of (original : string) (pr : value) (l : Listing)
  : Payload :=
  {| original_product := original;
     p_price := Some pr;
     p_volume := Some (default (VNum 0) (volume l));
     p_category := default "General" (category l);
     p_market_id := default "" (market_id l);
     p_description := default "" (description l) |}.

Section Flow.
(** The process environment and the two external services: the
    credential read at import time, the reply text of
    [litellm.completion] to the prompt built from the two titles (or
    the exception it ends with), and [json.loads] on the matched text.
    The decoded object has whatever keys the text has; the values of
    the keys it has are of the types that the prompt asks for. *)
Variable World : Type.
Variable GEMINI_API_KEY : option string.
Variable completion : string -> string -> M World string.
Variable json_loads : string -> Result Answer.

Definition truthy (s : option string) : bool :=
  match s with
  | Some (String _ _) => true
  | _ => false
  end.

Definition lift {A} (r : Result A) : M World A := fun w => (r, w).

(** *** calculate_similarity_llm *)

(** The body of the [try] block. *)
Definition llm_try (product1 product2 : string) : M World Answer :=
  if negb (truthy GEMINI_API_KEY)
  then ret (answer (calculate_similarity_rule_based product1 product2))
  else
    (content <- completion product1 product2 ;;
     let result_text := strip (of_str content) in
     match re.search_braces result_text with
     | Some json_match =>
         (result <- lift (json_loads (to_str json_match)) ;;
          ret result)
     | None =>
         ret (answer (calculate_similarity_rule_based product1 product2))
     end)%eff.

Definition calculate_similarity_llm (product1 product2 : string)
  : M World Answer :=
  try_except
    (llm_try product1 product2)
    (fun _ =>
       ret (answer (calculate_similarity_rule_based product1 product2))).

(** The ways the semantic scorer fails, taking the world from [w] to
    the second index: no credential, an exception of the call, a reply
    without a brace-delimited object, a reply that does not decode. *)
Inductive scorer_fails (product1 product2 : string) (w : World)
  : World -> Prop :=
| missing_credential :
    truthy GEMINI_API_KEY = false ->
    scorer_fails product1 product2 w w
| call_raises e w' :
    truthy GEMINI_API_KEY = true ->
    completion product1 product2 w = (Raise e, w') ->
    scorer_fails product1 product2 w w'
| no_json_object content w' :
    truthy GEMINI_API_KEY = true ->
    completion product1 product2 w = (Ok content, w') ->
    re.search_braces (strip (of_str content)) = None ->
    scorer_fails product1 product2 w w'
| unparseable_json content json_match e w' :
    truthy GEMINI_API_KEY = true ->
    completion product1 product2 w = (Ok content, w') ->
    re.search_braces (strip (of_str content)) = Some json_match ->
    json_loads (to_str json_match) = Raise e ->
    scorer_fails product1 product2 w w'.

(** *** match_products *)

Definition processed (i : nat) (processed_indices : list nat) : bool :=
  existsb (Nat.eqb i) processed_indices.

Definition inner_state : Type := (Group * list nat * nat)%type.

(** One turn of [for j, entry2 in enumerate(raw_data[i+1:], i+1)]. *)
Definition inner_body (entry1 : Listing) (st : inner_state)
           (je : nat * Listing) : M World inner_state :=
  let '(current_group, processed_indices, match_count) := st in
  let '(j, entry2) := je in
  if processed j processed_indices then ret st
  else
    (title1 <- item "product" (product entry1) ;;
     title2 <- item "product" (product entry2) ;;
     similarity_result <- calculate_similarity_llm title1 title2 ;;
     matched <- lift (accepted similarity_result) ;;
     if matched : bool
     then
       (name <- item "unified_name" (a_unified_name similarity_result) ;;
        c <- item "confidence" (a_confidence similarity_result) ;;
        ret ({| g_unified_name := name;
                g_products := (g_products current_group ++ [entry2])%list;
                g_confidence := Qmin (g_confidence current_group) c;
                g_match_reasoning :=
                  default "AI-powered matching"
                          (a_reasoning similarity_result) |},
             j :: processed_indices,
             match_count + 1))
     else ret st)%eff.

(** One turn of [for product in current_group['products']]. *)
Definition add_platform (pl : dict (list Payload)) (l : Listing)
  : M World (dict (list Payload)) :=
  (s <- item "site" (site l) ;;
   let pl' := match get pl s with
              | None => set pl s []
              | Some _ => pl
              end in
   original <- item "product" (product l) ;;
   pr <- item "price" (price l) ;;
   ret (set pl' s (default [] (get pl' s) ++ [payload_of original pr l])%list))%eff.

(** The group seeded with [entry1], before the inner loop. *)
Definition seed_group (title : string) (entry1 : Listing) : Group :=
  {| g_unified_name := title;
     g_products := [entry1];
     g_confidence := 1;
     g_match_reasoning := "Primary product" |}.

(** The dictionary [unified_entry] of a finished group. *)
Definition finalize (current_group : Group) (pl : dict (list Payload))
  : UnifiedEntry :=
  {| u_confidence := round (g_confidence current_group) 3;
     u_match_reasoning := g_match_reasoning current_group;
     product_count := List.length (g_products current_group);
     platforms := pl |}.

(** The body of the outer loop for an unprocessed [i], up to the
    assignment into [unified_products]: the key, the entry and the
    updated [processed_indices] and [match_count]. *)
Definition form_group (raw_data : list Listing) (i : nat)
           (entry1 : Listing) (processed_indices : list nat)
           (match_count : nat)
  : M World (string * UnifiedEntry * list nat * nat) :=
  (title <- item "product" (product entry1) ;;
   ' (current_group, processed_indices, match_count) <-
     for_each (enumerate (skipn (i + 1) raw_data) (i + 1))
              (inner_body entry1)
              (seed_group title entry1, processed_indices, match_count) ;;
   let processed_indices := i :: processed_indices in
   pl <- for_each (g_products current_group) add_platform [] ;;
   ret (g_unified_name current_group, finalize current_group pl,
        processed_indices, match_count))%eff.

(** One turn of [for i, entry1 in enumerate(raw_data)]; [store] is the
    assignment [unified_products[key] = unified_entry]. *)
Definition outer_turn {Acc} (store : Acc -> string -> UnifiedEntry -> Acc)
           (raw_data : list Listing) (st : Acc * list nat * nat)
           (ie : nat * Listing) : M World (Acc * list nat * nat) :=
  let '(unified_products, processed_indices, match_count) := st in
  let '(i, entry1) := ie in
  if processed i processed_indices then ret st
  else
    (' (key, unified_entry, processed_indices, match_count) <-
       form_group raw_data i entry1 processed_indices match_count ;;
     ret (store unified_products key unified_entry,
          processed_indices, match_count))%eff.

Definition outer_body := outer_turn (@set UnifiedEntry).

Definition match_products (raw_data : list Listing)
  : M World (dict UnifiedEntry) :=
  match raw_data with
  | [] => ret []
  | _ =>
      (' (unified_products, _, _) <-
         for_each (enumerate raw_data 0) (outer_body raw_data)
                  ([], [], 0) ;;
       ret unified_products)%eff
  end.

(** *** Ghost views of a run, used to state the properties *)

(** The finished groups in the order of their formation: the outer
    loop with the assignment replaced by an append to a log. *)
Definition log_group (log : list (string * UnifiedEntry)) (key : string)
           (e : UnifiedEntry) : list (string * UnifiedEntry) :=
  (log ++ [(key, e)])%list.

Definition groups_formed (raw_data : list Listing)
  : M World (list (string * UnifiedEntry)) :=
  (' (log, _, _) <-
     for_each (enumerate raw_data 0) (outer_turn log_group raw_data)
              ([], [], 0) ;;
   ret log)%eff.

(** The confidences of the answers that pass the test of the inner
    loop, in order. *)
Fixpoint accepted_confidences (entry1 : Listing) (js : list (nat * Listing))
         (processed_indices : list nat) (w : World) : list Q :=
  match js with
  | [] => []
  | (j, entry2) :: js' =>
      if processed j processed_indices
      then accepted_confidences entry1 js' processed_indices w
      else
        match product entry1, product entry2 with
        | Some title1, Some title2 =>
            match calculate_similarity_llm title1 title2 w with
            | (Ok r, w') =>
                match accepted r, a_confidence r with
                | Ok true, Some c =>
                    c :: accepted_confidences entry1 js'
                                              (j :: processed_indices) w'
                | Ok false, _ =>
                    accepted_confidences entry1 js' processed_indices w'
                | _, _ => []
                end
            | (Raise _, _) => []
            end
        | _, _ => []
        end
  end.

End Flow.

(** *** Sample environments and data *)

(** A process without the external services. *)
Definition offline : string -> string -> M unit string :=
  fun _ _ => raise (OtherError "unreachable").

Definition undecodable : string -> Result Answer :=
  fun _ => Raise ValueError.

(** A service that answers every pair with the same verdict. *)
Definition always (reply : string) : string -> string -> M unit string :=
  fun _ _ => ret reply.

Definition decoded (r : Answer) : string -> Result Answer :=
  fun _ => Ok r.

Definition listing (platform title : string) (p : Q) : Listing :=
  {| product := Some title; site := Some platform; price := Some (VNum p);
     volume := None; category := None; market_id := None;
     description := None |}.

Definition sample_batch : list Listing :=
  [listing "Polymarket" "Will Trump win 2024 presidential election?" (62 # 100);
   listing "Kalshi" "Trump elected president 2024?" (59 # 100)].

(** *** Vocabulary of the engine's properties *)

(** An entry that carries the three keys the engine indexes. *)
Definition well_formed (l : Listing) : bool :=
  match product l, site l, price l with
  | Some _, Some _, Some _ => true
  | _, _, _ => false
  end.

(** An answer that carries the three keys the engine indexes. *)
Definition complete (r : Answer) : bool :=
  match a_same_event r, a_confidence r, a_unified_name r with
  | Some _, Some _, Some _ => true
  | _, _, _ => false
  end.



(** The exceptions of the engine: the missing key of a malformed entry
    of the batch. *)
Definition bad (raw_data : list Listing) (e : exn) : Prop :=
  (exists k, e = KeyError k) /\
  exists l, In l raw_data /\ well_formed l = false.

(** The entry without any key. *)
Definition no_keys : Listing :=
  {| product := None; site := None; price := None; volume := None;
     category := None; market_id := None; description := None |}.

Definition entry_at (raw_data : list Listing) (j : nat) : Listing :=
  nth j raw_data no_keys.

(** The platform and the payload that a listing contributes. *)
Definition item_of (l : Listing) : string * Payload :=
  (default "" (site l),
   payload_of (default "" (product l)) (default VNone (price l)) l).

(** All (platform, payload) pairs of a [platforms] mapping, of an entry
    and of a sequence of entries. *)
Definition platform_items (pl : dict (list Payload))
  : list (string * Payload) :=
  flat_map (fun sp => map (pair (fst sp)) (snd sp)) pl.

Definition entries_items (es : list (string * UnifiedEntry))
  : list (string * Payload) :=
  flat_map (fun ke => platform_items (platforms (snd ke))) es.

Definition payload_count (es : list (string * UnifiedEntry)) : nat :=
  List.length (entries_items es).

(** The mapping of [sample_batch] under the lexical scorer: one group of
    two members. *)
Definition sample_mapping : dict UnifiedEntry :=
  Eval vm_compute in
    match fst (match_products None offline undecodable sample_batch tt) with
    | Ok d => d
    | Raise _ => []
    end.

Definition sample_entry : UnifiedEntry :=
  Eval vm_compute in
    match sample_mapping with
    | (_, e) :: _ => e
    | [] => {| u_confidence := 0; u_match_reasoning := EmptyString;
               product_count := 0; platforms := [] |}
    end.

(** The mapping obtained by assigning the logged groups in order. *)
Definition dict_of_log (log : list (string * UnifiedEntry))
  : dict UnifiedEntry :=
  fold_left (fun d ke => set d (fst ke) (snd ke)) log [].

(** The entries after index [i], as the inner loop enumerates them. *)
Definition later (raw_data : list Listing) (i : nat)
  : list (nat * Listing) :=
  enumerate (skipn (i + 1) raw_data) (i + 1).

(** The state of the inner loop for the anchor [i], started from the
    group [g0] and the processed indices [P0]: the accepted indices
    [acc] (latest first) were consumed and their entries appended. *)
Definition inner_inv (raw_data : list Listing) (i : nat) (g0 : Group)
           (P0 : list nat) (st : Group * list nat * nat) : Prop :=
  let '(g, P, _) := st in
  exists acc,
    P = (acc ++ P0)%list /\
    g_products g = (g_products g0 ++ map (entry_at raw_data) (rev acc))%list /\
    (forall j, In j acc -> i < j < List.length raw_data) /\
    NoDup P.

(** What one formed group adds: the indices [i :: acc] it consumes. *)
Definition formed (raw_data : list Listing) (i : nat) (P0 : list nat)
           (r : string * UnifiedEntry * list nat * nat) : Prop :=
  let '(_, entry, P', _) := r in
  exists acc,
    P' = (i :: acc ++ P0)%list /\
    NoDup P' /\
    (forall j, In j acc -> i < j < List.length raw_data) /\
    Permutation (platform_items (platforms entry))
                (map item_of (map (entry_at raw_data) (i :: rev acc))) /\
    Forall (fun k => well_formed (entry_at raw_data k) = true) (i :: acc) /\
    product_count entry = S (List.length acc).

(** The state of the outer loop after the prefix [done] of the
    enumeration, with the groups logged in order. *)
Definition outer_inv (raw_data : list Listing) (done : list (nat * Listing))
           (st : list (string * UnifiedEntry) * list nat * nat) : Prop :=
  let '(log, P, _) := st in
  NoDup P /\
  (forall k, In k P -> k < List.length raw_data) /\
  (forall k, k < List.length done -> In k P) /\
  Permutation (entries_items log) (map item_of (map (entry_at raw_data) P)) /\
  Forall (fun k => well_formed (entry_at raw_data k) = true) P.

End identify_products.

(* ================================================================== *)
(** ** agents/rearrange_data.py *)
(* ================================================================== *)

Module rearrange_data.
Import Py.
Import identify_products.

(** *** [float(x)] *)

Definition digit (c : ascii) : option nat :=
  if in_range 48 57 c then Some (code c - 48) else None.

(** Reads the longest prefix of decimal digits, where a single
    underscore may stand between two digits: its value, the number of
    its digits and the rest. *)
Fixpoint digits (s : chars) (acc : Z) (n : nat) : Z * nat * chars :=
  match s with
  | [] => (acc, n, [])
  | c :: s' =>
      match digit c with
      | Some d => digits s' (acc * 10 + Z.of_nat d)%Z (S n)
      | None =>
          if (code c =? 95) && (0 <? n)
          then match s' with
               | c' :: _ =>
                   match digit c' with
                   | Some _ => digits s' acc n
                   | None => (acc, n, s)
                   end
               | [] => (acc, n, s)
               end
          else (acc, n, s)
      end
  end.

Definition sign (s : chars) : bool * chars :=
  match s with
  | c :: s' =>
      if code c =? 45 then (true, s')
      else if code c =? 43 then (false, s')
      else (false, s)
  | [] => (false, [])
  end.

Definition signed (neg : bool) (q : Q) : Q := if neg then Qopp q else q.

(** [float(s)] on a text: optional blanks around an optionally signed
    decimal numeral with an optional fraction and an optional exponent.
    Numbers are rationals here: the spellings of the infinities and of
    the not-a-number are not numerals of this embedding. *)
Definition parse_float (text : chars) : option Q :=
  let '(neg, s) := sign (strip text) in
  let '(ip, ni, s) := digits s 0%Z 0 in
  let '(fp, nf, s) :=
    match s with
    | c :: r => if code c =? 46 then digits r 0%Z 0 else (0%Z, 0, s)
    | [] => (0%Z, 0, s)
    end in
  if ni + nf =? 0 then None
  else
    let scale := Z.pow 10 (Z.of_nat nf) in
    let mantissa := Qmake (ip * scale + fp) (Z.to_pos scale) in
    match s with
    | [] => Some (signed neg mantissa)
    | c :: r =>
        if (code c =? 101) || (code c =? 69)
        then
          let '(eneg, r) := sign r in
          let '(ev, ne, r) := digits r 0%Z 0 in
          match ne, r with
          | S _, [] =>
              Some (signed neg
                      (Qmult mantissa
                             (Qpower (inject_Z 10)
                                     (if eneg then Z.opp ev else ev))))
          | _, _ => None
          end
        else None
    end.

Definition float (v : value) : Result Q :=
  match v with
  | VNum q => Ok q
  | VBool b => Ok (if b then 1%Q else 0%Q)
  | VStr s =>
      match parse_float (of_str s) with
      | Some q => Ok q
      | None => Raise ValueError
      end
  | VNone => Raise TypeError
  end.

Definition bind {A B} (r : Result A) (f : A -> Result B) : Result B :=
  match r with
  | Ok x => f x
  | Raise e => Raise e
  end.

(** [try: x = float(data.get(key, 0))
     except (ValueError, TypeError): x = 0.0] *)
Definition coerce (field : option value) : Result Q :=
  match float (default (VNum 0) field) with
  | Ok q => Ok q
  | Raise ValueError => Ok 0%Q
  | Raise TypeError => Ok 0%Q
  | Raise e => Raise e
  end.

(** [x / y] *)
Definition div (x y : Q) : Result Q :=
  if Qeq_bool y 0 then Raise ZeroDivisionError else Ok (Qdiv x y).

Definition len (l : list Q) : Q := inject_Z (Z.of_nat (List.length l)).

Record PriceStats : Type := {
  min_price : Q;
  max_price : Q;
  avg_price : Q;
  price_spread : Q;
  price_variance : Q
}.

Record VolumeStats : Type := {
  total_volume : Q;
  avg_volume : Q;
  max_volume : Q
}.

Record Coverage : Type := {
  platforms_count : nat;
  platforms_list : list string
}.

Record Best : Type := {
  highest_probability_platform : string;
  highest_probability_price : Q;
  arbitrage_opportunity : bool
}.

(** The four entries of [metrics]; [None] is the empty dictionary. *)
Record Metrics : Type := {
  price_stats : option PriceStats;
  volume_stats : option VolumeStats;
  platform_coverage : Coverage;
  best_opportunities : option Best
}.

(** [prices], [volumes] and [platform_prices] of the first loop. *)
Definition collected : Type := (list Q * list Q * dict Q)%type.

(** One turn of [for platform, data_list in platforms_data.items()]. *)
Definition collect (st : collected) (pd : string * list Payload)
  : Result collected :=
  let '(prices, volumes, platform_prices) := st in
  let '(platform, data_list) := pd in
  match data_list with
  | [] => Ok st
  | data :: _ =>
      bind (coerce (p_price data)) (fun pr =>
      bind (coerce (p_volume data)) (fun vol =>
      let '(prices, platform_prices) :=
        if Qltb 0 pr
        then (prices ++ [pr], set platform_prices platform pr)
        else (prices, platform_prices) in
      let volumes := if Qltb 0 vol then volumes ++ [vol] else volumes in
      Ok (prices, volumes, platform_prices)))
  end.

Fixpoint collect_all (st : collected) (items : dict (list Payload))
  : Result collected :=
  match items with
  | [] => Ok st
  | pd :: items' => bind (collect st pd) (fun st' => collect_all st' items')
  end.

(** [max(d, key=d.get)] on a non-empty dictionary: the first key of
    largest value. *)
Definition argmax (first : string * Q) (d : dict Q) : string * Q :=
  fold_left (fun best kv => if Qltb (snd best) (snd kv) then kv else best)
            d first.

Definition price_statistics (prices : list Q) : Result (option PriceStats) :=
  match prices with
  | [] => Ok None
  | p :: ps =>
      let lo := min_list p ps in
      let hi := max_list p ps in
      bind (div (sum prices) (len prices)) (fun avg =>
      bind (div (sum (map (fun x => Qpower (Qminus x avg) 2) prices))
                (len prices)) (fun var =>
      Ok (Some {| min_price := lo;
                  max_price := hi;
                  avg_price := avg;
                  price_spread :=
                    if 1 <? List.length prices then Qminus hi lo else 0%Q;
                  price_variance := var |})))
  end.

Definition best_opportunity (prices : list Q) (platform_prices : dict Q)
  : option Best :=
  match prices, platform_prices with
  | p :: ps, kv :: rest =>
      let best := argmax kv rest in
      Some {| highest_probability_platform := fst best;
              highest_probability_price :=
                default 0%Q (get platform_prices (fst best));
              arbitrage_opportunity :=
                Qltb (5 # 100) (Qminus (max_list p ps) (min_list p ps)) |}
  | _, _ => None
  end.

Definition volume_statistics (volumes : list Q)
  : Result (option VolumeStats) :=
  match volumes with
  | [] => Ok None
  | v :: vs =>
      bind (div (sum volumes) (len volumes)) (fun avg =>
      Ok (Some {| total_volume := sum volumes;
                  avg_volume := avg;
                  max_volume := max_list v vs |}))
  end.

Definition calculate_advanced_metrics (platforms_data : dict (list Payload))
  : Result Metrics :=
  bind (collect_all ([], [], []) platforms_data) (fun st =>
  let '(prices, volumes, platform_prices) := st in
  bind (price_statistics prices) (fun ps =>
  bind (volume_statistics volumes) (fun vs =>
  Ok {| price_stats := ps;
        volume_stats := vs;
        platform_coverage :=
          {| platforms_count := List.length platforms_data;
             platforms_list := keys platforms_data |};
        best_opportunities := best_opportunity prices platform_prices |}))).

(** *** Vocabulary of the metrics' properties *)

(** The number that the guarded conversion leaves in [price] or
    [volume]. *)
Definition coerced (field : option value) : Q :=
  match coerce field with
  | Ok q => q
  | Raise _ => 0%Q
  end.


(** The platforms whose first payload has a positive price, with that
    price; the positive volumes of the first payloads. *)
Definition priced (platforms_data : dict (list Payload))
  : list (string * Q) :=
  flat_map
    (fun pd =>
       match snd pd with
       | data :: _ =>
           if Qltb 0 (coerced (p_price data))
           then [(fst pd, coerced (p_price data))] else []
       | [] => []
       end)
    platforms_data.

Definition positive_volumes (platforms_data : dict (list Payload))
  : list Q :=
  flat_map
    (fun pd =>
       match snd pd with
       | data :: _ =>
           if Qltb 0 (coerced (p_volume data))
           then [coerced (p_volume data)] else []
       | [] => []
       end)
    platforms_data.

Definition assign_all (d : dict Q) (kqs : list (string * Q)) : dict Q :=
  fold_left (fun d kq => set d (fst kq) (snd kq)) kqs d.

Definition with_price (pr : option value) (data : Payload) : Payload :=
  {| original_product := original_product data;
     p_price := pr;
     p_volume := p_volume data;
     p_category := p_category data;
     p_market_id := p_market_id data;
     p_description := p_description data |}.

Definition with_volume (vol : option value) (data : Payload) : Payload :=
  {| original_product := original_product data;
     p_price := p_price data;
     p_volume := vol;
     p_category := p_category data;
     p_market_id := p_market_id data;
     p_description := p_description data |}.


Definition payload (pr : value) (vol : value) : Payload :=
  {| original_product := "Bitcoin above $100k";
     p_price := Some pr;
     p_volume := Some vol;
     p_category := "Crypto";
     p_market_id := "m1";
     p_description := EmptyString |}.

(** *** create_comprehensive_csv *)

Local Open Scope string_scope.

(** One group of [unified_data] as it is read back from the file;
    [None] is an absent key. *)
Record ProductData : Type := {
  d_platforms : option (dict (list Payload));
  d_confidence : option Q;
  d_product_count : option nat;
  d_match_reasoning : option string
}.

(** The group that the engine has written. *)
Definition product_data (e : UnifiedEntry) : ProductData :=
  {| d_platforms := Some (platforms e);
     d_confidence := Some (u_confidence e);
     d_product_count := Some (product_count e);
     d_match_reasoning := Some (u_match_reasoning e) |}.

(** A row of the table: the dictionary from column names to cells. *)
Definition Row : Type := dict value.

Definition of_int (n : nat) : value := VNum (inject_Z (Z.of_nat n)).

(** [stats.get(key)] on a statistics dictionary that may be empty. *)
Definition stat {S} (stats : option S) (field : S -> Q) : value :=
  match stats with
  | Some s => VNum (field s)
  | None => VNone
  end.

(** The row before the loop over the platforms. *)
Definition initial_row (product_name : string) (product_data : ProductData)
           (metrics : Metrics) : Row :=
  [ ("Product_Name", VStr product_name);
    ("Confidence_Score", VNum (default 0%Q (d_confidence product_data)));
    ("Product_Count", of_int (default 1 (d_product_count product_data)));
    ("Match_Reasoning", VStr (default "" (d_match_reasoning product_data)));
    ("Polymarket_Price", VNone);
    ("Kalshi_Price", VNone);
    ("Prediction_Market_Price", VNone);
    ("Manifold_Price", VNone);
    ("Polymarket_Volume", VNone);
    ("Kalshi_Volume", VNone);
    ("Prediction_Market_Volume", VNone);
    ("Manifold_Volume", VNone);
    ("Primary_Category", VStr "General");
    ("Min_Price", stat (price_stats metrics) min_price);
    ("Max_Price", stat (price_stats metrics) max_price);
    ("Avg_Price", stat (price_stats metrics) avg_price);
    ("Price_Spread", stat (price_stats metrics) price_spread);
    ("Price_Variance", stat (price_stats metrics) price_variance);
    ("Total_Volume",
     match volume_stats metrics with
     | Some vs => VNum (total_volume vs)
     | None => VNum 0
     end);
    ("Avg_Volume", stat (volume_stats metrics) avg_volume);
    ("Max_Volume", stat (volume_stats metrics) max_volume);
    ("Platform_Count", of_int (platforms_count (platform_coverage metrics)));
    ("Available_Platforms",
     VStr (String.concat ", " (platforms_list (platform_coverage metrics))));
    ("Best_Price_Platform",
     match best_opportunities metrics with
     | Some b => VStr (highest_probability_platform b)
     | None => VNone
     end);
    ("Best_Price_Value",
     stat (best_opportunities metrics) highest_probability_price);
    ("Arbitrage_Opportunity",
     VBool match best_opportunities metrics with
           | Some b => arbitrage_opportunity b
           | None => false
           end);
    ("Market_IDs", VStr "") ]%list.

(** [try: x = float(data.get(key, 0))
            if data.get(key) is not None else None
     except (ValueError, TypeError): x = None] *)
Definition cell (field : option value) : Result value :=
  match field with
  | None => Ok VNone
  | Some VNone => Ok VNone
  | Some v =>
      match float v with
      | Ok q => Ok (VNum q)
      | Raise ValueError => Ok VNone
      | Raise TypeError => Ok VNone
      | Raise e => Raise e
      end
  end.

(** The [if]/[elif] chain that maps a platform to its two columns. *)
Definition set_cells (platform : string) (price volume : value) (row : Row)
  : Row :=
  if platform =? "Polymarket"
  then set (set row "Polymarket_Price" price) "Polymarket_Volume" volume
  else if platform =? "Kalshi"
  then set (set row "Kalshi_Price" price) "Kalshi_Volume" volume
  else if platform =? "Prediction-Market"
  then set (set row "Prediction_Market_Price" price)
           "Prediction_Market_Volume" volume
  else if platform =? "Manifold"
  then set (set row "Manifold_Price" price) "Manifold_Volume" volume
  else row.

(** [row], [market_ids] and [categories] of the loop over the
    platforms; the set [categories] is kept as a duplicate-free list. *)
Definition filling : Type := (Row * list string * list string)%type.

(** One turn of [for platform, data_list in platforms.items()]. *)
Definition fill (st : filling) (pd : string * list Payload) : Result filling :=
  let '(row, market_ids, categories) := st in
  let '(platform, data_list) := pd in
  match data_list with
  | [] => Ok st
  | data :: _ =>
      bind (cell (p_price data)) (fun price =>
      bind (cell (p_volume data)) (fun volume =>
      let category := p_category data in
      let market_id := p_market_id data in
      let categories := add category categories in
      let market_ids :=
        match market_id with
        | EmptyString => market_ids
        | _ => (market_ids ++ [(platform ++ ":" ++ market_id)%string])%list
        end in
      Ok (set_cells platform price volume row, market_ids, categories)))
  end.

Fixpoint fill_all (st : filling) (items : dict (list Payload))
  : Result filling :=
  match items with
  | [] => Ok st
  | pd :: items' => bind (fill st pd) (fun st' => fill_all st' items')
  end.

Section Csv.
(** [list(s)] for a set [s] of strings, given as the list of its
    elements: the elements in the order of the table of the set, which
    follows the hashes of the strings and changes from one process to
    the next. *)
Variable set_order : list string -> list string.

(** The row of one group. *)
Definition csv_row (product_name : string) (product_data : ProductData)
  : Result Row :=
  let platforms := default []%list (d_platforms product_data) in
  bind (calculate_advanced_metrics platforms) (fun metrics =>
  let row := initial_row product_name product_data metrics in
  bind (fill_all (row, [], [])%list platforms) (fun st =>
  let '(row, market_ids, categories) := st in
  let row :=
    set row "Primary_Category"
        (VStr match categories with
              | []%list => "General"
              | _ => hd "General" (set_order categories)
              end) in
  let row := set row "Market_IDs" (VStr (String.concat " | " market_ids)) in
  Ok row)).

Fixpoint create_comprehensive_csv (unified_data : dict ProductData)
  : Result (list Row) :=
  match unified_data with
  | [] => Ok []
  | (product_name, product_data) :: unified_data' =>
      bind (csv_row product_name product_data) (fun row =>
      bind (create_comprehensive_csv unified_data') (fun csv_data =>
      Ok (row :: csv_data)))
  end%list.

End Csv.

(** *** create_simplified_csv *)

(** [row[key]] *)
Definition getitem (row : Row) (key : string) : Result value :=
  match get row key with
  | Some v => Ok v
  | None => Raise (KeyError key)
  end.

(** [row[key] if row[key] is not None else '-'] *)
Definition or_dash (row : Row) (key : string) : Result value :=
  bind (getitem row key) (fun v =>
  match v with
  | VNone => Ok (VStr "-")
  | _ => getitem row key
  end).

Definition simple_row (row : Row) : Result Row :=
  bind (getitem row "Product_Name") (fun product =>
  bind (or_dash row "Polymarket_Price") (fun polymarket =>
  bind (or_dash row "Kalshi_Price") (fun kalshi =>
  bind (or_dash row "Prediction_Market_Price") (fun prediction_market =>
  bind (or_dash row "Manifold_Price") (fun manifold =>
  bind (or_dash row "Best_Price_Value") (fun best_price =>
  bind (or_dash row "Price_Spread") (fun price_spread =>
  bind (getitem row "Confidence_Score") (fun confidence =>
  bind (getitem row "Primary_Category") (fun category =>
  bind (getitem row "Platform_Count") (fun platforms =>
  Ok [ ("Product", product);
       ("Polymarket", polymarket);
       ("Kalshi", kalshi);
       ("Prediction_Market", prediction_market);
       ("Manifold", manifold);
       ("Best_Price", best_price);
       ("Price_Spread", price_spread);
       ("Confidence", confidence);
       ("Category", category);
       ("Platforms", platforms) ]%list)))))))))).

Fixpoint create_simplified_csv (csv_data : list Row) : Result (list Row) :=
  match csv_data with
  | [] => Ok []
  | row :: csv_data' =>
      bind (simple_row row) (fun simple =>
      bind (create_simplified_csv csv_data') (fun simplified_data =>
      Ok (simple :: simplified_data)))
  end%list.

(** *** create_analysis_reports *)

Record PlatformStat : Type := {
  count : nat;
  platform_volume : Q
}.

(** [x == y] on scalar values, which is also the identity of a
    dictionary key: numbers and booleans compare as numbers. *)
Definition as_number (v : value) : option Q :=
  match v with
  | VNum q => Some q
  | VBool b => Some (if b then 1%Q else 0%Q)
  | _ => None
  end.

Definition py_eqb (x y : value) : bool :=
  match x, y with
  | VNone, VNone => true
  | VStr a, VStr b => a =? b
  | _, _ =>
      match as_number x, as_number y with
      | Some p, Some q => Qeq_bool p q
      | _, _ => false
      end
  end.

(** [category_stats[category] = category_stats.get(category, 0) + 1] *)
Fixpoint tally (category_stats : list (value * nat)) (category : value)
  : list (value * nat) :=
  match category_stats with
  | [] => [(category, 1)]
  | (c, n) :: rest =>
      if py_eqb c category then (c, n + 1) :: rest
      else (c, n) :: tally rest category
  end%list.

(** [x >= bound] for a float [bound]; texts and [None] do not compare
    with numbers. *)
Definition at_least (x : value) (bound : Q) : Result bool :=
  match as_number x with
  | Some q => Ok (Qle_bool bound q)
  | None => Raise TypeError
  end.

Record Ranges : Type := {
  high : nat;
  medium : nat;
  low : nat
}.

Record Reports : Type := {
  r_platform_coverage : dict PlatformStat;
  category_breakdown : list (value * nat);
  confidence_distribution : Ranges;
  total_products : nat
}.

(** The body of [for platform in platform_stats] for one row. *)
Definition cover (row : Row) (ps : string * PlatformStat)
  : Result (string * PlatformStat) :=
  let '(platform, st) := ps in
  let price := get row (platform ++ "_Price") in
  let volume := get row (platform ++ "_Volume") in
  let count :=
    match price with
    | None | Some VNone => count st
    | Some _ => count st + 1
    end in
  match volume with
  | None | Some VNone =>
      Ok (platform, {| count := count; platform_volume := platform_volume st |})
  | Some v =>
      match float v with
      | Ok volume_float =>
          Ok (platform,
              {| count := count;
                 platform_volume := Qplus (platform_volume st) volume_float |})
      | Raise ValueError | Raise TypeError =>
          Ok (platform,
              {| count := count; platform_volume := platform_volume st |})
      | Raise e => Raise e
      end
  end.

Fixpoint cover_all (row : Row) (platform_stats : dict PlatformStat)
  : Result (dict PlatformStat) :=
  match platform_stats with
  | [] => Ok []
  | ps :: rest =>
      bind (cover row ps) (fun ps' =>
      bind (cover_all row rest) (fun rest' => Ok (ps' :: rest')))
  end%list.

Definition tallies : Type :=
  (dict PlatformStat * list (value * nat) * Ranges)%type.

(** One turn of [for row in csv_data]. *)
Definition report_row (st : tallies) (row : Row) : Result tallies :=
  let '(platform_stats, category_stats, confidence_ranges) := st in
  bind (cover_all row platform_stats) (fun platform_stats =>
  bind (getitem row "Primary_Category") (fun category =>
  let category_stats := tally category_stats category in
  bind (getitem row "Confidence_Score") (fun confidence =>
  bind (at_least confidence (8 # 10)) (fun is_high =>
  if is_high : bool
  then Ok (platform_stats, category_stats,
           {| high := high confidence_ranges + 1;
              medium := medium confidence_ranges;
              low := low confidence_ranges |})
  else
    bind (at_least confidence (6 # 10)) (fun is_medium =>
    if is_medium : bool
    then Ok (platform_stats, category_stats,
             {| high := high confidence_ranges;
                medium := medium confidence_ranges + 1;
                low := low confidence_ranges |})
    else Ok (platform_stats, category_stats,
             {| high := high confidence_ranges;
                medium := medium confidence_ranges;
                low := low confidence_ranges + 1 |})))))).

Fixpoint report_rows (st : tallies) (csv_data : list Row) : Result tallies :=
  match csv_data with
  | [] => Ok st
  | row :: csv_data' =>
      bind (report_row st row) (fun st' => report_rows st' csv_data')
  end%list.

Definition create_analysis_reports (csv_data : list Row) : Result Reports :=
  let platform_stats :=
    [ ("Polymarket", {| count := 0; platform_volume := 0 |});
      ("Kalshi", {| count := 0; platform_volume := 0 |});
      ("Prediction_Market", {| count := 0; platform_volume := 0 |});
      ("Manifold", {| count := 0; platform_volume := 0 |}) ]%list in
  bind (report_rows (platform_stats, []%list,
                     {| high := 0; medium := 0; low := 0 |}) csv_data)
       (fun st =>
  let '(platform_stats, category_stats, confidence_ranges) := st in
  Ok {| r_platform_coverage := platform_stats;
        category_breakdown := category_stats;
        confidence_distribution := confidence_ranges;
        total_products := List.length csv_data |}).

(** *** Vocabulary of the table's properties *)

(** The columns of the comprehensive table, in order. *)
Definition columns : list string :=
  [ "Product_Name"; "Confidence_Score"; "Product_Count"; "Match_Reasoning";
    "Polymarket_Price"; "Kalshi_Price"; "Prediction_Market_Price";
    "Manifold_Price"; "Polymarket_Volume"; "Kalshi_Volume";
    "Prediction_Market_Volume"; "Manifold_Volume"; "Primary_Category";
    "Min_Price"; "Max_Price"; "Avg_Price"; "Price_Spread"; "Price_Variance";
    "Total_Volume"; "Avg_Volume"; "Max_Volume"; "Platform_Count";
    "Available_Platforms"; "Best_Price_Platform"; "Best_Price_Value";
    "Arbitrage_Opportunity"; "Market_IDs" ]%list.

(** The columns that the loop over the platforms and the two last
    assignments write. *)
Definition written : list string :=
  [ "Polymarket_Price"; "Kalshi_Price"; "Prediction_Market_Price";
    "Manifold_Price"; "Polymarket_Volume"; "Kalshi_Volume";
    "Prediction_Market_Volume"; "Manifold_Volume"; "Primary_Category";
    "Market_IDs" ]%list.

(** The platforms that have columns, each with the prefix of its two
    columns. *)
Definition known_platforms : list (string * string) :=
  [ ("Polymarket", "Polymarket"); ("Kalshi", "Kalshi");
    ("Prediction-Market", "Prediction_Market"); ("Manifold", "Manifold") ]%list.

(** The cell that the guarded conversion leaves. *)
Definition shown (field : option value) : value :=
  match cell field with
  | Ok v => v
  | Raise _ => VNone
  end.

(** The first payload of a platform, if it has one. *)
Definition first_payload (platforms : dict (list Payload)) (platform : string)
  : option Payload :=
  match get platforms platform with
  | Some (data :: _)%list => Some data
  | _ => None
  end.

(** The columns of the simplified table. *)
Definition simple_columns : list string :=
  [ "Product"; "Polymarket"; "Kalshi"; "Prediction_Market"; "Manifold";
    "Best_Price"; "Price_Spread"; "Confidence"; "Category"; "Platforms" ]%list.
(** The cell of the simplified table for a cell of the comprehensive
    one where [None] is shown as a dash. *)
Definition dashed (v : value) : value :=
  match v with
  | VNone => VStr "-"
  | _ => v
  end.

(** Each column of the simplified table with the column that it reads
    and whether [None] is shown as a dash there. *)
Definition simple_sources : list (string * string * bool) :=
  [ ("Product", "Product_Name", false);
    ("Polymarket", "Polymarket_Price", true);
    ("Kalshi", "Kalshi_Price", true);
    ("Prediction_Market", "Prediction_Market_Price", true);
    ("Manifold", "Manifold_Price", true);
    ("Best_Price", "Best_Price_Value", true);
    ("Price_Spread", "Price_Spread", true);
    ("Confidence", "Confidence_Score", false);
    ("Category", "Primary_Category", false);
    ("Platforms", "Platform_Count", false) ]%list.

(** The row has a price in the column of the platform. *)
Definition has_price (platform : string) (row : Row) : bool :=
  match get row (platform ++ "_Price") with
  | None | Some VNone => false
  | Some _ => true
  end.

(** The sum of the counts of a breakdown. *)
Fixpoint counted (category_stats : list (value * nat)) : nat :=
  match category_stats with
  | [] => 0
  | (_, n) :: rest => n + counted rest
  end%list.

(** No two keys of a breakdown are equal. *)
Fixpoint distinct (category_stats : list (value * nat)) : Prop :=
  match category_stats with
  | [] => True
  | (c, _) :: rest =>
      Forall (fun dn => py_eqb (fst dn) c = false) rest /\ distinct rest
  end%list.

(** The platforms of the coverage report. *)
Definition report_platforms : list string :=
  [ "Polymarket"; "Kalshi"; "Prediction_Market"; "Manifold" ]%list.

(** The mapping of the engine as the table builder reads it. *)
Definition unified_of (d : dict UnifiedEntry) : dict ProductData :=
  map (fun ke => (fst ke, product_data (snd ke))) d.

Definition sample_unified : dict ProductData :=
  Eval vm_compute in unified_of sample_mapping.

Definition sample_table : list Row :=
  Eval vm_compute in
    match create_comprehensive_csv (fun categories => categories) sample_unified with
    | Ok csv_data => csv_data
    | Raise _ => []%list
    end.

Definition sample_row : Row := Eval vm_compute in hd []%list sample_table.
(** A row of the simplified table against the row it is made from. *)
Definition simple_of (row simple : Row) : Prop :=
  keys simple = simple_columns /\
  forall target source dash,
    In (target, source, dash) simple_sources ->
    exists v, get row source = Some v /\
              get simple target = Some (if dash : bool then dashed v else v).

(** The statistics of a platform after the rows [rows]. *)
Definition covered (rows : list Row) (ps ps' : string * PlatformStat) : Prop :=
  fst ps' = fst ps /\
  count (snd ps') = count (snd ps) + List.length (filter (has_price (fst ps)) rows).

(** The confidence of a row as a number, if it is one. *)
Definition confidence_of (row : Row) : option Q :=
  match get row "Confidence_Score" with
  | Some v => as_number v
  | None => None
  end.

Definition scored (p : Q -> bool) (row : Row) : bool :=
  match confidence_of row with
  | Some q => p q
  | None => false
  end.

Definition in_high (q : Q) : bool := Qle_bool (8 # 10) q.
Definition in_low (q : Q) : bool := negb (Qle_bool (6 # 10) q).

(** The row on which the reports stop, with the exception. *)
Definition report_error (row : Row) (e : exn) : Prop :=
  (get row "Primary_Category" = None /\ e = KeyError "Primary_Category") \/
  (get row "Primary_Category" <> None /\
   get row "Confidence_Score" = None /\ e = KeyError "Confidence_Score") \/
  (get row "Primary_Category" <> None /\
   get row "Confidence_Score" <> None /\
   confidence_of row = None /\ e = TypeError).

(** The three tallies after the rows [rows]. *)
Definition tallied (rows : list Row) (st st' : tallies) : Prop :=
  let '(platform_stats, category_stats, r) := st in
  let '(platform_stats', category_stats', r') := st' in
  Forall2 (covered rows) platform_stats platform_stats' /\
  counted category_stats' = counted category_stats + List.length rows /\
  (distinct category_stats -> distinct category_stats') /\
  high r' = high r + List.length (filter (scored in_high) rows) /\
  low r' = low r + List.length (filter (scored in_low) rows) /\
  high r' + medium r' + low r'
  = high r + medium r + low r + List.length rows.
(** The metrics of the platforms of [sample_entry]. *)
Definition sample_metrics : Metrics :=
  Eval vm_compute in
    match calculate_advanced_metrics (platforms sample_entry) with
    | Ok metrics => metrics
    | Raise _ =>
        {| price_stats := None; volume_stats := None;
           platform_coverage := {| platforms_count := 0; platforms_list := []%list |};
           best_opportunities := None |}
    end.

Definition sample_best : Best :=
  Eval vm_compute in
    match best_opportunities sample_metrics with
    | Some best => best
    | None =>
        {| highest_probability_platform := ""; highest_probability_price := 0;
           arbitrage_opportunity := false |}
    end.

End rearrange_data.

(* ================================================================== *)
(** * Properties *)
(* ================================================================== *)

Unset Implicit Arguments.
Import Py Eff identify_products.

(** ** Rationals and rounding *)


Lemma Qltb_lt x y : Qltb x y = true <-> (x < y)%Q.
Proof.
  unfold Qltb. rewrite Qlt_alt. destruct (x ?= y)%Q; split; congruence.
Qed.

Lemma Qltb_ge x y : Qltb x y = false <-> (y <= x)%Q.
Proof.
  rewrite <- Bool.not_true_iff_false, Qltb_lt. split; intro H.
  - apply Qnot_lt_le; exact H.
  - apply Qle_not_lt; exact H.
Qed.

Lemma round_half_even_comp x y : (x == y)%Q -> round_half_even x = round_half_even y.
Proof.
  intro H. unfold round_half_even.
  rewrite (Qfloor_comp _ _ H).
  assert (E : (x - inject_Z (Qfloor y) == y - inject_Z (Qfloor y))%Q) by (rewrite H; reflexivity).
  rewrite (Qcompare_comp _ _ E (1#2)%Q (1#2)%Q (Qeq_refl _)). reflexivity.
Qed.

Lemma round_comp x y n : (x == y)%Q -> Py.round x n = Py.round y n.
Proof.
  intro H. unfold Py.round. f_equal. apply round_half_even_comp. rewrite H. reflexivity.
Qed.




Lemma accepted_answer v :
  accepted (answer v) = Ok (same_event v && Qltb threshold (confidence v)).
Proof. unfold accepted, answer; simpl. destruct (same_event v); reflexivity. Qed.



(** ** Loops *)

Lemma for_each_app {W A S} (body : S -> A -> M W S) xs ys s w :
  for_each (xs ++ ys) body s w =
  match for_each xs body s w with
  | (Ok s', w') => for_each ys body s' w'
  | (Raise e, w') => (Raise e, w')
  end.
Proof.
  revert s w. induction xs as [| x xs IH]; intros s w; simpl.
  - reflexivity.
  - unfold bind. destruct (body s x w) as [[s' | e] w']; auto.
Qed.

Lemma for_each_spec {W A S} (body : S -> A -> M W S)
      (I : list A -> S -> Prop) (E : exn -> Prop) :
  forall xs done s w,
    I done s ->
    (forall done' x rest s w,
        done ++ xs = done' ++ x :: rest -> I done' s ->
        match body s x w with
        | (Ok s', _) => I (done' ++ [x]) s'
        | (Raise e, _) => E e
        end) ->
    match for_each xs body s w with
    | (Ok s', _) => I (done ++ xs) s'
    | (Raise e, _) => E e
    end.
Proof.
  induction xs as [| x xs IH]; intros done s w HI Hstep; simpl.
  - rewrite app_nil_r. exact HI.
  - unfold bind.
    specialize (Hstep done x xs s w eq_refl HI) as H1.
    destruct (body s x w) as [[s' | e] w']; [| exact H1].
    replace (done ++ x :: xs) with ((done ++ [x]) ++ xs) by (rewrite <- app_assoc; reflexivity).
    apply IH; [exact H1 |].
    intros done' y rest s0 w0 Heq. apply (Hstep done' y rest). rewrite <- Heq, <- app_assoc. reflexivity.
Qed.

(** ** enumerate *)

Lemma enumerate_fst {A} (xs : list A) k : map fst (enumerate xs k) = seq k (List.length xs).
Proof. revert k. induction xs; intros k; simpl; [reflexivity | rewrite IHxs; reflexivity]. Qed.

Lemma enumerate_snd {A} (xs : list A) k : map snd (enumerate xs k) = xs.
Proof. revert k. induction xs; intros k; simpl; [reflexivity | rewrite IHxs; reflexivity]. Qed.

Lemma enumerate_app {A} (xs ys : list A) k :
  enumerate (xs ++ ys) k = enumerate xs k ++ enumerate ys (k + List.length xs).
Proof.
  revert k. induction xs; intros k; simpl.
  - rewrite Nat.add_0_r. reflexivity.
  - rewrite IHxs. simpl. rewrite Nat.add_succ_r. reflexivity.
Qed.

Lemma enumerate_length {A} (xs : list A) k : List.length (enumerate xs k) = List.length xs.
Proof. revert k. induction xs; intros; simpl; auto. Qed.

Lemma enumerate_In {A} (xs : list A) k j e :
  In (j, e) (enumerate xs k) -> k <= j /\ nth_error xs (j - k) = Some e.
Proof.
  revert k. induction xs as [| x xs IH]; intros k H; simpl in H; [contradiction |].
  destruct H as [H | H].
  - inversion H; subst. rewrite Nat.sub_diag. split; [lia | reflexivity].
  - apply IH in H. destruct H as [H1 H2]. split; [lia |].
    replace (j - k) with (S (j - S k)) by lia. exact H2.
Qed.

Lemma enumerate_skipn_In {A} (raw : list A) k j e :
  In (j, e) (enumerate (skipn k raw) k) -> k <= j /\ nth_error raw j = Some e.
Proof.
  intro H. apply enumerate_In in H. destruct H as [H1 H2]. split; [exact H1 |].
  rewrite nth_error_skipn in H2. replace (k + (j - k)) with j in H2 by lia. exact H2.
Qed.

Lemma enumerate_split {A} (xs : list A) k done x rest :
  enumerate xs k = done ++ x :: rest ->
  fst x = k + List.length done /\ nth_error xs (List.length done) = Some (snd x).
Proof.
  intro H.
  assert (H1 := f_equal (map fst) H). assert (H2 := f_equal (map snd) H).
  rewrite enumerate_fst, map_app in H1. rewrite enumerate_snd, map_app in H2. simpl in *.
  split.
  - assert (H3 := f_equal (fun l => nth (List.length done) l 0) H1). simpl in H3.
    rewrite app_nth2 in H3 by (rewrite length_map; lia).
    rewrite length_map, Nat.sub_diag in H3. simpl in H3. rewrite <- H3.
    apply seq_nth.
    assert (H4 := f_equal (@List.length _) H1). rewrite length_seq, length_app, !length_map in H4. simpl in H4. lia.
  - rewrite H2. rewrite nth_error_app2 by (rewrite length_map; lia).
    rewrite length_map, Nat.sub_diag. reflexivity.
Qed.

(** ** Dictionaries *)

Lemma get_set_same {V} (d : dict V) k v : get (set d k v) k = Some v.
Proof.
  induction d as [| [k' v'] d IH]; simpl.
  - rewrite String.eqb_refl. reflexivity.
  - destruct (String.eqb k' k) eqn:E; simpl; rewrite E; auto.
Qed.

Lemma set_set {V} (d : dict V) k v v' : set (set d k v) k v' = set d k v'.
Proof.
  induction d as [| [k0 v0] d IH]; simpl.
  - rewrite String.eqb_refl. reflexivity.
  - destruct (String.eqb k0 k) eqn:E; simpl; rewrite E; [reflexivity | rewrite IH; reflexivity].
Qed.

Lemma platform_items_set_new (pl : dict (list Payload)) s ps :
  get pl s = None ->
  platform_items (set pl s ps) = platform_items pl ++ map (pair s) ps.
Proof.
  unfold platform_items.
  induction pl as [| [k v] pl IH]; simpl; intro G.
  - rewrite app_nil_r. reflexivity.
  - destruct (String.eqb k s) eqn:E; [discriminate |].
    simpl. rewrite IH by exact G. rewrite app_assoc. reflexivity.
Qed.

Lemma platform_items_set_old (pl : dict (list Payload)) s ps p :
  get pl s = Some ps ->
  Permutation (platform_items (set pl s (ps ++ [p])))
              ((s, p) :: platform_items pl).
Proof.
  unfold platform_items.
  induction pl as [| [k v] pl IH]; simpl; intro G; [discriminate |].
  destruct (String.eqb k s) eqn:E; simpl.
  - apply String.eqb_eq in E. inversion G; subst.
    rewrite map_app, <- app_assoc. simpl. symmetry. apply Permutation_middle.
  - rewrite (IH G). symmetry. apply Permutation_middle.
Qed.

Lemma platform_items_append (pl : dict (list Payload)) s p :
  let pl' := match get pl s with
             | None => set pl s []
             | Some _ => pl
             end in
  Permutation (platform_items (set pl' s (default [] (get pl' s) ++ [p])))
              ((s, p) :: platform_items pl).
Proof.
  destruct (get pl s) as [ps |] eqn:G; simpl.
  - rewrite G. simpl. apply platform_items_set_old. exact G.
  - rewrite get_set_same, set_set. simpl.
    rewrite platform_items_set_new by exact G. simpl.
    symmetry. apply Permutation_cons_append.
Qed.

Lemma set_fresh {V} (d : dict V) k v : ~ In k (keys d) -> set d k v = d ++ [(k, v)].
Proof.
  induction d as [| [k0 v0] d IH]; simpl; intro H; [reflexivity |].
  destruct (String.eqb k0 k) eqn:E.
  - apply String.eqb_eq in E. tauto.
  - rewrite IH by tauto. reflexivity.
Qed.

Lemma dict_of_log_distinct log : NoDup (keys log) -> dict_of_log log = log.
Proof.
  unfold dict_of_log.
  assert (G : forall d, NoDup (keys (d ++ log)) ->
                        fold_left (fun d ke => set d (fst ke) (snd ke)) log d = d ++ log).
  { induction log as [| [k e] log IH]; intros d H; simpl.
    - rewrite app_nil_r. reflexivity.
    - assert (Hk : ~ In k (keys d)).
      { unfold keys in *. rewrite map_app in H. simpl in H.
        apply NoDup_remove_2 in H. rewrite in_app_iff in H. tauto. }
      rewrite set_fresh by exact Hk.
      rewrite IH; rewrite <- app_assoc; [reflexivity | exact H]. }
  intro H. apply (G []). exact H.
Qed.


Section Engine.
Variable World : Type.
Variable KEY : option string.
Variable completion : string -> string -> M World string.
Variable json_loads : string -> Result Answer.

(** The decoded replies of the service carry the keys that the engine
    indexes. *)
Hypothesis json_complete :
  forall text r, json_loads text = Ok r -> complete r = true.

Abbreviation llm := (calculate_similarity_llm KEY completion json_loads).
Abbreviation rule := calculate_similarity_rule_based.

Lemma llm_total p1 p2 w : exists v w', llm p1 p2 w = (Ok v, w').
Proof.
  unfold calculate_similarity_llm, try_except, llm_try.
  destruct (negb (truthy KEY)); [unfold ret; eauto |].
  unfold bind. destruct (completion p1 p2 w) as [[c | e] w1]; [| unfold ret; eauto].
  destruct (re.search_braces _); [| unfold ret; eauto].
  unfold lift. destruct (json_loads _); unfold ret; eauto.
Qed.

Lemma complete_answer v : complete (answer v) = true.
Proof. reflexivity. Qed.

Lemma llm_complete p1 p2 w r w' :
  llm p1 p2 w = (Ok r, w') -> complete r = true.
Proof.
  unfold calculate_similarity_llm, try_except, llm_try.
  destruct (negb (truthy KEY));
    [unfold ret; intro H; inversion H; apply complete_answer |].
  unfold bind. destruct (completion p1 p2 w) as [[c | e] w1];
    [| unfold ret; intro H; inversion H; apply complete_answer].
  destruct (re.search_braces _);
    [| unfold ret; intro H; inversion H; apply complete_answer].
  unfold lift. destruct (json_loads _) as [r0 | e] eqn:E; unfold ret; intro H;
    inversion H; subst; [eapply json_complete; eauto | apply complete_answer].
Qed.

Lemma add_platform_spec raw pl l w :
  In l raw ->
  match add_platform (World := World) pl l w with
  | (Ok pl', w') =>
      w' = w /\ well_formed l = true /\
      Permutation (platform_items pl') (item_of l :: platform_items pl)
  | (Raise e, _) => bad raw e
  end.
Proof.
  intro Hin. unfold add_platform, bind, item.
  assert (B : well_formed l = false -> forall k, bad raw (KeyError k)).
  { intros Hwf k. split; eauto. }
  unfold well_formed, item_of in *.
  destruct (site l) as [s |] eqn:Es; simpl;
    [| apply B; destruct (product l); reflexivity].
  destruct (product l) as [t |] eqn:Et; simpl; [| apply B; reflexivity].
  destruct (price l) as [pr |] eqn:Ep; simpl; [| apply B; reflexivity].
  repeat split. apply platform_items_append.
Qed.

Lemma add_platforms_spec raw ls :
  forall pl w, incl ls raw ->
  match for_each ls (add_platform (World := World)) pl w with
  | (Ok pl', w') =>
      w' = w /\ forallb well_formed ls = true /\
      Permutation (platform_items pl') (platform_items pl ++ map item_of ls)
  | (Raise e, _) => bad raw e
  end.
Proof.
  induction ls as [| l ls IH]; intros pl w Hincl; simpl.
  - rewrite app_nil_r. auto.
  - unfold bind.
    assert (H := add_platform_spec raw pl l w (Hincl l (or_introl eq_refl))).
    destruct (add_platform (World := World) pl l w) as [[pl1 | e] w1]; [| exact H].
    destruct H as (-> & Hwf & Hp).
    assert (H2 := IH pl1 w (fun x Hx => Hincl x (or_intror Hx))).
    destruct (for_each ls _ pl1 w) as [[pl2 | e] w2]; [| exact H2].
    destruct H2 as (-> & Hwf2 & Hp2).
    rewrite Hwf, Hwf2. repeat split.
    rewrite Hp2, Hp. simpl. apply Permutation_middle.
Qed.


Lemma processed_In j P : processed j P = true <-> In j P.
Proof.
  unfold processed. rewrite existsb_exists. split.
  - intros (x & Hx & E). apply Nat.eqb_eq in E. subst. exact Hx.
  - intro H. exists j. split; [exact H | apply Nat.eqb_refl].
Qed.

Lemma processed_not_In j P : processed j P = false <-> ~ In j P.
Proof.
  rewrite <- processed_In. destruct (processed j P); split; congruence.
Qed.

Lemma Qmin_le_l x y : (Qmin x y <= x)%Q.
Proof.
  unfold Qmin. destruct (Qltb y x) eqn:E.
  - apply Qltb_lt in E. apply Qlt_le_weak. exact E.
  - apply Qle_refl.
Qed.

Variable raw : list Listing.

Abbreviation inner := (inner_body KEY completion json_loads).

Lemma inner_body_spec entry1 g P mc j e2 w :
  In entry1 raw -> In e2 raw ->
  match inner entry1 (g, P, mc) (j, e2) w with
  | (Ok (g', P', mc'), w') =>
      (g' = g /\ P' = P) \/
      (~ In j P /\ P' = j :: P /\ g_products g' = g_products g ++ [e2])
  | (Raise e, _) => bad raw e
  end.
Proof.
  intros H1 H2. unfold inner_body.
  destruct (processed j P) eqn:Ep; [left; auto |].
  apply processed_not_In in Ep.
  assert (B : forall l k, In l raw -> product l = None -> bad raw (KeyError k)).
  { intros l k Hl Hp. split; [eauto |]. exists l. split; [exact Hl |].
    unfold well_formed. rewrite Hp. reflexivity. }
  unfold bind, item.
  destruct (product entry1) as [t1 |] eqn:E1; simpl; [| apply (B entry1); auto].
  destruct (product e2) as [t2 |] eqn:E2; simpl; [| apply (B e2); auto].
  destruct (llm_total t1 t2 w) as (r & w' & Hr). rewrite Hr.
  assert (Hc := llm_complete t1 t2 w r w' Hr).
  unfold complete in Hc. unfold lift, accepted.
  destruct (a_same_event r) as [[|] |]; try discriminate;
    destruct (a_confidence r) as [c |]; try discriminate;
    destruct (a_unified_name r) as [name |]; try discriminate; simpl.
  - destruct (Qltb threshold c); simpl; [right | left]; repeat split; auto.
  - left. auto.
Qed.

Lemma inner_body_confidence entry1 st je w :
  match inner entry1 st je w with
  | (Ok st', _) => (g_confidence (fst (fst st')) <= g_confidence (fst (fst st)))%Q
  | (Raise _, _) => True
  end.
Proof.
  destruct st as [[g P] mc], je as [j e2]. unfold inner_body.
  destruct (processed j P); simpl; [apply Qle_refl |].
  unfold bind, item.
  destruct (product entry1); simpl; [| exact I].
  destruct (product e2); simpl; [| exact I].
  destruct (llm_total s s0 w) as (r & w' & ->).
  unfold lift, accepted.
  destruct (a_same_event r) as [[|] |]; simpl; [| apply Qle_refl | exact I].
  destruct (a_confidence r) as [c |]; simpl; [| exact I].
  destruct (Qltb threshold c); simpl; [| apply Qle_refl].
  destruct (a_unified_name r); simpl; [apply Qmin_le_l | exact I].
Qed.

Lemma entry_at_nth j e : nth_error raw j = Some e -> entry_at raw j = e.
Proof. intro H. unfold entry_at. apply nth_error_nth. exact H. Qed.

Lemma inner_loop_spec i entry1 g0 P0 mc w :
  In entry1 raw -> NoDup P0 ->
  match for_each (later raw i) (inner entry1) (g0, P0, mc) w with
  | (Ok st, _) => inner_inv raw i g0 P0 st
  | (Raise e, _) => bad raw e
  end.
Proof.
  intros H1 Hnd.
  apply (for_each_spec (inner entry1) (fun _ st => inner_inv raw i g0 P0 st) (bad raw)
                       (later raw i) [] (g0, P0, mc) w).
  - exists []. simpl. rewrite app_nil_r. repeat split; auto; simpl in *; contradiction.
  - intros done' [j e2] rest [[g P] mc0] w0 Heq (acc & HP & Hg & Hacc & HndP).
    simpl in Heq.
    assert (Hin : In (j, e2) (later raw i)) by (rewrite Heq; apply in_elt).
    apply enumerate_skipn_In in Hin. destruct Hin as [Hij Hnth].
    assert (He2 : In e2 raw) by (eapply nth_error_In; eauto).
    assert (Hjn : j < List.length raw) by (apply nth_error_Some; congruence).
    assert (S := inner_body_spec entry1 g P mc0 j e2 w0 H1 He2).
    destruct (inner entry1 (g, P, mc0) (j, e2) w0) as [[[[g' P'] mc'] | e] w']; [| exact S].
    destruct S as [[-> ->] | (Hnj & -> & Hg')].
    + exists acc. auto.
    + exists (j :: acc). repeat split.
      * rewrite HP. reflexivity.
      * rewrite Hg', Hg. simpl. rewrite map_app, <- app_assoc. simpl.
        rewrite (entry_at_nth j e2 Hnth). reflexivity.
      * destruct H as [<- | H]; [lia | apply Hacc; exact H].
      * destruct H as [<- | H]; [lia | apply Hacc; exact H].
      * constructor; assumption.
Qed.


Abbreviation form := (form_group KEY completion json_loads raw).

Lemma entry_at_In j : j < List.length raw -> In (entry_at raw j) raw.
Proof. intro H. unfold entry_at. apply nth_In. exact H. Qed.

Lemma form_group_spec i entry1 P0 mc w :
  nth_error raw i = Some entry1 -> ~ In i P0 -> NoDup P0 ->
  match form i entry1 P0 mc w with
  | (Ok r, _) => formed raw i P0 r
  | (Raise e, _) => bad raw e
  end.
Proof.
  intros Hnth Hni Hnd.
  assert (Hin : In entry1 raw) by (eapply nth_error_In; eauto).
  assert (Hlt : i < List.length raw) by (apply nth_error_Some; congruence).
  unfold form_group, bind, item.
  destruct (product entry1) as [title |] eqn:Et; simpl.
  2:{ split; [eauto |]. exists entry1. split; [exact Hin |].
      unfold well_formed. rewrite Et. reflexivity. }
  fold (later raw i).
  assert (S := inner_loop_spec i entry1 (seed_group title entry1) P0 mc w Hin Hnd).
  destruct (for_each (later raw i) _ _ w) as [[[[g P] mc'] | e] w1]; [| exact S].
  destruct S as (acc & -> & Hg & Hacc & HndP). simpl in Hg.
  assert (Hincl : incl (g_products g) raw).
  { rewrite Hg. intros l [<- | Hl]; [exact Hin |].
    apply in_map_iff in Hl. destruct Hl as (j & <- & Hj).
    apply entry_at_In. apply in_rev in Hj. apply Hacc in Hj. lia. }
  assert (S2 := add_platforms_spec raw (g_products g) [] w1 Hincl).
  destruct (for_each (g_products g) (add_platform (World:=World)) [] w1) as [[pl | e] w2]; [| exact S2].
  destruct S2 as (-> & Hwf & Hp). simpl.
  exists acc. repeat split.
  - constructor; [| exact HndP].
    rewrite in_app_iff. intros [H | H]; [apply Hacc in H; lia | contradiction].
  - apply Hacc; assumption.
  - apply Hacc; assumption.
  - rewrite Hp, Hg. simpl. rewrite (entry_at_nth i entry1 Hnth). reflexivity.
  - rewrite Hg in Hwf. rewrite forallb_forall in Hwf.
    apply Forall_forall. intros k Hk. apply Hwf.
    destruct Hk as [<- | Hk]; [left; symmetry; apply entry_at_nth; exact Hnth |].
    right. apply in_map. apply -> in_rev. exact Hk.
  - rewrite Hg. simpl. rewrite length_map, length_rev. reflexivity.
Qed.

Abbreviation outer_log := (outer_turn KEY completion json_loads log_group raw).

Lemma entries_items_app log1 log2 :
  entries_items (log1 ++ log2) = entries_items log1 ++ entries_items log2.
Proof. unfold entries_items. apply flat_map_app. Qed.

Lemma outer_loop_spec w :
  match for_each (enumerate raw 0) outer_log ([], [], 0) w with
  | (Ok st, _) => outer_inv raw (enumerate raw 0) st
  | (Raise e, _) => bad raw e
  end.
Proof.
  apply (for_each_spec outer_log (outer_inv raw) (bad raw) (enumerate raw 0) [] ([], [], 0) w).
  - simpl. repeat split; auto; try constructor; simpl; intros; try contradiction; lia.
  - intros done' [i entry1] rest [[log P] mc] w0 Heq (Hnd & Hlt & Hall & Hperm & Hwf).
    simpl in Heq. apply enumerate_split in Heq. simpl in Heq. destruct Heq as [-> Hnth].
    unfold outer_turn.
    destruct (processed (List.length done') P) eqn:Ep.
    + apply processed_In in Ep. simpl. repeat split; auto.
      intros k Hk. rewrite length_app in Hk. simpl in Hk.
      destruct (Nat.eq_dec k (List.length done')) as [-> | Hne]; [exact Ep | apply Hall; lia].
    + apply processed_not_In in Ep. unfold bind.
      assert (S := form_group_spec (List.length done') entry1 P mc w0 Hnth Ep Hnd).
      destruct (form (List.length done') entry1 P mc w0) as [[[[[key entry] P'] mc'] | e] w1]; [| exact S].
      destruct S as (acc & -> & HndP' & Hacc & Hp & Hwf' & Hcount). simpl.
      assert (Hi : List.length done' < List.length raw) by (apply nth_error_Some; congruence).
      repeat split.
      * exact HndP'.
      * intros k [<- | Hk]; [exact Hi |].
        apply in_app_iff in Hk. destruct Hk as [Hk | Hk]; [apply Hacc in Hk; lia | apply Hlt; exact Hk].
      * intros k Hk. rewrite length_app in Hk. simpl in Hk.
        destruct (Nat.eq_dec k (List.length done')) as [-> | Hne]; [left; reflexivity |].
        right. apply in_app_iff. right. apply Hall. lia.
      * unfold log_group. rewrite entries_items_app. simpl. rewrite app_nil_r.
        rewrite Hperm, Hp. rewrite <- map_app, <- map_app.
        apply Permutation_trans
          with (map item_of (map (entry_at raw) (List.length done' :: acc ++ P)));
          [| simpl; reflexivity].
        apply Permutation_map, Permutation_map.
        rewrite Permutation_app_comm. simpl. constructor.
        apply Permutation_app_tail. symmetry. apply Permutation_rev.
      * inversion Hwf'; subst. constructor; [assumption |].
        apply Forall_app. split; assumption.
Qed.


Lemma entries_at_all : map (entry_at raw) (seq 0 (List.length raw)) = raw.
Proof.
  unfold entry_at. clear. induction raw as [| x xs IH]; simpl; [reflexivity |].
  f_equal. rewrite <- seq_shift, map_map. exact IH.
Qed.

Abbreviation formed_groups := (groups_formed KEY completion json_loads).

Lemma groups_formed_spec w :
  match formed_groups raw w with
  | (Ok log, _) =>
      Permutation (entries_items log) (map item_of raw) /\
      forallb well_formed raw = true
  | (Raise e, _) => bad raw e
  end.
Proof.
  unfold groups_formed, bind.
  assert (S := outer_loop_spec w).
  destruct (for_each (enumerate raw 0) outer_log ([], [], 0) w) as [[[[log P] mc] | e] w1];
    [| exact S].
  destruct S as (Hnd & Hlt & Hall & Hperm & Hwf). simpl.
  rewrite enumerate_length in Hall.
  assert (HP : Permutation P (seq 0 (List.length raw))).
  { apply NoDup_Permutation; [exact Hnd | apply seq_NoDup |].
    intro k. rewrite in_seq. split; intro H; [split; [lia | apply Hlt; exact H] | apply Hall; lia]. }
  split.
  - rewrite Hperm. rewrite <- entries_at_all at 2.
    apply Permutation_map, Permutation_map. exact HP.
  - rewrite <- entries_at_all. apply forallb_forall. intros l Hl.
    apply in_map_iff in Hl. destruct Hl as (k & <- & Hk).
    rewrite Forall_forall in Hwf. apply Hwf.
    eapply Permutation_in; [symmetry; exact HP | exact Hk].
Qed.

Lemma bad_not_well_formed e : bad raw e -> forallb well_formed raw = false.
Proof.
  intros (_ & l & Hl & Hwf).
  destruct (forallb well_formed raw) eqn:E; [| reflexivity].
  rewrite forallb_forall in E. rewrite (E l Hl) in Hwf. discriminate.
Qed.

(** *** The mapping and the log *)

Lemma outer_turn_sim {A1 A2} (f : A1 -> A2)
      (s1 : A1 -> string -> UnifiedEntry -> A1)
      (s2 : A2 -> string -> UnifiedEntry -> A2) :
  (forall a k e, f (s1 a k e) = s2 (f a) k e) ->
  forall a P mc ie w,
    outer_turn KEY completion json_loads s2 raw (f a, P, mc) ie w =
    match outer_turn KEY completion json_loads s1 raw (a, P, mc) ie w with
    | (Ok (a', P', m'), w') => (Ok (f a', P', m'), w')
    | (Raise e, w') => (Raise e, w')
    end.
Proof.
  intros Hs a P mc [i entry1] w. unfold outer_turn.
  destruct (processed i P); simpl; [reflexivity |].
  unfold bind.
  destruct (form i entry1 P mc w) as [[[[[key entry] P'] mc'] | e] w1]; simpl;
    [rewrite Hs |]; reflexivity.
Qed.

Lemma outer_loop_sim {A1 A2} (f : A1 -> A2)
      (s1 : A1 -> string -> UnifiedEntry -> A1)
      (s2 : A2 -> string -> UnifiedEntry -> A2) :
  (forall a k e, f (s1 a k e) = s2 (f a) k e) ->
  forall xs a P mc w,
    for_each xs (outer_turn KEY completion json_loads s2 raw) (f a, P, mc) w =
    match for_each xs (outer_turn KEY completion json_loads s1 raw) (a, P, mc) w with
    | (Ok (a', P', m'), w') => (Ok (f a', P', m'), w')
    | (Raise e, w') => (Raise e, w')
    end.
Proof.
  intros Hs. induction xs as [| x xs IH]; intros a P mc w; cbn [for_each].
  - reflexivity.
  - unfold bind. rewrite (outer_turn_sim f s1 s2 Hs).
    destruct (outer_turn KEY completion json_loads s1 raw (a, P, mc) x w)
      as [[[[a' P'] m'] | e] w']; [apply IH | reflexivity].
Qed.

Lemma dict_of_log_app log key e :
  dict_of_log (log ++ [(key, e)]) = set (dict_of_log log) key e.
Proof. unfold dict_of_log. rewrite fold_left_app. reflexivity. Qed.

(** Assigning to a key keeps every other binding; the binding it
    replaces, if any, is the only one lost. *)
Lemma set_replaces {V} (d : dict V) k v :
  exists lost, Permutation (d ++ [(k, v)]) (set d k v ++ lost).
Proof.
  induction d as [| [k0 v0] d IH]; simpl.
  - exists []. reflexivity.
  - destruct (String.eqb k0 k) eqn:E.
    + apply String.eqb_eq in E. subst k0. exists [(k, v0)]. simpl.
      transitivity ((k, v0) :: (k, v) :: d).
      * constructor. symmetry. apply Permutation_cons_append.
      * rewrite perm_swap. constructor. apply Permutation_cons_append.
    + destruct IH as (lost & IH). exists lost. simpl. constructor. exact IH.
Qed.

Lemma dict_of_log_keeps log :
  exists lost, Permutation log (dict_of_log log ++ lost).
Proof.
  induction log as [| [k e] log IH] using rev_ind.
  - exists []. reflexivity.
  - rewrite dict_of_log_app. destruct IH as (lost & IH).
    destruct (set_replaces (dict_of_log log) k e) as (lost' & H).
    exists (lost' ++ lost).
    rewrite app_assoc, <- H.
    rewrite IH at 1. rewrite <- !app_assoc. apply Permutation_app_head.
    apply Permutation_app_comm.
Qed.

Lemma entries_items_perm l1 l2 :
  Permutation l1 l2 -> Permutation (entries_items l1) (entries_items l2).
Proof.
  unfold entries_items. induction 1; simpl.
  - reflexivity.
  - apply Permutation_app_head. assumption.
  - rewrite !app_assoc. apply Permutation_app_tail. apply Permutation_app_comm.
  - etransitivity; eassumption.
Qed.

Abbreviation matcher := (match_products KEY completion json_loads).

(** The returned mapping is the log of formed groups assigned in order. *)
Lemma match_products_log w :
  matcher raw w =
  match formed_groups raw w with
  | (Ok log, w') => (Ok (dict_of_log log), w')
  | (Raise e, w') => (Raise e, w')
  end.
Proof.
  unfold match_products, groups_formed.
  destruct raw as [| l raw'] eqn:Eraw.
  - reflexivity.
  - rewrite <- Eraw. unfold bind, outer_body.
    change (@nil (string * UnifiedEntry)) with (dict_of_log []) at 1.
    rewrite (outer_loop_sim dict_of_log log_group (@set UnifiedEntry) dict_of_log_app).
    destruct (for_each (enumerate raw 0) outer_log ([], [], 0) w) as [[[[log P1] m1] | e1] w1];
      reflexivity.
Qed.

Abbreviation confidences := (accepted_confidences KEY completion json_loads).

(** C1 (amended): on a batch whose entries carry the keys [product],
    [site] and [price], with a service whose decoded replies carry the
    keys the engine reads, the engine returns a mapping, which is the
    sequence of formed groups assigned in order under their names.  The
    payloads of the formed groups are exactly the payloads of the batch,
    one for each listing: every listing is in one formed group and in no
    other, and the payload counts add up to the size of the batch.  The
    groups of the returned mapping are formed groups, each taken once,
    and the groups that it lacks are those replaced by a later group of
    the same name: no payload is in the mapping twice, and the payload
    counts of the mapping and of the replaced groups add up to the size
    of the batch.  When the names of the formed groups are pairwise
    distinct, no group is replaced and the mapping is a partition of the
    batch as well. *)
Theorem formed_groups_partition (w : World) :
  forallb well_formed raw = true ->
  exists log w',
    formed_groups raw w = (Ok log, w') /\
    matcher raw w = (Ok (dict_of_log log), w') /\
    Permutation (entries_items log) (map item_of raw) /\
    payload_count log = List.length raw /\
    (exists replaced,
        Permutation log (dict_of_log log ++ replaced) /\
        Permutation (entries_items (dict_of_log log) ++ entries_items replaced)
                    (map item_of raw) /\
        payload_count (dict_of_log log) + payload_count replaced
        = List.length raw) /\
    (NoDup (keys log) ->
     Permutation (entries_items (dict_of_log log)) (map item_of raw) /\
     payload_count (dict_of_log log) = List.length raw).
Proof.
  intro Hwf.
  assert (S := groups_formed_spec w).
  assert (L := match_products_log w).
  destruct (formed_groups raw w) as [[log | e] w'].
  - destruct S as [Hp _]. exists log, w'.
    assert (Hc : payload_count log = List.length raw).
    { unfold payload_count. rewrite (Permutation_length Hp). apply length_map. }
    split; [reflexivity |]. split; [exact L |]. split; [exact Hp |].
    split; [exact Hc |]. split.
    + destruct (dict_of_log_keeps log) as (replaced & Hk). exists replaced.
      assert (Hi := entries_items_perm _ _ Hk). rewrite entries_items_app in Hi.
      split; [exact Hk |]. split; [rewrite <- Hi; exact Hp |].
      rewrite <- Hc. unfold payload_count.
      rewrite (Permutation_length Hi), length_app. reflexivity.
    + intro Hnd. rewrite dict_of_log_distinct by exact Hnd. auto.
  - apply bad_not_well_formed in S. congruence.
Qed.

(** C7 (amended): the empty batch yields the empty mapping; a batch
    whose entries all carry the keys [product], [site] and [price]
    yields a mapping; a batch with an entry that lacks one of these keys
    raises a [KeyError] and returns no mapping. *)
Theorem match_products_input_errors (w : World) :
  matcher [] w = (Ok [], w) /\
  (forallb well_formed raw = true ->
   exists d w', matcher raw w = (Ok d, w')) /\
  (forallb well_formed raw = false ->
   exists k w', matcher raw w = (Raise (KeyError k), w')).
Proof.
  split; [reflexivity |].
  assert (S := groups_formed_spec w).
  rewrite (match_products_log w).
  destruct (formed_groups raw w) as [[log | e] w'].
  - destruct S as [_ Hwf]. split; intro H; [eauto | congruence].
  - split; intro H.
    + apply bad_not_well_formed in S. congruence.
    + destruct S as [[k ->] _]. eauto.
Qed.


(** *** Group confidence *)

Lemma inner_loop_trace entry1 js :
  forall g P mc w,
    match for_each js (inner entry1) (g, P, mc) w with
    | (Ok (g', _, _), _) =>
        let cs := confidences entry1 js P w in
        g_confidence g' = min_list (g_confidence g) cs /\
        List.length (g_products g') = List.length (g_products g) + List.length cs
    | (Raise _, _) => True
    end.
Proof.
  induction js as [| [j e2] js IH]; intros g P mc w;
    cbn [for_each accepted_confidences].
  - simpl. split; [reflexivity | lia].
  - unfold bind. unfold inner_body at 1.
    destruct (processed j P) eqn:Ep.
    + apply IH.
    + unfold bind, item.
      destruct (product entry1) as [t1 |]; simpl; [| exact I].
      destruct (product e2) as [t2 |]; simpl; [| exact I].
      destruct (llm_total t1 t2 w) as (r & w' & ->).
      unfold lift, accepted.
      destruct (a_same_event r) as [[|] |]; simpl; [| apply IH | exact I].
      destruct (a_confidence r) as [c |]; simpl; [| exact I].
      destruct (Qltb threshold c); simpl; [| apply IH].
      destruct (a_unified_name r) as [name |]; simpl; [| exact I].
      match goal with
      | |- context [for_each js (inner entry1) (?g1, ?P1, ?m1) w'] =>
          specialize (IH g1 P1 m1 w');
          destruct (for_each js (inner entry1) (g1, P1, m1) w')
            as [[[[g' P'] mc'] | e] w'']; [| exact I]
      end.
      simpl in IH. destruct IH as [IH1 IH2]. simpl. split; [exact IH1 |].
      rewrite IH2, length_app. simpl. lia.
Qed.

Lemma min_list_In x l : min_list x l = x \/ In (min_list x l) l.
Proof.
  unfold min_list. revert x. induction l as [| y l IH]; intro x; simpl; [left; reflexivity |].
  destruct (IH (Qmin x y)) as [H | H]; [| right; right; exact H].
  rewrite H. unfold Qmin. destruct (Qltb y x); [right; left | left]; reflexivity.
Qed.

Lemma min_list_le x l : (min_list x l <= x)%Q.
Proof.
  unfold min_list. revert x. induction l as [| y l IH]; intro x; simpl; [apply Qle_refl |].
  eapply Qle_trans; [apply IH | apply Qmin_le_l].
Qed.

Lemma form_group_confidence i entry1 P mc w :
  match form i entry1 P mc w with
  | (Ok (_, entry, _, _), _) =>
      let cs := confidences entry1 (later raw i) P w in
      u_confidence entry = Py.round (min_list 1%Q cs) 3 /\
      product_count entry = S (List.length cs)
  | (Raise _, _) => True
  end.
Proof.
  unfold form_group, bind, item.
  destruct (product entry1) as [title |]; simpl; [| exact I].
  fold (later raw i).
  assert (T := inner_loop_trace entry1 (later raw i) (seed_group title entry1) P mc w).
  destruct (for_each (later raw i) (inner entry1) (seed_group title entry1, P, mc) w)
    as [[[[g P'] mc'] | e] w1]; [| exact I].
  destruct (for_each (g_products g) (add_platform (World := World)) [] w1) as [[pl | e] w2];
    [| exact I].
  simpl in *. destruct T as [T1 T2]. rewrite T1, T2. auto.
Qed.

(** Every entry of the returned mapping is the outcome of one call of
    [form_group] on an entry of the batch. *)
Lemma match_products_entries w d w' key entry :
  matcher raw w = (Ok d, w') -> In (key, entry) d ->
  exists i entry1 P mc w0 P' mc' w1,
    nth_error raw i = Some entry1 /\
    form i entry1 P mc w0 = (Ok (key, entry, P', mc'), w1).
Proof.
  unfold match_products. destruct raw as [| l raw'] eqn:Eraw.
  - intros H. inversion H; subst. intros [].
  - rewrite <- Eraw. clear Eraw l raw'. unfold bind.
    intros H Hin.
    pose (Inv := fun (_ : list (nat * Listing)) (st : dict UnifiedEntry * list nat * nat) =>
                   forall key entry, In (key, entry) (fst (fst st)) ->
                   exists i entry1 P mc w0 P' mc' w1,
                     nth_error raw i = Some entry1 /\
                     form i entry1 P mc w0 = (Ok (key, entry, P', mc'), w1)).
    assert (S := for_each_spec (outer_body KEY completion json_loads raw) Inv (fun _ => True)
                               (enumerate raw 0) [] ([], [], 0) w).
    destruct (for_each (enumerate raw 0) (outer_body KEY completion json_loads raw) ([], [], 0) w)
      as [[[[d0 P0] m0] | e] w1]; [| discriminate].
    inversion H; subst. apply S; [intros ? ? [] | | exact Hin].
    clear. intros done' [i entry1] rest [[d P] mc] w Heq HI.
    simpl in Heq. apply enumerate_split in Heq. simpl in Heq. destruct Heq as [-> Hnth].
    unfold outer_body, outer_turn.
    destruct (processed (List.length done') P); [exact HI |].
    unfold bind.
    destruct (form (List.length done') entry1 P mc w) as [[[[[k e] P'] mc'] | ex] w1] eqn:Ef;
      [| exact I].
    intros key entry Hin. simpl in Hin.
    assert (Hset : forall (d : dict UnifiedEntry) k e x, In x (set d k e) -> x = (k, e) \/ In x d).
    { clear. induction d as [| [k0 v0] d IH]; simpl; intros k e x H.
      - destruct H as [<- | []]. auto.
      - destruct (String.eqb k0 k) eqn:E.
        + apply String.eqb_eq in E. subst. destruct H as [<- | H]; auto.
        + destruct H as [<- | H]; auto. apply IH in H. tauto. }
    apply Hset in Hin. destruct Hin as [Hin | Hin].
    + inversion Hin; subst. eauto 10.
    + apply HI. exact Hin.
Qed.


Lemma round_one : (Py.round 1 3 == 1)%Q.
Proof. reflexivity. Qed.

Lemma round_min_fixed cs :
  Forall (fun c => (Py.round c 3 == c)%Q) cs ->
  (Py.round (min_list 1%Q cs) 3 == min_list 1%Q cs)%Q.
Proof.
  intro H. destruct (min_list_In 1%Q cs) as [-> | Hin]; [apply round_one |].
  rewrite Forall_forall in H. apply H. exact Hin.
Qed.

Lemma inner_loop_confidence entry1 js g P mc w g' P' mc' w' :
  for_each js (inner entry1) (g, P, mc) w = (Ok (g', P', mc'), w') ->
  (g_confidence g' <= g_confidence g)%Q.
Proof.
  intro H. assert (T := inner_loop_trace entry1 js g P mc w).
  rewrite H in T. destruct T as [-> _]. apply min_list_le.
Qed.

(** C5 (amended): every entry of the returned mapping is the outcome
    of forming one group around an entry of the batch.  Its member count
    is one more than the number of answers accepted by the inner loop,
    and its confidence is the minimum of 1.0 and the confidences of
    these answers, rounded to three decimals: 1.0 for a group of one
    member, and the minimum itself when the accepted confidences have at
    most three decimals, as those of the lexical scorer have.  While the
    inner loop runs, the confidence of the group never increases. *)
Theorem group_confidence_rounded_minimum w d w' key entry :
  matcher raw w = (Ok d, w') -> In (key, entry) d ->
  (exists i entry1 P mc w0 P' mc' w1,
      nth_error raw i = Some entry1 /\
      form i entry1 P mc w0 = (Ok (key, entry, P', mc'), w1) /\
      let cs := confidences entry1 (later raw i) P w0 in
      product_count entry = S (List.length cs) /\
      u_confidence entry = Py.round (min_list 1%Q cs) 3 /\
      (product_count entry = 1 -> (u_confidence entry == 1)%Q) /\
      (Forall (fun c => (Py.round c 3 == c)%Q) cs ->
       (u_confidence entry == min_list 1%Q cs)%Q)) /\
  (forall entry1 js g P mc w0 g' P' mc' w1,
      for_each js (inner entry1) (g, P, mc) w0 = (Ok (g', P', mc'), w1) ->
      (g_confidence g' <= g_confidence g)%Q).
Proof.
  intros H Hin. split; [| intros; eapply inner_loop_confidence; eauto].
  destruct (match_products_entries w d w' key entry H Hin)
    as (i & entry1 & P & mc & w0 & P' & mc' & w1 & Hnth & Hf).
  exists i, entry1, P, mc, w0, P', mc', w1.
  assert (C := form_group_confidence i entry1 P mc w0). rewrite Hf in C.
  destruct C as [C1 C2]. cbv zeta.
  repeat split; auto.
  - intro H1. rewrite C2 in H1. inversion H1 as [H2].
    rewrite C1. apply length_zero_iff_nil in H2. rewrite H2. apply round_one.
  - intro Hc. rewrite C1. apply round_min_fixed. exact Hc.
Qed.

End Engine.

(** ** The semantic scorer *)

Section SemanticScorer.
Variable World : Type.
Variable KEY : option string.
Variable completion : string -> string -> M World string.
Variable json_loads : string -> Result Answer.

(** C6: a failing semantic scorer answers with the lexical verdict, and
    the scoring call never raises. *)
Theorem semantic_scorer_degrades (product1 product2 : string) (w : World) :
  (exists v w',
      calculate_similarity_llm KEY completion json_loads product1 product2 w
      = (Ok v, w')) /\
  (forall w',
      scorer_fails KEY completion json_loads product1 product2 w w' ->
      calculate_similarity_llm KEY completion json_loads product1 product2 w
      = (Ok (answer (calculate_similarity_rule_based product1 product2)), w')).
Proof.
  split; [apply llm_total |].
  intros w' H. unfold calculate_similarity_llm, try_except, llm_try.
  destruct H as [H | e w' H H1 | c w' H H1 H2 | c m e w' H H1 H2 H3];
    rewrite H; simpl; [reflexivity | | |]; unfold bind; rewrite H1;
    [reflexivity | rewrite H2; reflexivity |].
  rewrite H2. unfold lift. rewrite H3. reflexivity.
Qed.

End SemanticScorer.

(** ** Determinism without the semantic scorer *)

Lemma same_outcome_ret {W1 W2 A} (x : A) :
  same_outcome (ret (World := W1) x) (ret (World := W2) x).
Proof. intros w1 w2. reflexivity. Qed.

Lemma same_outcome_bind {W1 W2 A B} (m1 : M W1 A) (m2 : M W2 A)
      (f1 : A -> M W1 B) (f2 : A -> M W2 B) :
  same_outcome m1 m2 -> (forall x, same_outcome (f1 x) (f2 x)) ->
  same_outcome (bind m1 f1) (bind m2 f2).
Proof.
  intros Hm Hf w1 w2. unfold bind. specialize (Hm w1 w2).
  destruct (m1 w1) as [[x1 | e1] w1'], (m2 w2) as [[x2 | e2] w2']; simpl in Hm;
    try discriminate.
  - inversion Hm; subst. apply Hf.
  - inversion Hm; subst. reflexivity.
Qed.

Lemma same_outcome_item {W1 W2 A} key (field : option A) :
  same_outcome (item (World := W1) key field) (item (World := W2) key field).
Proof. intros w1 w2. destruct field; reflexivity. Qed.

Lemma same_outcome_for_each {W1 W2 A S} (xs : list A)
      (b1 : S -> A -> M W1 S) (b2 : S -> A -> M W2 S) :
  (forall s x, same_outcome (b1 s x) (b2 s x)) ->
  forall s, same_outcome (for_each xs b1 s) (for_each xs b2 s).
Proof.
  intro Hb. induction xs as [| x xs IH]; intro s; cbn [for_each].
  - apply same_outcome_ret.
  - apply same_outcome_bind; [apply Hb | exact IH].
Qed.

Section Determinism.
Variables W1 W2 : Type.
Variables (key1 key2 : option string).
Variable completion1 : string -> string -> M W1 string.
Variable completion2 : string -> string -> M W2 string.
Variables json_loads1 json_loads2 : string -> Result Answer.
Hypothesis no_credential1 : truthy key1 = false.
Hypothesis no_credential2 : truthy key2 = false.

Lemma llm_without_credential {W} key (completion : string -> string -> M W string) json_loads
      p1 p2 w :
  truthy key = false ->
  calculate_similarity_llm key completion json_loads p1 p2 w =
  (Ok (answer (calculate_similarity_rule_based p1 p2)), w).
Proof.
  intro H. unfold calculate_similarity_llm, try_except, llm_try. rewrite H. reflexivity.
Qed.

Lemma llm_same p1 p2 :
  same_outcome (calculate_similarity_llm key1 completion1 json_loads1 p1 p2)
               (calculate_similarity_llm key2 completion2 json_loads2 p1 p2).
Proof.
  intros w1 w2. rewrite !llm_without_credential by assumption. reflexivity.
Qed.

Lemma inner_body_same entry1 st je :
  same_outcome (inner_body key1 completion1 json_loads1 entry1 st je)
               (inner_body key2 completion2 json_loads2 entry1 st je).
Proof.
  destruct st as [[g P] mc], je as [j e2]. unfold inner_body.
  destruct (processed j P); [apply same_outcome_ret |].
  apply same_outcome_bind; [apply same_outcome_item | intro t1].
  apply same_outcome_bind; [apply same_outcome_item | intro t2].
  apply same_outcome_bind; [apply llm_same | intro r].
  apply same_outcome_bind; [intros w1 w2; reflexivity | intros [|]].
  - apply same_outcome_bind; [apply same_outcome_item | intro name].
    apply same_outcome_bind; [apply same_outcome_item | intro c].
    apply same_outcome_ret.
  - apply same_outcome_ret.
Qed.

Lemma add_platform_same pl l :
  same_outcome (add_platform (World := W1) pl l) (add_platform (World := W2) pl l).
Proof.
  unfold add_platform.
  apply same_outcome_bind; [apply same_outcome_item | intro s].
  apply same_outcome_bind; [apply same_outcome_item | intro t].
  apply same_outcome_bind; [apply same_outcome_item | intro p].
  apply same_outcome_ret.
Qed.

Lemma form_group_same raw i entry1 P mc :
  same_outcome (form_group key1 completion1 json_loads1 raw i entry1 P mc)
               (form_group key2 completion2 json_loads2 raw i entry1 P mc).
Proof.
  unfold form_group.
  apply same_outcome_bind; [apply same_outcome_item | intro title].
  apply same_outcome_bind;
    [apply same_outcome_for_each; intros; apply inner_body_same | intros [[g P'] mc']].
  apply same_outcome_bind;
    [apply same_outcome_for_each; intros; apply add_platform_same | intro pl].
  apply same_outcome_ret.
Qed.

Lemma outer_body_same raw st ie :
  same_outcome (outer_body key1 completion1 json_loads1 raw st ie)
               (outer_body key2 completion2 json_loads2 raw st ie).
Proof.
  destruct st as [[d P] mc], ie as [i entry1]. unfold outer_body, outer_turn.
  destruct (processed i P); [apply same_outcome_ret |].
  apply same_outcome_bind; [apply form_group_same | intros [[[k e] P'] mc']].
  apply same_outcome_ret.
Qed.

(** C9: without a credential the engine never consults the service,
    so that two runs on the same batch, in whatever environments and
    states of the world, have the same outcome: the same mapping, with
    the same names in the same order, the same confidences and the same
    payload lists, or the same exception. *)
Theorem match_products_deterministic (raw : list Listing) (w1 : W1) (w2 : W2) :
  fst (match_products key1 completion1 json_loads1 raw w1) =
  fst (match_products key2 completion2 json_loads2 raw w2).
Proof.
  unfold match_products. destruct raw as [| l raw'] eqn:E; [reflexivity |].
  rewrite <- E. revert w1 w2.
  apply same_outcome_bind;
    [apply same_outcome_for_each; intros; apply outer_body_same | intros [[d P] mc]].
  apply same_outcome_ret.
Qed.

End Determinism.

Lemma match_products_deterministic_witness :
  fst (match_products None offline undecodable
         [listing "Polymarket" "Will Trump win 2024 presidential election?" (62 # 100);
          listing "Kalshi" "Trump elected president 2024?" (59 # 100)] tt) =
  fst (match_products (Some EmptyString) (always "{}")
         (decoded {| a_same_event := Some true; a_confidence := Some 1%Q;
                     a_unified_name := Some "U"%string; a_reasoning := None |})
         [listing "Polymarket" "Will Trump win 2024 presidential election?" (62 # 100);
          listing "Kalshi" "Trump elected president 2024?" (59 # 100)] tt).
Proof.
  apply (match_products_deterministic unit unit None (Some EmptyString)); reflexivity.
Defined.

(** ** The threshold of the engine under the lexical scorer *)

Section Threshold.
Variable World : Type.
Variable KEY : option string.
Variable completion : string -> string -> M World string.
Variable json_loads : string -> Result Answer.
Hypothesis no_credential : truthy KEY = false.



End Threshold.



(** ** Concrete runs of the engine *)

Lemma group_confidence_rounded_minimum_witness :
  (exists i entry1 P mc w0 P' mc' w1,
      nth_error sample_batch i = Some entry1 /\
      form_group None offline undecodable sample_batch i entry1 P mc w0
      = (Ok ("Trump elected president 2024?"%string, sample_entry, P', mc'), w1) /\
      let cs := accepted_confidences None offline undecodable entry1
                                     (later sample_batch i) P w0 in
      product_count sample_entry = S (List.length cs) /\
      u_confidence sample_entry = Py.round (min_list 1%Q cs) 3 /\
      (product_count sample_entry = 1 -> (u_confidence sample_entry == 1)%Q) /\
      (Forall (fun c => (Py.round c 3 == c)%Q) cs ->
       (u_confidence sample_entry == min_list 1%Q cs)%Q)) /\
  (forall entry1 js g P mc w0 g' P' mc' w1,
      for_each js (inner_body None offline undecodable entry1) (g, P, mc) w0
      = (Ok (g', P', mc'), w1) ->
      (g_confidence g' <= g_confidence g)%Q).
Proof.
  apply (group_confidence_rounded_minimum unit None offline undecodable sample_batch
           tt sample_mapping tt "Trump elected president 2024?"%string sample_entry).
  - vm_compute. reflexivity.
  - left. reflexivity.
Defined.


(** C1 fails on the returned mapping: two listings titled "AI" are not
    merged (no keyword, combined score 0.3), both groups are stored under
    the key "AI", and the mapping keeps one payload of the two. *)
Lemma partition_counterexample :
  exists e,
    match_products None offline undecodable
      [listing "Polymarket" "AI" (1 # 2); listing "Kalshi" "AI" (4 # 10)] tt
    = (Ok [("AI"%string, e)], tt) /\
    payload_count [("AI"%string, e)] = 1 /\
    List.length [listing "Polymarket" "AI" (1 # 2); listing "Kalshi" "AI" (4 # 10)] = 2.
Proof. eexists. vm_compute. repeat split. Qed.

Lemma formed_groups_partition_witness :
  exists log w',
    groups_formed None offline undecodable
      [listing "Polymarket" "AI" (1 # 2); listing "Kalshi" "AI" (4 # 10)] tt = (Ok log, w') /\
    match_products None offline undecodable
      [listing "Polymarket" "AI" (1 # 2); listing "Kalshi" "AI" (4 # 10)] tt
    = (Ok (dict_of_log log), w') /\
    Permutation (entries_items log)
      (map item_of [listing "Polymarket" "AI" (1 # 2); listing "Kalshi" "AI" (4 # 10)]) /\
    payload_count log = 2 /\
    (exists replaced,
        Permutation log (dict_of_log log ++ replaced) /\
        Permutation (entries_items (dict_of_log log) ++ entries_items replaced)
          (map item_of [listing "Polymarket" "AI" (1 # 2); listing "Kalshi" "AI" (4 # 10)]) /\
        payload_count (dict_of_log log) + payload_count replaced = 2) /\
    (NoDup (keys log) ->
     Permutation (entries_items (dict_of_log log))
       (map item_of [listing "Polymarket" "AI" (1 # 2); listing "Kalshi" "AI" (4 # 10)]) /\
     payload_count (dict_of_log log) = 2).
Proof.
  apply (formed_groups_partition unit None offline undecodable).
  - intros text r H. discriminate H.
  - reflexivity.
Defined.

Lemma match_products_input_errors_witness :
  match_products None offline undecodable [] tt = (Ok [], tt) /\
  (forallb well_formed sample_batch = true ->
   exists d w', match_products None offline undecodable sample_batch tt = (Ok d, w')) /\
  (forallb well_formed sample_batch = false ->
   exists k w',
     match_products None offline undecodable sample_batch tt = (Raise (KeyError k), w')).
Proof.
  apply (match_products_input_errors unit None offline undecodable).
  intros text r H. discriminate H.
Defined.

(** C7 fails on a malformed batch: an entry without keys raises. *)
Lemma malformed_batch_counterexample :
  match_products None offline undecodable [no_keys] tt
  = (Raise (KeyError "product"), tt).
Proof. reflexivity. Qed.

(** C5 fails when a semantic verdict carries more than three decimals:
    the only accepted verdict has confidence 0.8766, the group 0.877. *)
Lemma group_confidence_counterexample :
  let r := {| a_same_event := Some true;
              a_confidence := Some (8766 # 10000)%Q;
              a_unified_name := Some "Bitcoin 100k"%string;
              a_reasoning := None |} in
  let raw := [listing "Polymarket" "Bitcoin above $100k" (35 # 100);
              listing "Manifold" "BTC over $100,000" (33 # 100)] in
  exists e,
    match_products (Some "key"%string) (always "{}") (decoded r) raw tt
    = (Ok [("Bitcoin 100k"%string, e)], tt) /\
    product_count e = 2 /\
    accepted_confidences (Some "key"%string) (always "{}") (decoded r)
                         (listing "Polymarket" "Bitcoin above $100k" (35 # 100))
                         (later raw 0) [] tt = [(8766 # 10000)%Q] /\
    (u_confidence e == 877 # 1000)%Q /\
    ~ (u_confidence e == 8766 # 10000)%Q.
Proof.
  eexists. vm_compute. repeat split; try reflexivity; intro H; discriminate H.
Qed.

(** ** Metrics *)

Import rearrange_data.

Lemma coerce_total field : coerce field = Ok (coerced field).
Proof.
  unfold coerced, coerce, float.
  destruct (default (VNum 0) field) as [| b | q | s]; try reflexivity.
  destruct (parse_float (of_str s)); reflexivity.
Qed.


Lemma collect_all_spec pd :
  forall prices volumes platform_prices,
    collect_all (prices, volumes, platform_prices) pd =
    Ok (prices ++ map snd (priced pd), volumes ++ positive_volumes pd,
        assign_all platform_prices (priced pd)).
Proof.
  induction pd as [| [k l] pd IH]; intros ps vs pp; simpl.
  - rewrite !app_nil_r. reflexivity.
  - destruct l as [| data rest]; simpl.
    + apply IH.
    + rewrite !coerce_total. simpl.
      destruct (Qltb 0 (coerced (p_price data))), (Qltb 0 (coerced (p_volume data)));
        simpl; rewrite IH; unfold assign_all; simpl; rewrite <- ?app_assoc; reflexivity.
Qed.



Lemma div_len x (l : list Q) : l <> [] -> div x (len l) = Ok (x / len l)%Q.
Proof.
  intro H. unfold div, len.
  destruct (Qeq_bool (inject_Z (Z.of_nat (List.length l))) 0) eqn:E; [| reflexivity].
  apply Qeq_bool_eq in E. unfold Qeq in E. simpl in E.
  destruct l; [congruence | simpl in E; lia].
Qed.

Lemma price_statistics_total prices : exists ps, price_statistics prices = Ok ps.
Proof.
  destruct prices as [| p ps]; [simpl; eauto |].
  unfold price_statistics.
  repeat (rewrite div_len by discriminate; cbn [bind]). eauto.
Qed.

Lemma volume_statistics_total volumes : exists vs, volume_statistics volumes = Ok vs.
Proof.
  destruct volumes as [| v vs]; [simpl; eauto |].
  unfold volume_statistics.
  repeat (rewrite div_len by discriminate; cbn [bind]). eauto.
Qed.

(** The metrics are a function of the priced platforms, the positive
    volumes and the keys. *)
Lemma metrics_shape pd :
  exists ps vs,
    price_statistics (map snd (priced pd)) = Ok ps /\
    volume_statistics (positive_volumes pd) = Ok vs /\
    calculate_advanced_metrics pd =
    Ok {| price_stats := ps;
          volume_stats := vs;
          platform_coverage :=
            {| platforms_count := List.length pd; platforms_list := keys pd |};
          best_opportunities :=
            best_opportunity (map snd (priced pd)) (assign_all [] (priced pd)) |}.
Proof.
  destruct (price_statistics_total (map snd (priced pd))) as [ps Hps].
  destruct (volume_statistics_total (positive_volumes pd)) as [vs Hvs].
  exists ps, vs. repeat split; auto.
  unfold calculate_advanced_metrics. rewrite collect_all_spec. simpl.
  rewrite Hps, Hvs. reflexivity.
Qed.

Lemma metrics_same pd pd' :
  priced pd = priced pd' -> positive_volumes pd = positive_volumes pd' ->
  keys pd = keys pd' ->
  calculate_advanced_metrics pd = calculate_advanced_metrics pd'.
Proof.
  intros Hp Hv Hk.
  destruct (metrics_shape pd) as (ps & vs & H1 & H2 & ->).
  destruct (metrics_shape pd') as (ps' & vs' & H1' & H2' & ->).
  rewrite Hp in H1. rewrite Hv in H2.
  assert (E1 : ps = ps') by congruence. assert (E2 : vs = vs') by congruence.
  assert (E3 : List.length pd = List.length pd').
  { unfold keys in Hk. rewrite <- (length_map fst pd), Hk. apply length_map. }
  rewrite Hp, Hk, E1, E2, E3. reflexivity.
Qed.

Lemma priced_app pd1 pd2 : priced (pd1 ++ pd2) = priced pd1 ++ priced pd2.
Proof. unfold priced. apply flat_map_app. Qed.

Lemma positive_volumes_app pd1 pd2 :
  positive_volumes (pd1 ++ pd2) = positive_volumes pd1 ++ positive_volumes pd2.
Proof. unfold positive_volumes. apply flat_map_app. Qed.

Lemma priced_In pd k q :
  In (k, q) (priced pd) <->
  exists data rest, In (k, data :: rest) pd /\ q = coerced (p_price data) /\ (0 < q)%Q.
Proof.
  unfold priced. rewrite in_flat_map. split.
  - intros ([k' l] & Hin & H). simpl in H.
    destruct l as [| data rest]; [contradiction |].
    destruct (Qltb 0 (coerced (p_price data))) eqn:E; [| contradiction].
    destruct H as [H | []]. inversion H; subst.
    exists data, rest. repeat split; auto. apply Qltb_lt. exact E.
  - intros (data & rest & Hin & -> & Hq). exists (k, data :: rest). split; [exact Hin |].
    simpl. apply Qltb_lt in Hq. rewrite Hq. left. reflexivity.
Qed.

Lemma positive_volumes_In pd q :
  In q (positive_volumes pd) <->
  exists k data rest, In (k, data :: rest) pd /\ q = coerced (p_volume data) /\ (0 < q)%Q.
Proof.
  unfold positive_volumes. rewrite in_flat_map. split.
  - intros ([k l] & Hin & H). simpl in H.
    destruct l as [| data rest]; [contradiction |].
    destruct (Qltb 0 (coerced (p_volume data))) eqn:E; [| contradiction].
    destruct H as [<- | []].
    exists k, data, rest. repeat split; auto. apply Qltb_lt. exact E.
  - intros (k & data & rest & Hin & -> & Hq). exists (k, data :: rest). split; [exact Hin |].
    simpl. apply Qltb_lt in Hq. rewrite Hq. left. reflexivity.
Qed.


Lemma assign_all_values kqs : forall d k q,
  get (assign_all d kqs) k = Some q -> get d k = Some q \/ In (k, q) kqs.
Proof.
  induction kqs as [| [k0 q0] kqs IH]; intros d k q H; simpl in *; [auto |].
  apply IH in H. destruct H as [H | H]; [| auto].
  assert (G : forall (d : dict Q) k0 q0 k q,
             get (set d k0 q0) k = Some q -> (k = k0 /\ q = q0) \/ get d k = Some q).
  { clear. induction d as [| [k1 q1] d IH]; simpl; intros k0 q0 k q H.
    - destruct (String.eqb k0 k) eqn:E; [| discriminate].
      apply String.eqb_eq in E. inversion H. auto.
    - destruct (String.eqb k1 k0) eqn:E; simpl in H.
      + apply String.eqb_eq in E. subst k1.
        destruct (String.eqb k0 k) eqn:E2; [| auto].
        apply String.eqb_eq in E2. inversion H. auto.
      + destruct (String.eqb k1 k) eqn:E2; [auto |]. apply IH in H. exact H. }
  apply G in H. destruct H as [[-> ->] | H]; auto.
Qed.

Lemma argmax_In first d : In (argmax first d) (first :: d).
Proof.
  unfold argmax. revert first. induction d as [| kv d IH]; intro first; simpl; [auto |].
  destruct (IH (if Qltb (snd first) (snd kv) then kv else first)) as [H | H].
  - rewrite <- H. destruct (Qltb (snd first) (snd kv)); auto.
  - auto.
Qed.


Lemma priced_skip k data rest :
  Qltb 0 (coerced (p_price data)) = false -> priced [(k, data :: rest)] = [].
Proof. intro H. unfold priced. simpl. rewrite H. reflexivity. Qed.

Lemma metrics_price_irrelevant pre post k data data' rest :
  Qltb 0 (coerced (p_price data)) = false ->
  Qltb 0 (coerced (p_price data')) = false ->
  p_volume data = p_volume data' ->
  calculate_advanced_metrics (pre ++ (k, data :: rest) :: post) =
  calculate_advanced_metrics (pre ++ (k, data' :: rest) :: post).
Proof.
  intros H H' Hv. apply metrics_same.
  - rewrite !priced_app.
    change ((k, data :: rest) :: post) with ([(k, data :: rest)] ++ post).
    change ((k, data' :: rest) :: post) with ([(k, data' :: rest)] ++ post).
    rewrite !priced_app, !priced_skip by assumption. reflexivity.
  - rewrite !positive_volumes_app. unfold positive_volumes. simpl. rewrite Hv. reflexivity.
  - unfold keys. rewrite !map_app. reflexivity.
Qed.

Lemma metrics_volume_irrelevant pre post k data data' rest :
  Qltb 0 (coerced (p_volume data)) = false ->
  Qltb 0 (coerced (p_volume data')) = false ->
  p_price data = p_price data' ->
  calculate_advanced_metrics (pre ++ (k, data :: rest) :: post) =
  calculate_advanced_metrics (pre ++ (k, data' :: rest) :: post).
Proof.
  intros H H' Hp. apply metrics_same.
  - rewrite !priced_app. unfold priced. simpl. rewrite Hp. reflexivity.
  - rewrite !positive_volumes_app. unfold positive_volumes. simpl.
    rewrite H, H'. reflexivity.
  - unfold keys. rewrite !map_app. reflexivity.
Qed.

Lemma Qltb_zero q : (q == 0)%Q -> Qltb 0 q = false.
Proof. intro H. apply Qltb_ge. rewrite H. apply Qle_refl. Qed.

(** C10: a price or a volume enters the statistics and the candidates
    for the best platform only when its conversion is strictly positive;
    the value 0 is excluded exactly as a missing one. *)
Theorem zero_values_are_excluded (pd : dict (list Payload)) :
  (exists prices volumes platform_prices,
      collect_all ([], [], []) pd = Ok (prices, volumes, platform_prices) /\
      (forall q, In q prices <->
                 exists k data rest,
                   In (k, data :: rest) pd /\ q = coerced (p_price data) /\ (0 < q)%Q) /\
      (forall q, In q volumes <->
                 exists k data rest,
                   In (k, data :: rest) pd /\ q = coerced (p_volume data) /\ (0 < q)%Q) /\
      (forall k q, get platform_prices k = Some q ->
                   exists data rest,
                     In (k, data :: rest) pd /\ q = coerced (p_price data) /\ (0 < q)%Q)) /\
  (forall pre post k data rest q,
      pd = pre ++ (k, data :: rest) :: post -> (q == 0)%Q ->
      calculate_advanced_metrics (pre ++ (k, with_price (Some (VNum q)) data :: rest) :: post) =
      calculate_advanced_metrics (pre ++ (k, with_price None data :: rest) :: post) /\
      calculate_advanced_metrics (pre ++ (k, with_volume (Some (VNum q)) data :: rest) :: post) =
      calculate_advanced_metrics (pre ++ (k, with_volume None data :: rest) :: post)).
Proof.
  split.
  - exists (map snd (priced pd)), (positive_volumes pd), (assign_all [] (priced pd)).
    split; [apply collect_all_spec |]. split; [| split].
    + intro q. rewrite in_map_iff. split.
      * intros ([k q'] & <- & H). apply priced_In in H.
        destruct H as (data & rest & H). exists k, data, rest. exact H.
      * intros (k & data & rest & H). exists (k, q). split; [reflexivity |].
        apply priced_In. exists data, rest. exact H.
    + apply positive_volumes_In.
    + intros k q H. apply assign_all_values in H. destruct H as [H | H]; [discriminate |].
      apply priced_In. exact H.
  - intros pre post k data rest q _ Hq. split.
    + apply metrics_price_irrelevant; try reflexivity.
      simpl. apply Qltb_zero. exact Hq.
    + apply metrics_volume_irrelevant; try reflexivity.
      simpl. apply Qltb_zero. exact Hq.
Qed.







(** ** The sequence matcher on two equal texts *)

Section SelfRatio.
Variable s : chars.

Abbreviation n := (List.length s).

Lemma indices_from_spec c : forall t j0 j,
  In j (difflib.indices_from j0 t c) <-> j0 <= j /\ nth_error t (j - j0) = Some c.
Proof.
  induction t as [| x t IH]; intros j0 j; simpl.
  - split; [contradiction |]. intros [_ H]. destruct (j - j0); discriminate.
  - destruct (Ascii.eqb x c) eqn:E.
    + apply Ascii.eqb_eq in E. subst x. simpl. rewrite IH. split.
      * intros [<- | [H1 H2]].
        -- rewrite Nat.sub_diag. auto.
        -- split; [lia |]. replace (j - j0) with (S (j - S j0)) by lia. exact H2.
      * intros [H1 H2]. destruct (Nat.eq_dec j0 j) as [-> | Hne]; [auto |].
        right. split; [lia |]. replace (j - j0) with (S (j - S j0)) in H2 by lia. exact H2.
    + rewrite IH. split.
      * intros [H1 H2]. split; [lia |].
        replace (j - j0) with (S (j - S j0)) by lia. exact H2.
      * intros [H1 H2]. destruct (Nat.eq_dec j0 j) as [-> | Hne].
        -- rewrite Nat.sub_diag in H2. simpl in H2. inversion H2; subst.
           rewrite Ascii.eqb_refl in E. discriminate.
        -- split; [lia |]. replace (j - j0) with (S (j - S j0)) in H2 by lia. exact H2.
Qed.

(** The indices of [c] are listed in increasing order: around an
    occurrence [i] the list splits into the smaller and the larger ones. *)
Lemma indices_from_split c : forall t j0 i,
  j0 <= i -> nth_error t (i - j0) = Some c ->
  exists pre post,
    difflib.indices_from j0 t c = pre ++ i :: post /\
    (forall j, In j pre -> j < i) /\
    (forall j, In j post -> i < j).
Proof.
  induction t as [| x t IH]; intros j0 i Hle Hnth; simpl.
  - destruct (i - j0); discriminate.
  - destruct (Nat.eq_dec j0 i) as [-> | Hne].
    + rewrite Nat.sub_diag in Hnth. simpl in Hnth. inversion Hnth; subst.
      rewrite Ascii.eqb_refl. exists [], (difflib.indices_from (S i) t c).
      repeat split; [intros j [] |].
      intros j Hj. apply indices_from_spec in Hj. lia.
    + replace (i - j0) with (S (i - S j0)) in Hnth by lia. simpl in Hnth.
      destruct (IH (S j0) i ltac:(lia) Hnth) as (pre & post & E & Hpre & Hpost).
      rewrite E. destruct (Ascii.eqb x c).
      * exists (j0 :: pre), post. repeat split; [| exact Hpost].
        intros j [<- | Hj]; [lia | apply Hpre; exact Hj].
      * exists pre, post. auto.
Qed.

Lemma run_le i : difflib.run s i <= S i.
Proof.
  induction i as [| i IH]; cbn [difflib.run];
    (destruct (nth_error s _) as [c |]; [destruct (difflib.popular s c) |]); lia.
Qed.

Lemma run_step i c :
  nth_error s i = Some c -> difflib.popular s c = false ->
  difflib.run s i = S (difflib.run_before s i).
Proof.
  intros H1 H2. destruct i as [| i]; cbn [difflib.run difflib.run_before];
    rewrite H1, H2; reflexivity.
Qed.

Lemma run_popular i c :
  nth_error s i = Some c -> difflib.popular s c = true -> difflib.run s i = 0.
Proof.
  intros H1 H2. destruct i as [| i]; cbn [difflib.run]; rewrite H1, H2; reflexivity.
Qed.


(** *** One row of the seed search *)

Lemma row_app i old js1 : forall js2 new best,
  (forall j, In j js1 -> j < n) ->
  difflib.row i 0 n old (js1 ++ js2) new best =
  (let '(new1, best1) := difflib.row i 0 n old js1 new best in
   difflib.row i 0 n old js2 new1 best1).
Proof.
  induction js1 as [| j js1 IH]; intros js2 new best H; simpl; [reflexivity |].
  assert (Hj : j < n) by (apply H; left; reflexivity).
  destruct (n <=? j) eqn:E; [apply Nat.leb_le in E; lia |].
  destruct best as [[bi bj] bs]. apply IH. intros j' Hj'. apply H. right. exact Hj'.
Qed.

Lemma row_no_update i old js : forall new bi bj bs,
  (forall j, In j js -> j < n /\ difflib.before old j + 1 <= bs) ->
  difflib.row i 0 n old js new (bi, bj, bs) =
  (rev (map (fun j => (j, difflib.before old j + 1)) js) ++ new, (bi, bj, bs)).
Proof.
  induction js as [| j js IH]; intros new bi bj bs H; simpl; [reflexivity |].
  destruct (H j (or_introl eq_refl)) as [Hj Hk].
  destruct (n <=? j) eqn:E; [apply Nat.leb_le in E; lia |].
  destruct (bs <? difflib.before old j + 1) eqn:E2; [apply Nat.ltb_lt in E2; lia |].
  rewrite IH by (intros j' Hj'; apply H; right; exact Hj').
  rewrite <- app_assoc. reflexivity.
Qed.

Lemma j2len_get_values (g : nat -> nat) (L : difflib.j2len) j :
  (forall j' k, In (j', k) L -> k = g j') ->
  (In j (map fst L) -> difflib.j2len_get L j = g j) /\
  (~ In j (map fst L) -> difflib.j2len_get L j = 0).
Proof.
  induction L as [| [j0 k0] L IH]; intro H; simpl.
  - split; [contradiction | reflexivity].
  - assert (IH' := IH (fun j' k Hin => H j' k (or_intror Hin))).
    destruct (j0 =? j) eqn:E.
    + apply Nat.eqb_eq in E. subst j0. split; [| tauto].
      intros _. apply H. left. reflexivity.
    + apply Nat.eqb_neq in E. split.
      * intros [H1 | H1]; [contradiction | apply IH'; exact H1].
      * intro H1. apply IH'. tauto.
Qed.


Lemma b2j_In c j : In j (difflib.b2j s c) -> nth_error s j = Some c /\ difflib.popular s c = false.
Proof.
  unfold difflib.b2j. destruct (difflib.popular s c); [contradiction |].
  intro H. apply indices_from_spec in H. rewrite Nat.sub_0_r in H. tauto.
Qed.

(** A row keeps the best match on the diagonal: only the index [i]
    itself can improve on the runs already seen. *)
Lemma row_diagonal i old bi bs c :
  nth_error s i = Some c ->
  (forall j, difflib.before old j <= difflib.run_before s i) ->
  (forall j, difflib.before old j <= difflib.run_before s j) ->
  difflib.before old i = difflib.run_before s i ->
  bi + bs <= i ->
  (forall i', i' < i -> difflib.run s i' <= bs) ->
  exists new bi' bs',
    difflib.row i 0 n old (difflib.b2j s c) [] (bi, bi, bs) = (new, (bi', bi', bs')) /\
    (forall j, difflib.before new j <= difflib.run s i) /\
    (forall j, difflib.before new j <= difflib.run_before s j) /\
    difflib.before new (S i) = difflib.run s i /\
    bi' + bs' <= S i /\
    (forall i', i' < S i -> difflib.run s i' <= bs').
Proof.
  intros Hc Ha Hb Hd Hbest He.
  assert (Hi : i < n) by (apply nth_error_Some; congruence).
  destruct (difflib.popular s c) eqn:Ep.
  - unfold difflib.b2j. rewrite Ep. simpl.
    exists [], bi, bs. rewrite (run_popular i c Hc Ep).
    repeat split; try (intros [| j]; simpl; lia); try lia.
    intros i' Hi'. destruct (Nat.eq_dec i' i) as [-> | Hne];
      [rewrite (run_popular i c Hc Ep); lia | apply He; lia].
  - assert (HR := run_step i c Hc Ep).
    set (f := fun j => (j, difflib.before old j + 1)).
    set (g := fun j => difflib.before old j + 1).
    destruct (indices_from_split c s 0 i (Nat.le_0_l i)) as (pre & post & E & Hpre & Hpost);
      [rewrite Nat.sub_0_r; exact Hc |].
    assert (Hidx : forall j, In j (pre ++ i :: post) -> nth_error s j = Some c).
    { intros j Hj. rewrite <- E in Hj. apply indices_from_spec in Hj.
      rewrite Nat.sub_0_r in Hj. tauto. }
    assert (Hlt : forall j, In j (pre ++ i :: post) -> j < n).
    { intros j Hj. apply nth_error_Some. rewrite (Hidx j Hj). discriminate. }
    assert (Hrun : forall j, In j (pre ++ i :: post) ->
                             difflib.run s j = S (difflib.run_before s j)).
    { intros j Hj. apply (run_step j c); [apply Hidx; exact Hj | exact Ep]. }
    unfold difflib.b2j. rewrite Ep, E.
    rewrite row_app by (intros j Hj; apply Hlt; apply in_or_app; left; exact Hj).
    rewrite row_no_update.
    2:{ intros j Hj. split; [apply Hlt; apply in_or_app; left; exact Hj |].
        assert (H1 := Hb j). assert (H2 := He j (Hpre j Hj)).
        rewrite (Hrun j) in H2 by (apply in_or_app; left; exact Hj). lia. }
    rewrite app_nil_r. cbn [difflib.row].
    replace (i <? 0) with false by reflexivity.
    destruct (n <=? i) eqn:E1; [apply Nat.leb_le in E1; lia |].
    assert (Hfinish : forall bi' bs',
               difflib.run s i <= bs' -> bs <= bs' -> bi' + bs' <= S i ->
               exists new bi'0 bs'0,
                 difflib.row i 0 n old post
                   ((i, difflib.before old i + 1)
                      :: rev (map (fun j => (j, difflib.before old j + 1)) pre))
                   (bi', bi', bs') = (new, (bi'0, bi'0, bs'0)) /\
                 (forall j, difflib.before new j <= difflib.run s i) /\
                 (forall j, difflib.before new j <= difflib.run_before s j) /\
                 difflib.before new (S i) = difflib.run s i /\
                 bi'0 + bs'0 <= S i /\
                 (forall i', i' < S i -> difflib.run s i' <= bs'0)).
    { intros bi' bs' HR' Hbs' Hd'. rewrite row_no_update.
      2:{ intros j Hj. split; [apply Hlt; apply in_or_app; right; right; exact Hj |].
          assert (H1 := Ha j). lia. }
      set (new := rev (map (fun j => (j, difflib.before old j + 1)) post) ++
                  (i, difflib.before old i + 1)
                    :: rev (map (fun j => (j, difflib.before old j + 1)) pre)).
      assert (Hvals : forall j' k, In (j', k) new -> k = g j' /\ In j' (pre ++ i :: post)).
      { intros j' k Hin. unfold new in Hin. apply in_app_or in Hin.
        destruct Hin as [Hin | [Hin | Hin]].
        - apply in_rev, in_map_iff in Hin. destruct Hin as (x & Hx & Hin). inversion Hx; subst.
          split; [reflexivity | apply in_or_app; right; right; exact Hin].
        - inversion Hin; subst. split; [reflexivity | apply in_elt].
        - apply in_rev, in_map_iff in Hin. destruct Hin as (x & Hx & Hin). inversion Hx; subst.
          split; [reflexivity | apply in_or_app; left; exact Hin]. }
      assert (Hget : forall j, difflib.j2len_get new j = 0 \/
                               (difflib.j2len_get new j = g j /\ In j (pre ++ i :: post))).
      { intro j.
        destruct (j2len_get_values g new j (fun j' k H => proj1 (Hvals j' k H))) as [G1 G2].
        destruct (in_dec Nat.eq_dec j (map fst new)) as [Hin | Hnin].
        - right. split; [apply G1; exact Hin |].
          apply in_map_iff in Hin. destruct Hin as ([j' k] & Hx & Hin). simpl in Hx. subst j'.
          apply (Hvals j k Hin).
        - left. apply G2. exact Hnin. }
      exists new, bi', bs'. split; [reflexivity |].
      split; [| split; [| split; [| split]]].
      + intros [| j]; simpl; [lia |].
        destruct (Hget j) as [-> | [-> _]]; [lia |]. unfold g. assert (H1 := Ha j). lia.
      + intros [| j]; simpl; [lia |].
        destruct (Hget j) as [-> | [-> Hin]]; [lia |]. unfold g.
        rewrite (Hrun j Hin). assert (H1 := Hb j). lia.
      + simpl.
        destruct (j2len_get_values g new i (fun j' k H => proj1 (Hvals j' k H))) as [G1 _].
        rewrite G1; [unfold g; lia |].
        unfold new. rewrite map_app. apply in_or_app. right. left. reflexivity.
      + exact Hd'.
      + intros i' Hi'.
        destruct (Nat.eq_dec i' i) as [-> | Hne]; [lia |].
        assert (H1 := He i' ltac:(lia)). lia. }
    assert (H1 := run_le i).
    destruct (bs <? difflib.before old i + 1) eqn:E2.
    + apply Nat.ltb_lt in E2. apply Hfinish; lia.
    + apply Nat.ltb_ge in E2. apply Hfinish; lia.
Qed.

(** *** The seed, its extension and the ratio *)

Lemma rows_diagonal m : forall i old bi bs,
  i + m = n ->
  (forall j, difflib.before old j <= difflib.run_before s i) ->
  (forall j, difflib.before old j <= difflib.run_before s j) ->
  difflib.before old i = difflib.run_before s i ->
  bi + bs <= i ->
  (forall i', i' < i -> difflib.run s i' <= bs) ->
  exists bi' bs',
    difflib.rows s s (seq i m) 0 n old (bi, bi, bs) = (bi', bi', bs') /\
    bi' + bs' <= n.
Proof.
  induction m as [| m IH]; intros i old bi bs Hn Ha Hb Hd Hbest He; simpl.
  - exists bi, bs. split; [reflexivity | lia].
  - unfold difflib.at_a.
    destruct (nth_error s i) as [c |] eqn:Ec;
      [| apply nth_error_None in Ec; lia].
    destruct (row_diagonal i old bi bs c Ec Ha Hb Hd Hbest He)
      as (new & bi' & bs' & -> & Ha' & Hb' & Hd' & Hbest' & He').
    apply IH; auto. lia.
Qed.

Lemma same_at_diagonal i : i < n -> difflib.same_at s s i i = true.
Proof.
  intro H. unfold difflib.same_at, difflib.at_a, difflib.at_b.
  destruct (nth_error s i) eqn:E; [apply Ascii.eqb_refl |].
  apply nth_error_None in E. lia.
Qed.

Lemma extend_left_diagonal bi : forall bs,
  bi + bs <= n ->
  difflib.extend_left s s bi 0 0 (bi, bi, bs) = (0, 0, bs + bi).
Proof.
  induction bi as [| bi IH]; intros bs H; simpl.
  - rewrite Nat.add_0_r. reflexivity.
  - rewrite Nat.sub_0_r, same_at_diagonal by lia. simpl.
    rewrite IH by lia. f_equal. lia.
Qed.

Lemma extend_right_diagonal fuel : forall k,
  k + fuel = n ->
  difflib.extend_right s s fuel n n (0, 0, k) = (0, 0, n).
Proof.
  induction fuel as [| fuel IH]; intros k H; simpl.
  - f_equal. lia.
  - destruct (k <? n) eqn:E; [| apply Nat.ltb_ge in E; lia].
    simpl. rewrite same_at_diagonal by lia. apply IH. lia.
Qed.

Lemma find_longest_match_self :
  difflib.find_longest_match s s 0 n 0 n = (0, 0, n).
Proof.
  unfold difflib.find_longest_match. rewrite Nat.sub_0_r.
  destruct (rows_diagonal n 0 [] 0 0) as (bi & bs & -> & H); simpl; auto; try lia;
    try (intros [| j]; simpl; lia).
  rewrite extend_left_diagonal by exact H. simpl.
  apply extend_right_diagonal. lia.
Qed.

Lemma matches_self : difflib.matches s s = n.
Proof.
  unfold difflib.matches. cbn [difflib.blocks Nat.mul Nat.add].
  replace (n + (n + 0) + 1) with (S (n + n)) by lia. cbn [difflib.blocks].
  rewrite find_longest_match_self.
  destruct (n =? 0) eqn:E.
  - apply Nat.eqb_eq in E. destruct (n + n); simpl; lia.
  - rewrite Nat.ltb_irrefl. simpl.
    replace (n <? n) with false by (symmetry; apply Nat.ltb_irrefl). simpl.
    destruct (n + n); simpl; reflexivity.
Qed.

(** A text compared with itself has ratio 1. *)
Lemma ratio_self : (difflib.ratio s s == 1)%Q.
Proof.
  unfold difflib.ratio. rewrite matches_self.
  destruct (n + n =? 0) eqn:E; [reflexivity |].
  apply Nat.eqb_neq in E. unfold Qeq. simpl.
  rewrite Z.mul_1_r.
  replace (n + (n + 0)) with (n + n) by lia.
  rewrite <- positive_nat_Z, Nat2Pos.id by exact E. reflexivity.
Qed.

End SelfRatio.

(** ** Self-similarity of the lexical scorer *)

Lemma mem_In w l : mem w l = true <-> In w l.
Proof.
  unfold mem. rewrite existsb_exists. split.
  - intros (x & Hx & E). apply String.eqb_eq in E. subst. exact Hx.
  - intro H. exists w. split; [exact H | apply String.eqb_refl].
Qed.

Lemma intersection_self K : intersection K K = K.
Proof.
  unfold intersection. apply forallb_filter_id. apply forallb_forall.
  intros w Hw. apply mem_In. exact Hw.
Qed.

Lemma union_absorb K : forall acc,
  (forall w, In w K -> In w acc) ->
  fold_left (fun acc w => add w acc) K acc = acc.
Proof.
  induction K as [| w K IH]; intros acc H; simpl; [reflexivity |].
  unfold add at 2. rewrite (proj2 (mem_In w acc)) by (apply H; left; reflexivity).
  apply IH. intros w' Hw'. apply H. right. exact Hw'.
Qed.

Lemma union_self K : union K K = K.
Proof. unfold union. apply union_absorb. auto. Qed.

Lemma jaccard_self K : K <> [] -> (jaccard K K == 1)%Q.
Proof.
  intro H. unfold jaccard. rewrite intersection_self, union_self.
  destruct K as [| w K]; [congruence |].
  unfold Qeq. cbn [Qnum Qden]. rewrite Z.mul_1_r, Z.mul_1_l.
  rewrite <- positive_nat_Z, Nat2Pos.id by discriminate. reflexivity.
Qed.

Lemma sequence_self t : (sequence t t == 1)%Q.
Proof. unfold sequence. apply ratio_self. Qed.

(** C4 (amended): a title with at least one keyword scores same event
    with confidence 1 against itself; a title without keywords has Jaccard
    similarity 0 by the scorer's guard, and scores 0.3 and not same
    event. *)
Theorem self_similarity (title : string) :
  (extract_keywords title <> [] ->
   same_event (calculate_similarity_rule_based title title) = true /\
   (confidence (calculate_similarity_rule_based title title) == 1)%Q) /\
  (extract_keywords title = [] ->
   same_event (calculate_similarity_rule_based title title) = false /\
   (confidence (calculate_similarity_rule_based title title) == 3 # 10)%Q).
Proof.
  unfold calculate_similarity_rule_based, verdict_of_scores; simpl.
  split; intro H.
  - assert (E : (combine_scores (jaccard (extract_keywords title) (extract_keywords title))
                                (sequence title title) == 1)%Q).
    { unfold combine_scores. rewrite (jaccard_self _ H), (sequence_self title). reflexivity. }
    split.
    + apply Qltb_lt. rewrite E. reflexivity.
    + rewrite (round_comp _ _ 3 E). reflexivity.
  - assert (E : (combine_scores (jaccard (extract_keywords title) (extract_keywords title))
                                (sequence title title) == 3 # 10)%Q).
    { unfold combine_scores. rewrite H, (sequence_self title). reflexivity. }
    split.
    + apply Qltb_ge. rewrite E. discriminate.
    + rewrite (round_comp _ _ 3 E). reflexivity.
Qed.

(** C4 fails on a title without keywords: "AI" against itself. *)
Lemma self_similarity_counterexample :
  extract_keywords "AI" = [] /\
  same_event (calculate_similarity_rule_based "AI" "AI") = false /\
  (confidence (calculate_similarity_rule_based "AI" "AI") == 3 # 10)%Q /\
  ~ (confidence (calculate_similarity_rule_based "AI" "AI") == 1)%Q.
Proof.
  vm_compute. repeat split; try reflexivity. intro H. discriminate H.
Qed.

(** ** The fuel of the sequence matcher

    The loops of the matcher are run on fuel; the fuel that the model
    gives them is enough, so that more fuel changes nothing: the two
    extension loops stop within the bounds of their range, and the work
    list is empty before its fuel is. *)

Section Fuel.
Variables a b : chars.

Lemma row_within i alo ahi blo bhi old js :
  alo <= i -> i < ahi ->
  (forall j, difflib.j2len_get old j <= i - alo) ->
  forall new best new' best',
    (forall j, difflib.j2len_get new j <= i + 1 - alo) ->
    difflib.within alo ahi best ->
    difflib.row i blo bhi old js new best = (new', best') ->
    (forall j, difflib.j2len_get new' j <= i + 1 - alo) /\ difflib.within alo ahi best'.
Proof.
  intros Hlo Hhi Hold.
  induction js as [| j js IH]; intros new best new' best' Hnew Hbest E; cbn [difflib.row] in E.
  - inversion E; subst. auto.
  - destruct (j <? blo); [eapply IH; eauto |].
    destruct (bhi <=? j); [inversion E; subst; auto |].
    destruct best as [[bi bj] bk].
    assert (Hk : difflib.before old j + 1 <= i + 1 - alo).
    { unfold difflib.before. destruct j as [| j']; [lia |]. specialize (Hold j'). lia. }
    eapply IH; [| | exact E].
    + intro j0. cbn [difflib.j2len_get]. destruct (j =? j0); [exact Hk | apply Hnew].
    + destruct (bk <? difflib.before old j + 1); [| exact Hbest].
      unfold difflib.within. lia.
Qed.

Lemma rows_within alo ahi blo bhi n :
  forall i0 old best,
    alo <= i0 -> i0 + n <= ahi ->
    (forall j, difflib.j2len_get old j <= i0 - alo) ->
    difflib.within alo ahi best ->
    difflib.within alo ahi (difflib.rows a b (seq i0 n) blo bhi old best).
Proof.
  induction n as [| n IH]; intros i0 old best Hlo Hhi Hold Hbest; cbn [seq difflib.rows].
  - exact Hbest.
  - destruct (difflib.row i0 blo bhi old _ [] best) as [new best'] eqn:E.
    apply (row_within i0 alo ahi) in E; try assumption; try lia.
    + destruct E as [Hnew Hbest']. apply IH; try lia; [| exact Hbest'].
      intro j. specialize (Hnew j). lia.
    + intro j. cbn. lia.
Qed.

Lemma extend_left_within alo ahi blo fuel :
  forall best, difflib.within alo ahi best ->
               difflib.within alo ahi (difflib.extend_left a b fuel alo blo best).
Proof.
  induction fuel as [| fuel IH]; intros [[bi bj] bk] H; cbn [difflib.extend_left].
  - exact H.
  - destruct ((alo <? bi) && (blo <? bj) && difflib.same_at a b (bi - 1) (bj - 1)) eqn:E;
      [| exact H].
    apply IH. rewrite !andb_true_iff in E. destruct E as [[E _] _].
    apply Nat.ltb_lt in E. unfold difflib.within in *. lia.
Qed.

Lemma extend_right_within alo ahi bhi fuel :
  forall best, difflib.within alo ahi best ->
               difflib.within alo ahi (difflib.extend_right a b fuel ahi bhi best).
Proof.
  induction fuel as [| fuel IH]; intros [[bi bj] bk] H; cbn [difflib.extend_right].
  - exact H.
  - destruct ((bi + bk <? ahi) && (bj + bk <? bhi)
              && difflib.same_at a b (bi + bk) (bj + bk)) eqn:E; [| exact H].
    apply IH. rewrite !andb_true_iff in E. destruct E as [[E _] _].
    apply Nat.ltb_lt in E. unfold difflib.within in *. lia.
Qed.

Lemma find_longest_match_within alo ahi blo bhi :
  alo <= ahi -> difflib.within alo ahi (difflib.find_longest_match a b alo ahi blo bhi).
Proof.
  intro H. unfold difflib.find_longest_match.
  assert (S := rows_within alo ahi blo bhi (ahi - alo) alo [] (alo, blo, 0)).
  destruct (difflib.rows a b (seq alo (ahi - alo)) blo bhi [] (alo, blo, 0))
    as [[si sj] sk].
  assert (L := extend_left_within alo ahi blo si (si, sj, sk)).
  destruct (difflib.extend_left a b si alo blo (si, sj, sk)) as [[li lj] lk].
  apply extend_right_within. apply L. apply S; try lia.
  - intro j. cbn. lia.
  - unfold difflib.within. lia.
Qed.

Lemma blocks_fuel :
  forall f1 f2 queue found,
    Forall difflib.ordered queue -> difflib.weight queue <= f1 -> difflib.weight queue <= f2 ->
    difflib.blocks a b f1 queue found = difflib.blocks a b f2 queue found.
Proof.
  induction f1 as [| f1 IH]; intros f2 queue found Hord H1 H2.
  - destruct queue as [| [[[alo ahi] blo] bhi] queue]; [destruct f2; reflexivity |].
    cbn in H1. lia.
  - destruct queue as [| [[[alo ahi] blo] bhi] queue]; [destruct f2; reflexivity |].
    destruct f2 as [| f2]; [cbn in H2; lia |].
    cbn [difflib.blocks]. cbn [difflib.weight fold_right] in H1, H2. fold (difflib.weight queue) in H1, H2.
    inversion Hord as [| ? ? Ho Hord']; subst. unfold difflib.ordered in Ho.
    assert (W := find_longest_match_within alo ahi blo bhi Ho).
    destruct (difflib.find_longest_match a b alo ahi blo bhi) as [[i j] k].
    unfold difflib.within in W.
    destruct (k =? 0) eqn:Ek; [apply IH; auto; lia |].
    apply Nat.eqb_neq in Ek.
    destruct ((alo <? i) && (blo <? j)) eqn:E1;
      destruct ((i + k <? ahi) && (j + k <? bhi)) eqn:E2;
      rewrite ?andb_true_iff, ?Nat.ltb_lt in *;
      apply IH; repeat constructor; auto; cbn [difflib.weight fold_right]; fold (difflib.weight queue);
      unfold difflib.ordered; try lia.
Qed.

Theorem blocks_enough_fuel fuel :
  2 * List.length a + 1 <= fuel ->
  difflib.blocks a b fuel [(0, List.length a, 0, List.length b)] [] =
  difflib.blocks a b (2 * List.length a + 1) [(0, List.length a, 0, List.length b)] [].
Proof.
  intro H. apply blocks_fuel.
  - repeat constructor. unfold difflib.ordered. lia.
  - cbn. lia.
  - cbn. lia.
Qed.


Lemma extend_left_fuel alo blo :
  forall f1 f2 bi bj bk,
    bi <= f1 -> bi <= f2 ->
    difflib.extend_left a b f1 alo blo (bi, bj, bk) =
    difflib.extend_left a b f2 alo blo (bi, bj, bk).
Proof.
  induction f1 as [| f1 IH]; intros f2 bi bj bk H1 H2.
  - assert (bi = 0) by lia. subst bi.
    destruct f2; cbn [difflib.extend_left]; [reflexivity |].
    replace (alo <? 0) with false by (symmetry; apply Nat.ltb_ge; lia). reflexivity.
  - destruct f2 as [| f2].
    + assert (bi = 0) by lia. subst bi. cbn [difflib.extend_left].
      replace (alo <? 0) with false by (symmetry; apply Nat.ltb_ge; lia). reflexivity.
    + cbn [difflib.extend_left].
      destruct ((alo <? bi) && (blo <? bj) && difflib.same_at a b (bi - 1) (bj - 1)) eqn:E;
        [| reflexivity].
      rewrite !andb_true_iff in E. destruct E as [[E _] _]. apply Nat.ltb_lt in E.
      apply IH; lia.
Qed.

Lemma extend_right_fuel ahi bhi :
  forall f1 f2 bi bj bk,
    ahi - (bi + bk) <= f1 -> ahi - (bi + bk) <= f2 ->
    difflib.extend_right a b f1 ahi bhi (bi, bj, bk) =
    difflib.extend_right a b f2 ahi bhi (bi, bj, bk).
Proof.
  induction f1 as [| f1 IH]; intros f2 bi bj bk H1 H2.
  - destruct f2; cbn [difflib.extend_right]; [reflexivity |].
    replace (bi + bk <? ahi) with false by (symmetry; apply Nat.ltb_ge; lia). reflexivity.
  - destruct f2 as [| f2].
    + cbn [difflib.extend_right].
      replace (bi + bk <? ahi) with false by (symmetry; apply Nat.ltb_ge; lia). reflexivity.
    + cbn [difflib.extend_right].
      destruct ((bi + bk <? ahi) && (bj + bk <? bhi)
                && difflib.same_at a b (bi + bk) (bj + bk)) eqn:E; [| reflexivity].
      rewrite !andb_true_iff in E. destruct E as [[E _] _]. apply Nat.ltb_lt in E.
      apply IH; lia.
Qed.
End Fuel.

(** ** Whole-word substitution, run by run *)

Lemma chars_eqb_eq x y : chars_eqb x y = true <-> x = y.
Proof. unfold chars_eqb. destruct (chars_eq_dec x y); split; congruence. Qed.

Lemma chars_eqb_neq x y : chars_eqb x y = false <-> x <> y.
Proof. unfold chars_eqb. destruct (chars_eq_dec x y); split; congruence. Qed.

Lemma strip_prefix_Some p : forall s rest,
  re.strip_prefix p s = Some rest <-> s = p ++ rest.
Proof.
  induction p as [| a p IH]; intros s rest; simpl.
  - split; congruence.
  - destruct s as [| b s]; [split; discriminate |].
    destruct (Ascii.eqb a b) eqn:E.
    + apply Ascii.eqb_eq in E. subst b. rewrite IH. split; congruence.
    + apply Ascii.eqb_neq in E. split; [discriminate | congruence].
Qed.

Lemma word_prefix_app run : forall rest,
  Forall (fun c => re.isword c = true) run ->
  re.word_prefix (run ++ rest) = run ++ re.word_prefix rest.
Proof.
  induction run as [| c run IH]; intros rest H; simpl; [reflexivity |].
  inversion H; subst. rewrite H2, IH by assumption. reflexivity.
Qed.

Lemma word_prefix_word s : Forall (fun c => re.isword c = true) (re.word_prefix s).
Proof.
  induction s as [| c s IH]; simpl; [constructor |].
  destruct (re.isword c) eqn:E; constructor; assumption.
Qed.

Lemma word_prefix_split s :
  exists rest, s = re.word_prefix s ++ rest /\ re.word_prefix rest = [].
Proof.
  induction s as [| c s (rest & E & H)]; simpl.
  - exists []. auto.
  - destruct (re.isword c) eqn:Ec.
    + exists rest. split; [simpl; congruence | exact H].
    + exists (c :: s). split; [reflexivity | simpl; rewrite Ec; reflexivity].
Qed.

(** *** Fields *)

Lemma fields_from_app sep w : forall cur s,
  Forall (fun c => sep c = false) w ->
  fields_from sep cur (w ++ s) = fields_from sep (cur ++ w) s.
Proof.
  induction w as [| c w IH]; intros cur s H; simpl.
  - rewrite app_nil_r. reflexivity.
  - inversion H; subst. rewrite H2, IH by assumption.
    rewrite <- app_assoc. reflexivity.
Qed.

Lemma fields_from_end sep cur :
  fields_from sep cur [] = match cur with [] => [] | _ => [cur] end.
Proof. reflexivity. Qed.

Lemma fields_from_separator sep u : forall cur c s,
  sep c = true ->
  fields_from sep cur (u ++ c :: s) = fields_from sep cur u ++ fields_from sep [] s.
Proof.
  induction u as [| x u IH]; intros cur c s Hc; simpl.
  - rewrite Hc. destruct cur; reflexivity.
  - destruct (sep x).
    + destruct cur; rewrite IH by exact Hc; reflexivity.
    + apply IH. exact Hc.
Qed.

Lemma fields_from_one sep cur :
  cur <> [] -> Forall (fun c => sep c = false) cur -> fields_from sep [] cur = [cur].
Proof.
  intros Hne H. rewrite <- (app_nil_r cur) at 1.
  rewrite fields_from_app by exact H. simpl. destruct cur; [contradiction | reflexivity].
Qed.

Lemma fields_from_pending sep cur s :
  Forall (fun c => sep c = false) cur ->
  fields_from sep cur s = fields_from sep [] (cur ++ s).
Proof. intro H. rewrite fields_from_app by exact H. reflexivity. Qed.

Lemma fields_words sep s : forall cur w,
  Forall (fun c => sep c = false) cur ->
  In w (fields_from sep cur s) -> w <> [] /\ Forall (fun c => sep c = false) w.
Proof.
  induction s as [| c s IH]; intros cur w Hcur Hin; simpl in Hin.
  - destruct cur; [contradiction |]. destruct Hin as [<- | []]. split; [discriminate | exact Hcur].
  - destruct (sep c) eqn:Ec.
    + destruct cur as [| x cur].
      * apply (IH [] w); [constructor | exact Hin].
      * destruct Hin as [<- | Hin]; [split; [discriminate | exact Hcur] |].
        apply (IH [] w); [constructor | exact Hin].
    + apply (IH (cur ++ [c]) w); [| exact Hin].
      apply Forall_app. split; [exact Hcur | constructor; [exact Ec | constructor]].
Qed.

Section WordSubstitution.
Variables old new : chars.
Hypothesis old_word : Forall (fun c => re.isword c = true) old.
Hypothesis old_not_empty : old <> [].

Lemma last_old_word : re.opt_word (hd_error (rev old)) = true.
Proof.
  destruct (rev old) as [| c r] eqn:E.
  - apply (f_equal (@rev ascii)) in E. rewrite rev_involutive in E. simpl in E. contradiction.
  - simpl. rewrite Forall_forall in old_word. apply old_word.
    apply in_rev. rewrite E. left. reflexivity.
Qed.

Lemma first_old_word : exists c r, old = c :: r /\ re.isword c = true.
Proof.
  destruct old as [| c r] eqn:E; [contradiction |].
  exists c, r. split; [reflexivity |]. inversion old_word; assumption.
Qed.

Lemma word_prefix_nil_head rest :
  re.word_prefix rest = [] -> re.opt_word (hd_error rest) = false.
Proof.
  destruct rest as [| c rest]; simpl; [reflexivity |].
  destruct (re.isword c); [discriminate | reflexivity].
Qed.

Lemma head_word_prefix_nil rest :
  re.opt_word (hd_error rest) = false -> re.word_prefix rest = [].
Proof.
  destruct rest as [| c rest]; simpl; [reflexivity |]. intros ->. reflexivity.
Qed.

(** At the start of a run the pattern matches exactly when the run is
    [old]; inside a run it never matches. *)
Lemma match_here_at_start prev s :
  re.opt_word prev = false ->
  (re.match_here old prev s = true <-> re.word_prefix s = old).
Proof.
  intro Hp. unfold re.match_here, re.boundary. rewrite Hp, last_old_word. simpl.
  destruct first_old_word as (c & r & Eo & Hc).
  split.
  - destruct (re.strip_prefix old s) as [rest |] eqn:E; [| discriminate].
    apply strip_prefix_Some in E. subst s. intro H.
    apply andb_true_iff in H. destruct H as [_ H].
    rewrite word_prefix_app by exact old_word.
    rewrite head_word_prefix_nil; [apply app_nil_r |].
    destruct (re.opt_word (hd_error rest)); [discriminate | reflexivity].
  - intro H. destruct (word_prefix_split s) as (rest & E & Hr). rewrite H in E.
    rewrite (proj2 (strip_prefix_Some old s rest) E).
    rewrite (word_prefix_nil_head rest Hr). subst s. rewrite Eo. simpl. rewrite Hc. reflexivity.
Qed.

Lemma match_here_inside prev s :
  re.opt_word prev = true -> re.match_here old prev s = false.
Proof.
  intro Hp. unfold re.match_here, re.boundary. rewrite Hp.
  destruct (re.strip_prefix old s) as [rest |] eqn:E; [| reflexivity].
  apply strip_prefix_Some in E. destruct first_old_word as (c & r & Eo & Hc).
  subst s. rewrite Eo. simpl. rewrite Hc. reflexivity.
Qed.

Lemma match_here_separator prev c s :
  re.isword c = false -> re.match_here old prev (c :: s) = false.
Proof.
  intro Hc. unfold re.match_here.
  destruct (re.strip_prefix old (c :: s)) as [rest |] eqn:E; [| reflexivity].
  apply strip_prefix_Some in E. destruct first_old_word as (c' & r & Eo & Hc').
  rewrite Eo in E. simpl in E. inversion E; subst. congruence.
Qed.

Lemma replace_run_other run : run <> old -> re.replace_run old new run = run.
Proof. intro H. unfold re.replace_run. rewrite (proj2 (chars_eqb_neq run old) H). reflexivity. Qed.

Lemma replace_run_old : re.replace_run old new old = new.
Proof. unfold re.replace_run. rewrite (proj2 (chars_eqb_eq old old) eq_refl). reflexivity. Qed.

Lemma replace_run_nil : re.replace_run old new [] = [].
Proof. apply replace_run_other. auto. Qed.

(** The scan and the run-by-run reading agree: at the start of a run,
    inside a run that is not [old], and while the rest of a matched run is
    skipped. *)
Lemma scan_runs s :
  (forall prev,
      re.opt_word prev = false ->
      re.sub_scan old new 0 prev s = re.sub_runs_from old new [] s) /\
  (forall prev cur,
      re.opt_word prev = true -> cur ++ re.word_prefix s <> old ->
      cur ++ re.sub_scan old new 0 prev s = re.sub_runs_from old new cur s) /\
  (forall prev cur k,
      cur ++ firstn k s = old -> k <= List.length s ->
      re.word_prefix (skipn k s) = [] ->
      new ++ re.sub_scan old new k prev s = re.sub_runs_from old new cur s).
Proof.
  induction s as [| c s (IH1 & IH2 & IH3)].
  - split; [| split].
    + intros prev _. simpl. rewrite replace_run_nil. reflexivity.
    + intros prev cur _ H. simpl in *. rewrite app_nil_r in *.
      rewrite replace_run_other by exact H. reflexivity.
    + intros prev cur k H Hk _. simpl in *. rewrite firstn_nil, app_nil_r in H.
      subst cur. rewrite replace_run_old, app_nil_r. reflexivity.
  - split; [| split].
    + intros prev Hp. cbn [re.sub_scan re.sub_runs_from].
      destruct (re.isword c) eqn:Ec.
      * destruct (re.match_here old prev (c :: s)) eqn:Em.
        -- apply (match_here_at_start prev (c :: s) Hp) in Em.
           destruct (word_prefix_split (c :: s)) as (rest & E & Hr).
           rewrite Em in E. destruct first_old_word as (c' & r & Eo & _).
           rewrite Eo in E. simpl in E. injection E as Ec' Es.
           assert (Hk : List.length old - 1 = List.length r)
             by (rewrite Eo; simpl; lia).
           rewrite Hk. apply IH3; rewrite Es.
           ++ rewrite firstn_app, firstn_all, Nat.sub_diag. simpl.
              rewrite app_nil_r, Ec'. symmetry. exact Eo.
           ++ rewrite length_app. lia.
           ++ rewrite skipn_app, skipn_all, Nat.sub_diag. simpl. exact Hr.
        -- change (c :: re.sub_scan old new 0 (Some c) s)
             with ([c] ++ re.sub_scan old new 0 (Some c) s).
           apply IH2; [simpl; exact Ec |].
           intro H. assert (Hm : re.match_here old prev (c :: s) = true).
           { apply match_here_at_start; [exact Hp |]. simpl. rewrite Ec. exact H. }
           congruence.
      * rewrite match_here_separator by exact Ec.
        rewrite replace_run_nil. simpl. f_equal. apply IH1. simpl. exact Ec.
    + intros prev cur Hp H. cbn [re.sub_scan re.sub_runs_from].
      rewrite match_here_inside by exact Hp.
      destruct (re.isword c) eqn:Ec.
      * rewrite <- IH2 with (prev := Some c).
        -- rewrite <- app_assoc. reflexivity.
        -- simpl. exact Ec.
        -- simpl in H. rewrite Ec in H. rewrite <- app_assoc. exact H.
      * simpl in H. rewrite Ec, app_nil_r in H.
        rewrite replace_run_other by exact H. f_equal. f_equal.
        apply IH1. simpl. exact Ec.
    + intros prev cur k H Hk Hr. destruct k as [| k].
      * simpl in H, Hr. rewrite app_nil_r in H. subst cur.
        cbn [re.sub_scan re.sub_runs_from].
        destruct (re.isword c) eqn:Ec; [discriminate Hr |].
        rewrite match_here_separator by exact Ec.
        rewrite replace_run_old. f_equal. f_equal. apply IH1. simpl. exact Ec.
      * cbn [re.sub_scan re.sub_runs_from].
        assert (Ec : re.isword c = true).
        { simpl in H. rewrite Forall_forall in old_word. apply old_word.
          rewrite <- H. apply in_elt. }
        rewrite Ec. apply IH3.
        -- rewrite <- app_assoc. exact H.
        -- simpl in Hk. lia.
        -- exact Hr.
Qed.

Lemma sub_word_runs s : re.sub_word old new s = re.sub_runs_from old new [] s.
Proof. unfold re.sub_word. apply (proj1 (scan_runs s)). reflexivity. Qed.

Abbreviation separator := (fun c => negb (re.isword c)).

Lemma word_runs_of_run cur :
  cur <> [] -> Forall (fun c => re.isword c = true) cur -> re.word_runs cur = [cur].
Proof.
  intros Hne H. apply fields_from_one; [exact Hne |].
  eapply Forall_impl; [| exact H]. intros c Hc. simpl. rewrite Hc. reflexivity.
Qed.

Lemma word_runs_replace_run cur :
  Forall (fun c => re.isword c = true) cur ->
  re.word_runs (re.replace_run old new cur) =
  re.replace_in_runs old new (match cur with [] => [] | _ => [cur] end).
Proof.
  intro H. destruct cur as [| x cur]; [rewrite replace_run_nil; reflexivity |].
  unfold re.replace_run, re.replace_in_runs. simpl.
  destruct (chars_eqb (x :: cur) old); rewrite app_nil_r; [reflexivity |].
  apply word_runs_of_run; [discriminate | exact H].
Qed.

Lemma word_runs_separator u c s :
  re.isword c = false ->
  re.word_runs (u ++ c :: s) = re.word_runs u ++ re.word_runs s.
Proof.
  intro H. unfold re.word_runs. apply fields_from_separator. simpl. rewrite H. reflexivity.
Qed.

(** The runs after the substitution are the runs before it with [old]
    replaced by the runs of [new]. *)
Lemma word_runs_sub_runs s : forall cur,
  Forall (fun c => re.isword c = true) cur ->
  re.word_runs (re.sub_runs_from old new cur s) =
  re.replace_in_runs old new (fields_from separator cur s).
Proof.
  induction s as [| c s IH]; intros cur Hcur; cbn [re.sub_runs_from fields_from].
  - apply word_runs_replace_run. exact Hcur.
  - destruct (re.isword c) eqn:Ec; simpl.
    + apply IH. apply Forall_app. split; [exact Hcur | constructor; [exact Ec | constructor]].
    + rewrite word_runs_separator by exact Ec.
      rewrite word_runs_replace_run by exact Hcur. rewrite IH by constructor.
      unfold re.replace_in_runs. destruct cur; simpl; [reflexivity |].
      rewrite app_nil_r. reflexivity.
Qed.

Lemma word_runs_sub_word s :
  re.word_runs (re.sub_word old new s) = re.replace_in_runs old new (re.word_runs s).
Proof. rewrite sub_word_runs. apply word_runs_sub_runs. constructor. Qed.

(** Without a run equal to [old] the substitution changes nothing. *)
Lemma sub_runs_absent s : forall cur,
  ~ In old (fields_from separator cur s) ->
  re.sub_runs_from old new cur s = cur ++ s.
Proof.
  induction s as [| c s IH]; intros cur H; cbn [re.sub_runs_from fields_from] in *.
  - rewrite app_nil_r. destruct cur as [| x cur]; [apply replace_run_nil |].
    apply replace_run_other. intro E. apply H. left. exact E.
  - destruct (re.isword c) eqn:Ec; simpl in H.
    + rewrite IH by exact H. rewrite <- app_assoc. reflexivity.
    + destruct cur as [| x cur].
      * rewrite replace_run_nil, IH by exact H. reflexivity.
      * rewrite replace_run_other by (intro E; apply H; left; exact E).
        rewrite IH by (intro E; apply H; right; exact E). reflexivity.
Qed.

Lemma sub_word_absent s : ~ In old (re.word_runs s) -> re.sub_word old new s = s.
Proof. intro H. rewrite sub_word_runs. apply (sub_runs_absent s []). exact H. Qed.

End WordSubstitution.

Lemma sub_runs_same old s : forall cur, re.sub_runs_from old old cur s = cur ++ s.
Proof.
  assert (R : forall run, re.replace_run old old run = run).
  { intro run. unfold re.replace_run. destruct (chars_eqb run old) eqn:E; [| reflexivity].
    apply chars_eqb_eq in E. congruence. }
  induction s as [| c s IH]; intro cur; simpl.
  - rewrite R, app_nil_r. reflexivity.
  - destruct (re.isword c).
    + rewrite IH, <- app_assoc. reflexivity.
    + rewrite R, IH. reflexivity.
Qed.

(** ** White space and character classes *)

Lemma space_not_word c : isspace c = true -> re.isword c = false.
Proof.
  destruct c as [b0 b1 b2 b3 b4 b5 b6 b7].
  destruct b0, b1, b2, b3, b4, b5, b6, b7; vm_compute; congruence.
Qed.

Lemma lower_char_normal c : Ascii.eqb (lower_char (lower_char c)) (lower_char c) = true.
Proof.
  destruct c as [b0 b1 b2 b3 b4 b5 b6 b7].
  destruct b0, b1, b2, b3, b4, b5, b6, b7; vm_compute; reflexivity.
Qed.

Lemma join_cons sep w ws :
  join sep (w :: ws) = match ws with [] => w | _ => w ++ sep ++ join sep ws end.
Proof. destruct ws; reflexivity. Qed.

Lemma join_Forall (P : ascii -> Prop) sep ws :
  Forall P sep -> Forall (Forall P) ws -> Forall P (join sep ws).
Proof.
  intros Hsep H. induction H as [| w ws Hw Hws IH]; [constructor |].
  rewrite join_cons. destruct ws; [exact Hw |].
  apply Forall_app. split; [exact Hw |]. apply Forall_app. split; assumption.
Qed.

Lemma fields_Forall (P : ascii -> Prop) sep s : forall cur,
  Forall P cur -> Forall P s -> Forall (Forall P) (fields_from sep cur s).
Proof.
  induction s as [| c s IH]; intros cur Hcur Hs; simpl.
  - destruct cur; constructor; [exact Hcur | constructor].
  - inversion Hs; subst. destruct (sep c).
    + destruct cur; [apply IH; [constructor | assumption] |].
      constructor; [exact Hcur | apply IH; [constructor | assumption]].
    + apply IH; [| assumption]. apply Forall_app. split; [exact Hcur | constructor; auto].
Qed.

Lemma word_runs_join s : forall cur,
  re.word_runs (join [" "%char] (fields_from isspace cur s)) = re.word_runs (cur ++ s).
Proof.
  induction s as [| c s IH]; intro cur; simpl.
  - rewrite app_nil_r. destruct cur; reflexivity.
  - destruct (isspace c) eqn:Ec.
    + rewrite (word_runs_separator cur c s (space_not_word c Ec)).
      destruct cur as [| x cur].
      * rewrite IH. reflexivity.
      * rewrite join_cons. specialize (IH []). simpl in IH.
        destruct (fields_from isspace [] s) as [| w1 ws1] eqn:E.
        -- simpl in IH. rewrite <- IH, app_nil_r. reflexivity.
        -- change ((x :: cur) ++ [" "%char] ++ join [" "%char] (w1 :: ws1))
             with ((x :: cur) ++ " "%char :: join [" "%char] (w1 :: ws1)).
           rewrite word_runs_separator by reflexivity. rewrite IH. reflexivity.
    + rewrite IH, <- app_assoc. reflexivity.
Qed.

Lemma split_join ws :
  Forall (fun w => w <> [] /\ Forall (fun c => isspace c = false) w) ws ->
  split (join [" "%char] ws) = ws.
Proof.
  unfold split. intro H. induction H as [| w ws [Hne Hw] Hws IH]; [reflexivity |].
  rewrite join_cons. destruct ws as [| w' ws'].
  - apply fields_from_one; assumption.
  - change (w ++ [" "%char] ++ join [" "%char] (w' :: ws'))
      with (w ++ " "%char :: join [" "%char] (w' :: ws')).
    rewrite fields_from_separator by reflexivity.
    rewrite fields_from_one by assumption. rewrite IH. reflexivity.
Qed.

Lemma split_words s :
  Forall (fun w => w <> [] /\ Forall (fun c => isspace c = false) w) (split s).
Proof.
  apply Forall_forall. intros w Hw. apply (fields_words isspace s [] w); [constructor | exact Hw].
Qed.

Lemma join_split_fixed s : join [" "%char] (split (join [" "%char] (split s))) = join [" "%char] (split s).
Proof. rewrite split_join by apply split_words. reflexivity. Qed.

(** *** Stripping *)

Lemma lstrip_head s :
  match s with [] => True | c :: _ => isspace c = false end -> lstrip s = s.
Proof. destruct s as [| c s]; simpl; [reflexivity |]. intros ->. reflexivity. Qed.

Lemma join_words_head ws :
  Forall (fun w => w <> [] /\ Forall (fun c => isspace c = false) w) ws ->
  match join [" "%char] ws with [] => True | c :: _ => isspace c = false end.
Proof.
  intro H. destruct H as [| w ws [Hne Hw] Hws]; [exact I |].
  rewrite join_cons. destruct w as [| c w]; [contradiction |].
  inversion Hw; subst. destruct ws; simpl; assumption.
Qed.

Lemma join_words_not_empty w ws : w <> [] -> join [" "%char] (w :: ws) <> [].
Proof.
  intro H. rewrite join_cons. destruct w; [contradiction |]. destruct ws; discriminate.
Qed.

Lemma join_words_last ws :
  Forall (fun w => w <> [] /\ Forall (fun c => isspace c = false) w) ws ->
  match rev (join [" "%char] ws) with [] => True | c :: _ => isspace c = false end.
Proof.
  intro H. induction H as [| w ws [Hne Hw] Hws IH]; [exact I |].
  rewrite join_cons. destruct ws as [| w' ws'].
  - destruct (rev w) as [| c r] eqn:E; [exact I |].
    rewrite Forall_forall in Hw. apply Hw. apply in_rev. rewrite E. left. reflexivity.
  - rewrite !rev_app_distr.
    inversion Hws as [| ? ? [Hne' _] _]; subst.
    destruct (rev (join [" "%char] (w' :: ws'))) as [| c r] eqn:E.
    + exfalso. apply (join_words_not_empty w' ws' Hne').
      rewrite <- (rev_involutive (join [" "%char] (w' :: ws'))), E. reflexivity.
    + simpl. exact IH.
Qed.

Lemma strip_join_words ws :
  Forall (fun w => w <> [] /\ Forall (fun c => isspace c = false) w) ws ->
  strip (join [" "%char] ws) = join [" "%char] ws.
Proof.
  intro H. unfold strip, rstrip.
  rewrite (lstrip_head _ (join_words_head ws H)).
  rewrite (lstrip_head _ (join_words_last ws H)). apply rev_involutive.
Qed.

(** *** Characters of a normalized text *)

Lemma lstrip_Forall (P : ascii -> Prop) s : Forall P s -> Forall P (lstrip s).
Proof.
  induction s as [| c s IH]; intro H; simpl; [constructor |].
  destruct (isspace c); [apply IH; inversion H; assumption | exact H].
Qed.

Lemma strip_Forall (P : ascii -> Prop) s : Forall P s -> Forall P (strip s).
Proof.
  intro H. unfold strip, rstrip.
  apply Forall_rev, lstrip_Forall, Forall_rev, lstrip_Forall. exact H.
Qed.

Lemma cleaned_normal s :
  Forall (fun c => normal_char c = true) (re.sub_special (strip (lower s))).
Proof.
  unfold re.sub_special. apply Forall_map.
  assert (H : Forall (fun c => Ascii.eqb (lower_char c) c = true) (strip (lower s))).
  { apply strip_Forall. unfold lower. apply Forall_map.
    apply Forall_forall. intros c _. apply lower_char_normal. }
  eapply Forall_impl; [| exact H]. intros c Hc. simpl in *.
  unfold normal_char. destruct (re.kept c) eqn:E; [rewrite Hc, E |]; reflexivity.
Qed.

Lemma sub_scan_Forall (P : ascii -> Prop) old new s : forall k prev,
  Forall P new -> Forall P s -> Forall P (re.sub_scan old new k prev s).
Proof.
  induction s as [| c s IH]; intros k prev Hn Hs; simpl; [constructor |].
  inversion Hs; subst. destruct k as [| k]; [| apply IH; assumption].
  destruct (re.match_here old prev (c :: s)).
  - apply Forall_app. split; [exact Hn | apply IH; assumption].
  - constructor; [assumption | apply IH; assumption].
Qed.

Lemma apply_replacements_Forall (P : ascii -> Prop) table : forall s,
  Forall (fun on => Forall P (of_str (snd on))) table ->
  Forall P s -> Forall P (apply_replacements table s).
Proof.
  unfold apply_replacements.
  induction table as [| on table IH]; intros s Ht Hs; simpl; [exact Hs |].
  inversion Ht; subst. apply IH; [assumption |].
  apply sub_scan_Forall; assumption.
Qed.

Lemma replacement_values_normal :
  Forall (fun on => Forall (fun c => normal_char c = true) (of_str (snd on))) replacements.
Proof.
  apply Forall_forall. intros on Hin. apply Forall_forall. intros c Hc.
  assert (H : forallb (fun on => forallb normal_char (of_str (snd on))) replacements = true)
    by (vm_compute; reflexivity).
  rewrite forallb_forall in H. specialize (H on Hin).
  rewrite forallb_forall in H. apply H. exact Hc.
Qed.

Lemma normal_lower s : Forall (fun c => normal_char c = true) s -> lower s = s.
Proof.
  intro H. unfold lower. induction H as [| c s Hc Hs IH]; simpl; [reflexivity |].
  rewrite IH. f_equal. unfold normal_char in Hc. apply andb_true_iff in Hc.
  apply Ascii.eqb_eq. tauto.
Qed.

Lemma normal_sub_special s :
  Forall (fun c => normal_char c = true) s -> re.sub_special s = s.
Proof.
  intro H. unfold re.sub_special. induction H as [| c s Hc Hs IH]; simpl; [reflexivity |].
  rewrite IH. f_equal. unfold normal_char in Hc. apply andb_true_iff in Hc.
  destruct Hc as [_ ->]. reflexivity.
Qed.

Lemma normalized_normal s : Forall (fun c => normal_char c = true) (normalize_chars s).
Proof.
  unfold normalize_chars. apply join_Forall.
  - constructor; [reflexivity | constructor].
  - apply fields_Forall; [constructor |].
    apply apply_replacements_Forall; [apply replacement_values_normal | apply cleaned_normal].
Qed.

(** On a normalized text the first three steps do nothing. *)
Lemma normalize_chars_again s :
  normalize_chars (normalize_chars s) =
  join [" "%char] (split (apply_replacements replacements (normalize_chars s))).
Proof.
  unfold normalize_chars at 1.
  rewrite (normal_lower _ (normalized_normal s)).
  assert (E : strip (normalize_chars s) = normalize_chars s).
  { unfold normalize_chars. apply strip_join_words, split_words. }
  rewrite E, (normal_sub_special _ (normalized_normal s)). reflexivity.
Qed.

(** ** The synonym table on runs *)

Lemma mem_chars_In w l : mem_chars w l = true <-> In w l.
Proof.
  unfold mem_chars. rewrite existsb_exists. split.
  - intros (x & Hx & E). apply chars_eqb_eq in E. subst. exact Hx.
  - intro H. exists w. split; [exact H | apply chars_eqb_eq; reflexivity].
Qed.

Lemma mem_chars_not_In w l : negb (mem_chars w l) = true <-> ~ In w l.
Proof.
  rewrite negb_true_iff, <- mem_chars_In. destruct (mem_chars w l); split; congruence.
Qed.

Lemma key_ok_spec k :
  key_ok k = true -> Forall (fun c => re.isword c = true) k /\ k <> [].
Proof.
  destruct k as [| c k]; [discriminate |]. unfold key_ok. intro H.
  split; [| discriminate]. apply Forall_forall. rewrite forallb_forall in H. exact H.
Qed.

Lemma replacement_keys_ok :
  Forall (fun on => key_ok (of_str (fst on)) = true) replacements.
Proof.
  apply Forall_forall. intros on Hin.
  assert (H : forallb (fun on => key_ok (of_str (fst on))) replacements = true)
    by (vm_compute; reflexivity).
  rewrite forallb_forall in H. apply H. exact Hin.
Qed.

Lemma word_runs_apply_replacements table : forall s,
  Forall (fun on => key_ok (of_str (fst on)) = true) table ->
  re.word_runs (apply_replacements table s) = runs_after table (re.word_runs s).
Proof.
  unfold apply_replacements, runs_after.
  induction table as [| [k v] table IH]; intros s H; simpl; [reflexivity |].
  inversion H as [| ? ? Hk Ht]; subst. simpl in Hk. apply key_ok_spec in Hk.
  rewrite IH by exact Ht. rewrite word_runs_sub_word by tauto. reflexivity.
Qed.

Lemma replace_in_runs_In old new runs w :
  In w (re.replace_in_runs old new runs) ->
  (In w runs /\ w <> old) \/ In w (re.word_runs new).
Proof.
  unfold re.replace_in_runs. rewrite in_flat_map. intros (run & Hrun & H).
  destruct (chars_eqb run old) eqn:E; [right; exact H |].
  apply chars_eqb_neq in E. destruct H as [<- | []]. left. auto.
Qed.

Lemma replace_in_runs_keeps old new runs w :
  In w runs -> w <> old -> In w (re.replace_in_runs old new runs).
Proof.
  intros H Hne. unfold re.replace_in_runs. apply in_flat_map. exists w. split; [exact H |].
  rewrite (proj2 (chars_eqb_neq w old) Hne). left. reflexivity.
Qed.

Lemma absent_through k table : forall runs,
  ~ In k runs ->
  forallb (fun on => negb (mem_chars k (re.word_runs (of_str (snd on))))) table = true ->
  ~ In k (runs_after table runs).
Proof.
  unfold runs_after. induction table as [| [k' v'] table IH]; intros runs H Ht; simpl; [exact H |].
  simpl in Ht. apply andb_true_iff in Ht. destruct Ht as [Hv Ht].
  apply mem_chars_not_In in Hv. apply IH; [| exact Ht].
  intro Hin. apply replace_in_runs_In in Hin. tauto.
Qed.

Lemma vanishes_absent k table : forall runs,
  vanishes k table = true -> ~ In k (runs_after table runs).
Proof.
  induction table as [| [k' v'] table IH]; intros runs H; simpl in H; [discriminate |].
  destruct (chars_eqb (of_str k') k) eqn:E.
  - apply chars_eqb_eq in E. apply andb_true_iff in H. destruct H as [Hv Ht].
    apply mem_chars_not_In in Hv.
    change (runs_after ((k', v') :: table) runs)
      with (runs_after table (re.replace_in_runs (of_str k') (of_str v') runs)).
    apply absent_through; [| exact Ht].
    intro Hin. apply replace_in_runs_In in Hin. rewrite E in Hin. tauto.
  - apply (IH _ H).
Qed.

Lemma replace_in_runs_length old new runs :
  re.word_runs new <> [] ->
  List.length runs <= List.length (re.replace_in_runs old new runs).
Proof.
  intro H. unfold re.replace_in_runs. induction runs as [| r runs IH]; simpl; [lia |].
  rewrite length_app. destruct (chars_eqb r old); simpl; [| lia].
  destruct (re.word_runs new); [contradiction | simpl; lia].
Qed.

Lemma replace_in_runs_longer old new runs :
  In old runs -> 2 <= List.length (re.word_runs new) ->
  List.length runs < List.length (re.replace_in_runs old new runs).
Proof.
  intros Hin H2.
  assert (Hne : re.word_runs new <> []) by (destruct (re.word_runs new); [simpl in H2; lia | discriminate]).
  unfold re.replace_in_runs. induction runs as [| r runs IH]; simpl; [contradiction |].
  rewrite length_app. destruct Hin as [-> | Hin].
  - rewrite (proj2 (chars_eqb_eq old old) eq_refl).
    assert (G := replace_in_runs_length old new runs Hne).
    unfold re.replace_in_runs in G. lia.
  - specialize (IH Hin). destruct (chars_eqb r old); simpl; [| lia].
    destruct (re.word_runs new); [contradiction | simpl; lia].
Qed.

Lemma runs_after_length table : forall runs,
  forallb (fun on => negb (match re.word_runs (of_str (snd on)) with [] => true | _ => false end))
          table = true ->
  List.length runs <= List.length (runs_after table runs).
Proof.
  unfold runs_after. induction table as [| [k v] table IH]; intros runs H; simpl; [lia |].
  simpl in H. apply andb_true_iff in H. destruct H as [Hv Ht].
  eapply Nat.le_trans; [| apply IH; exact Ht].
  apply replace_in_runs_length. destruct (re.word_runs (of_str v)); [discriminate | discriminate].
Qed.

Lemma expands_longer k table : forall runs,
  forallb (fun on => negb (match re.word_runs (of_str (snd on)) with [] => true | _ => false end))
          table = true ->
  expands k table = true -> In k runs ->
  List.length runs < List.length (runs_after table runs).
Proof.
  induction table as [| [k' v'] table IH]; intros runs Ht He Hin; cbn [expands] in He;
    [discriminate |].
  simpl in Ht. apply andb_true_iff in Ht. destruct Ht as [Hv Ht].
  change (runs_after ((k', v') :: table) runs)
    with (runs_after table (re.replace_in_runs (of_str k') (of_str v') runs)).
  destruct (chars_eqb (of_str k') k) eqn:E.
  - apply chars_eqb_eq in E. apply Nat.leb_le in He.
    eapply Nat.lt_le_trans; [| apply runs_after_length; exact Ht].
    apply replace_in_runs_longer; [rewrite E; exact Hin | exact He].
  - apply chars_eqb_neq in E.
    eapply Nat.le_lt_trans; [| apply IH; [exact Ht | exact He |]].
    + apply replace_in_runs_length. destruct (re.word_runs (of_str v')); discriminate.
    + apply replace_in_runs_keeps; [exact Hin | congruence].
Qed.

(** ** Idempotence of the normalizer *)

Lemma word_runs_normalized s :
  re.word_runs (normalize_chars s) =
  runs_after replacements (re.word_runs (re.sub_special (strip (lower s)))).
Proof.
  unfold normalize_chars, split. rewrite word_runs_join, app_nil_l.
  apply word_runs_apply_replacements, replacement_keys_ok.
Qed.

Lemma apply_replacements_fixed table s :
  (forall on, In on table -> re.sub_word (of_str (fst on)) (of_str (snd on)) s = s) ->
  apply_replacements table s = s.
Proof.
  unfold apply_replacements. induction table as [| on table IH]; intro H; simpl; [reflexivity |].
  rewrite (H on (or_introl eq_refl)). apply IH. intros on' Hin. apply H. right. exact Hin.
Qed.

Lemma replacements_classified on :
  In on replacements ->
  of_str (fst on) = of_str (snd on) \/
  In (fst on) expanding_keys \/
  vanishes (of_str (fst on)) replacements = true.
Proof.
  intro Hin.
  assert (H : forallb
                (fun on => chars_eqb (of_str (fst on)) (of_str (snd on))
                           || mem (fst on) expanding_keys
                           || vanishes (of_str (fst on)) replacements)
                replacements = true) by (vm_compute; reflexivity).
  rewrite forallb_forall in H. specialize (H on Hin).
  apply orb_true_iff in H. destruct H as [H | H]; [| auto].
  apply orb_true_iff in H. destruct H as [H | H].
  - left. apply chars_eqb_eq. exact H.
  - right. left. apply mem_In. exact H.
Qed.

Lemma expanding_keys_expand k :
  In k expanding_keys -> expands (of_str k) replacements = true.
Proof.
  intro Hin.
  assert (H : forallb (fun k => expands (of_str k) replacements) expanding_keys = true)
    by (vm_compute; reflexivity).
  rewrite forallb_forall in H. apply H. exact Hin.
Qed.

Lemma replacement_values_have_words :
  forallb (fun on => negb (match re.word_runs (of_str (snd on)) with
                           | [] => true
                           | _ => false
                           end)) replacements = true.
Proof. vm_compute. reflexivity. Qed.

Lemma normalize_chars_fixed_iff s :
  normalize_chars (normalize_chars s) = normalize_chars s <->
  forall k, In k expanding_keys -> ~ In (of_str k) (re.word_runs (normalize_chars s)).
Proof.
  set (y := normalize_chars s). split.
  - intros Hfix k Hk Hin.
    assert (L : List.length (re.word_runs y) < List.length (re.word_runs (normalize_chars y))).
    { unfold y at 2. rewrite normalize_chars_again. fold y. unfold split.
      rewrite word_runs_join, app_nil_l.
      rewrite word_runs_apply_replacements by apply replacement_keys_ok.
      apply (expands_longer (of_str k));
        [apply replacement_values_have_words | apply expanding_keys_expand; exact Hk | exact Hin]. }
    rewrite Hfix in L. lia.
  - intro H. unfold y at 1. rewrite normalize_chars_again. fold y.
    rewrite apply_replacements_fixed; [unfold y, normalize_chars; apply join_split_fixed |].
    intros [k v] Hin. cbn [fst snd].
    assert (Hk := proj1 (Forall_forall _ _) replacement_keys_ok (k, v) Hin).
    cbn [fst] in Hk. apply key_ok_spec in Hk. destruct Hk as [Hk1 Hk2].
    destruct (replacements_classified (k, v) Hin) as [E | [E | E]]; cbn [fst snd] in E.
    + rewrite (sub_word_runs _ _ Hk1 Hk2), <- E. apply (sub_runs_same (of_str k) y []).
    + apply (sub_word_absent _ _ Hk1 Hk2). apply H. exact E.
    + apply (sub_word_absent _ _ Hk1 Hk2). unfold y. rewrite word_runs_normalized.
      apply vanishes_absent. exact E.
Qed.

Lemma normalize_product_name_chars x :
  normalize_product_name x = to_str (normalize_chars (of_str x)).
Proof. destruct x; reflexivity. Qed.

Lemma of_str_to_str l : of_str (to_str l) = l.
Proof. apply list_ascii_of_string_of_list_ascii. Qed.

(** C3 (amended): normalizing twice gives the same text as normalizing
    once exactly when the normalized text contains none of the words
    trump, biden, harris, senate, house, congress and 2024, which the
    synonym table expands again on every pass. *)
Theorem normalize_idempotent_iff (x : string) :
  normalize_product_name (normalize_product_name x) = normalize_product_name x <->
  forall k, In k expanding_keys ->
            ~ In (of_str k) (re.word_runs (of_str (normalize_product_name x))).
Proof.
  rewrite (normalize_product_name_chars (normalize_product_name x)).
  rewrite (normalize_product_name_chars x), of_str_to_str.
  rewrite <- normalize_chars_fixed_iff. split.
  - intro H. apply (f_equal of_str) in H. rewrite !of_str_to_str in H. exact H.
  - intros ->. reflexivity.
Qed.

(** C3 fails on a title that mentions an expanded name. *)
Lemma normalize_idempotent_counterexample :
  normalize_product_name "Trump wins 2024 election"
  = "donald trump victory 2024 election election"%string /\
  normalize_product_name (normalize_product_name "Trump wins 2024 election")
  = "donald donald trump victory 2024 election election election"%string /\
  normalize_product_name (normalize_product_name "Trump wins 2024 election")
  <> normalize_product_name "Trump wins 2024 election".
Proof.
  vm_compute. repeat split. intro H. discriminate H.
Qed.

(* ================================================================== *)
(** * Further properties of the engine *)
(* ================================================================== *)

Import Eff identify_products.

(** ** The normal form of a title *)

Lemma split_only_blank ws :
  Forall (fun w => w <> [] /\ Forall (fun c => isspace c = false) w) ws ->
  Forall (fun c => isspace c = true -> c = " "%char) (join [" "%char] ws).
Proof.
  intro H. apply join_Forall.
  - repeat constructor.
  - eapply Forall_impl; [| exact H]. intros w [_ Hw].
    eapply Forall_impl; [| exact Hw]. intros c Hc Hs. congruence.
Qed.

Lemma normal_char_cases c :
  normal_char c = true ->
  isupper c = false /\
  (re.isword c = true \/ isspace c = true \/
   c = "-"%char \/ c = "?"%char \/ c = "!"%char).
Proof.
  unfold normal_char. rewrite andb_true_iff. intros [Hl Hk]. split.
  - destruct (isupper c) eqn:E; [| reflexivity].
    apply Ascii.eqb_eq in Hl. unfold lower_char in Hl. rewrite E in Hl.
    unfold isupper, in_range in E. rewrite andb_true_iff, !Nat.leb_le in E.
    apply (f_equal nat_of_ascii) in Hl.
    rewrite nat_ascii_embedding in Hl by (unfold code in *; lia).
    unfold code in *. lia.
  - unfold re.kept in Hk. rewrite !orb_true_iff, !Nat.eqb_eq in Hk.
    assert (Hc : forall n, code c = n -> c = ascii_of_nat n).
    { intros n <-. unfold code. symmetry. apply ascii_nat_embedding. }
    destruct Hk as [[[[Hk | Hk] | Hk] | Hk] | Hk]; auto.
    + right. right. left. apply (Hc 45 Hk).
    + right. right. right. left. apply (Hc 63 Hk).
    + right. right. right. right. apply (Hc 33 Hk).
Qed.

(** X1: The normalizer returns a text in lower case, made of word
    characters, single blanks, hyphens, question marks and exclamation
    marks, with words separated by one blank and no blank at either
    end. *)
Theorem normalize_product_name_canonical (product_name : string) :
  let normalized := of_str (normalize_product_name product_name) in
  Forall (fun c => isupper c = false /\
                   (re.isword c = true \/ c = " "%char \/ c = "-"%char \/
                    c = "?"%char \/ c = "!"%char)) normalized /\
  lower normalized = normalized /\
  strip normalized = normalized /\
  join [" "%char] (split normalized) = normalized.
Proof.
  cbv zeta. rewrite normalize_product_name_chars, of_str_to_str.
  set (s := of_str product_name).
  assert (Hn := normalized_normal s).
  assert (Hw := split_words (apply_replacements replacements
                               (re.sub_special (strip (lower s))))).
  assert (Hb := split_only_blank _ Hw).
  set (ws := split (apply_replacements replacements
                               (re.sub_special (strip (lower s))))) in *.
  assert (En : normalize_chars s = join [" "%char] ws) by reflexivity.
  clearbody ws.
  split; [| split; [| split]].
  - rewrite En in *. rewrite Forall_forall in *. intros c Hc.
    destruct (normal_char_cases c (Hn c Hc)) as [Hu Hk]. split; [exact Hu |].
    destruct Hk as [Hk | [Hk | Hk]]; auto.
  - apply normal_lower. exact Hn.
  - rewrite En. apply strip_join_words. exact Hw.
  - rewrite En. rewrite split_join by exact Hw. reflexivity.
Qed.

(** ** Case of the titles *)

Lemma normalize_chars_lower s s' :
  lower s = lower s' -> normalize_chars s = normalize_chars s'.
Proof. intro H. unfold normalize_chars. rewrite H. reflexivity. Qed.

Lemma normalize_product_name_lower t t' :
  lower (of_str t) = lower (of_str t') ->
  normalize_product_name t = normalize_product_name t'.
Proof.
  intro H. rewrite !normalize_product_name_chars.
  rewrite (normalize_chars_lower _ _ H). reflexivity.
Qed.

Lemma extract_keywords_lower t t' :
  lower (of_str t) = lower (of_str t') ->
  extract_keywords t = extract_keywords t'.
Proof.
  intro H. unfold extract_keywords.
  rewrite (normalize_product_name_lower _ _ H). reflexivity.
Qed.

(** X2: The lexical scorer reads its two titles up to the case of their
    letters: titles that are equal once lowered have the same normal
    form and the same keywords, and replacing each title by such a
    variant changes neither [same_event] nor [confidence] nor
    [reasoning]. *)
Theorem lexical_score_ignores_case (product1 product1' product2 product2' : string) :
  lower (of_str product1) = lower (of_str product1') ->
  lower (of_str product2) = lower (of_str product2') ->
  normalize_product_name product1 = normalize_product_name product1' /\
  extract_keywords product1 = extract_keywords product1' /\
  same_event (calculate_similarity_rule_based product1 product2)
  = same_event (calculate_similarity_rule_based product1' product2') /\
  confidence (calculate_similarity_rule_based product1 product2)
  = confidence (calculate_similarity_rule_based product1' product2') /\
  reasoning (calculate_similarity_rule_based product1 product2)
  = reasoning (calculate_similarity_rule_based product1' product2').
Proof.
  intros H1 H2.
  split; [apply normalize_product_name_lower; exact H1 |].
  split; [apply extract_keywords_lower; exact H1 |].
  unfold calculate_similarity_rule_based, sequence.
  rewrite (extract_keywords_lower _ _ H1), (extract_keywords_lower _ _ H2), H1, H2.
  unfold verdict_of_scores. cbn [same_event confidence reasoning].
  repeat split.
Qed.

Lemma lexical_score_ignores_case_witness :
  normalize_product_name "Bitcoin above $100k" = normalize_product_name "BITCOIN ABOVE $100K" /\
  extract_keywords "Bitcoin above $100k" = extract_keywords "BITCOIN ABOVE $100K" /\
  same_event (calculate_similarity_rule_based "Bitcoin above $100k" "BTC over $100,000")
  = same_event (calculate_similarity_rule_based "BITCOIN ABOVE $100K" "btc OVER $100,000") /\
  confidence (calculate_similarity_rule_based "Bitcoin above $100k" "BTC over $100,000")
  = confidence (calculate_similarity_rule_based "BITCOIN ABOVE $100K" "btc OVER $100,000") /\
  reasoning (calculate_similarity_rule_based "Bitcoin above $100k" "BTC over $100,000")
  = reasoning (calculate_similarity_rule_based "BITCOIN ABOVE $100K" "btc OVER $100,000").
Proof.
  apply (lexical_score_ignores_case
           "Bitcoin above $100k" "BITCOIN ABOVE $100K"
           "BTC over $100,000" "btc OVER $100,000"); reflexivity.
Defined.

(** ** Keywords *)

Lemma add_In w x s : In x (add w s) <-> x = w \/ In x s.
Proof.
  unfold add. destruct (mem w s) eqn:E.
  - apply mem_In in E. split; [auto |]. intros [-> | H]; auto.
  - rewrite in_app_iff. simpl. split; [intros [H | [H | []]]; auto | intros [H | H]; auto].
Qed.

Lemma add_NoDup w s : NoDup s -> NoDup (add w s).
Proof.
  intro H. unfold add. destruct (mem w s) eqn:E; [exact H |].
  assert (Hn : ~ In w s) by (rewrite <- mem_In; congruence).
  apply NoDup_app; [exact H | repeat constructor; intros [] |].
  intros x Hx [<- | []]. contradiction.
Qed.

Lemma keywords_fold (keep : string -> bool) words : forall keywords,
  NoDup keywords ->
  let result :=
    fold_left
      (fun keywords word => if keep word then add word keywords else keywords)
      words keywords in
  NoDup result /\
  forall w, In w result <->
            In w keywords \/ (In w words /\ keep w = true).
Proof.
  induction words as [| word words IH]; intros keywords Hnd; cbn [fold_left].
  - split; [exact Hnd |]. intro w. cbn [In]. tauto.
  - destruct (keep word) eqn:E.
    + destruct (IH (add word keywords) (add_NoDup word keywords Hnd)) as [H1 H2].
      split; [exact H1 |]. intro w. rewrite H2, add_In. cbn [In].
      split.
      * intros [[-> | H] | (H & H')]; [right; tauto | left; exact H | right; tauto].
      * intros [H | ([<- | H] & H')]; [left; right; exact H | left; left; reflexivity | right; tauto].
    + destruct (IH keywords Hnd) as [H1 H2]. split; [exact H1 |].
      intro w. rewrite H2. cbn [In]. split; [tauto |].
      intros [H | ([<- | H] & H3)]; [tauto | congruence | tauto].
Qed.

(** X3: The keywords of a title are exactly the words of its normal form
    that are longer than two characters and are no stop words, each
    taken once. *)
Theorem extract_keywords_spec (text : string) :
  NoDup (extract_keywords text) /\
  forall w,
    In w (extract_keywords text) <->
    In w (map to_str (split (of_str (normalize_product_name text)))) /\
    2 < String.length w /\ mem w stop_words = false.
Proof.
  unfold extract_keywords.
  destruct (keywords_fold
              (fun word => (2 <? String.length word) && negb (mem word stop_words))
              (map to_str (split (of_str (normalize_product_name text)))) []
              (NoDup_nil _)) as [H1 H2].
  split; [exact H1 |]. intro w. rewrite (H2 w).
  rewrite andb_true_iff, Nat.ltb_lt, negb_true_iff. cbn [In]. tauto.
Qed.

(** ** Bounds of the scores *)

Section MatcherBounds.
Variables a b : chars.

(** The matches lie in the range of [b] as they lie in the range of
    [a]. *)
Lemma row_within_b i blo bhi old js :
  (forall j, difflib.j2len_get old j <= j + 1 - blo) ->
  forall new best new' best',
    (forall j, difflib.j2len_get new j <= j + 1 - blo) ->
    (let '(_, bj, bk) := best in blo <= bj /\ bj + bk <= bhi) ->
    difflib.row i blo bhi old js new best = (new', best') ->
    (forall j, difflib.j2len_get new' j <= j + 1 - blo) /\
    (let '(_, bj, bk) := best' in blo <= bj /\ bj + bk <= bhi).
Proof.
  intros Hold.
  induction js as [| j js IH]; intros new best new' best' Hnew Hbest E;
    cbn [difflib.row] in E.
  - inversion E; subst. auto.
  - destruct (j <? blo) eqn:E1; [eapply IH; eauto |].
    destruct (bhi <=? j) eqn:E2; [inversion E; subst; auto |].
    apply Nat.ltb_ge in E1. apply Nat.leb_gt in E2.
    destruct best as [[bi bj] bk].
    assert (Hk : difflib.before old j + 1 <= j + 1 - blo).
    { unfold difflib.before. destruct j as [| j']; [lia |]. specialize (Hold j'). lia. }
    eapply IH; [| | exact E].
    + intro j0. cbn [difflib.j2len_get]. destruct (j =? j0) eqn:Ej; [| apply Hnew].
      apply Nat.eqb_eq in Ej. subst j0. exact Hk.
    + destruct (bk <? difflib.before old j + 1); [| exact Hbest]. lia.
Qed.

Lemma rows_within_b blo bhi range :
  forall old best,
    (forall j, difflib.j2len_get old j <= j + 1 - blo) ->
    (let '(_, bj, bk) := best in blo <= bj /\ bj + bk <= bhi) ->
    let '(_, bj, bk) := difflib.rows a b range blo bhi old best in
    blo <= bj /\ bj + bk <= bhi.
Proof.
  induction range as [| i range IH]; intros old best Hold Hbest; cbn [difflib.rows].
  - destruct best as [[bi bj] bk]. exact Hbest.
  - destruct (difflib.row i blo bhi old _ [] best) as [new best'] eqn:E.
    apply (row_within_b i blo bhi old) in E; try assumption.
    + destruct E as [Hnew Hbest']. apply IH; assumption.
    + intro j. cbn. lia.
Qed.

Lemma extend_left_within_b alo blo bhi fuel :
  forall bi bj bk,
    blo <= bj /\ bj + bk <= bhi ->
    let '(_, j, k) := difflib.extend_left a b fuel alo blo (bi, bj, bk) in
    blo <= j /\ j + k <= bhi.
Proof.
  induction fuel as [| fuel IH]; intros bi bj bk H; cbn [difflib.extend_left].
  - exact H.
  - destruct ((alo <? bi) && (blo <? bj) && difflib.same_at a b (bi - 1) (bj - 1)) eqn:E;
      [| exact H].
    apply IH. rewrite !andb_true_iff in E. destruct E as [[_ E] _].
    apply Nat.ltb_lt in E. lia.
Qed.

Lemma extend_right_within_b ahi blo bhi fuel :
  forall bi bj bk,
    blo <= bj /\ bj + bk <= bhi ->
    let '(_, j, k) := difflib.extend_right a b fuel ahi bhi (bi, bj, bk) in
    blo <= j /\ j + k <= bhi.
Proof.
  induction fuel as [| fuel IH]; intros bi bj bk H; cbn [difflib.extend_right].
  - exact H.
  - destruct ((bi + bk <? ahi) && (bj + bk <? bhi)
              && difflib.same_at a b (bi + bk) (bj + bk)) eqn:E; [| exact H].
    apply IH. rewrite !andb_true_iff in E. destruct E as [[_ E] _].
    apply Nat.ltb_lt in E. lia.
Qed.

Lemma find_longest_match_within_b alo ahi blo bhi :
  blo <= bhi ->
  let '(_, j, k) := difflib.find_longest_match a b alo ahi blo bhi in
  blo <= j /\ j + k <= bhi.
Proof.
  intro H. unfold difflib.find_longest_match.
  assert (S := rows_within_b blo bhi (seq alo (ahi - alo)) [] (alo, blo, 0)).
  destruct (difflib.rows a b (seq alo (ahi - alo)) blo bhi [] (alo, blo, 0))
    as [[si sj] sk].
  assert (L := extend_left_within_b alo blo bhi si si sj sk).
  destruct (difflib.extend_left a b si alo blo (si, sj, sk)) as [[li lj] lk].
  apply extend_right_within_b. apply L. apply S.
  - intro j. cbn. lia.
  - lia.
Qed.

(** The sizes of the blocks add up to at most the length of either
    text. *)
Lemma sizes_app (l1 l2 : list difflib.match_triple) n :
  fold_left (fun n t => n + snd t) (l1 ++ l2) n =
  fold_left (fun n t => n + snd t) l2 (fold_left (fun n t => n + snd t) l1 n).
Proof. apply fold_left_app. Qed.

Lemma blocks_sizes :
  forall fuel queue found,
    Forall (fun q => let '(alo, ahi, blo, bhi) := q in alo <= ahi /\ blo <= bhi) queue ->
    let total := fold_left (fun n t => n + snd t)
                           (difflib.blocks a b fuel queue found) 0 in
    let sofar := fold_left (fun n t => n + snd t) found 0 in
    total <= sofar + fold_right (fun q n => let '(alo, ahi, _, _) := q in ahi - alo + n) 0 queue /\
    total <= sofar + fold_right (fun q n => let '(_, _, blo, bhi) := q in bhi - blo + n) 0 queue.
Proof.
  induction fuel as [| fuel IH]; intros queue found Hq; cbn zeta.
  - cbn [difflib.blocks]. lia.
  - destruct queue as [| [[[alo ahi] blo] bhi] queue]; [cbn; lia |].
    cbn [difflib.blocks fold_right].
    inversion Hq as [| ? ? Hh Hq']; subst. cbn beta iota in Hh. destruct Hh as [Ha Hb].
    assert (Wa := find_longest_match_within a b alo ahi blo bhi Ha).
    assert (Wb := find_longest_match_within_b alo ahi blo bhi Hb).
    destruct (difflib.find_longest_match a b alo ahi blo bhi) as [[i j] k].
    unfold difflib.within in Wa.
    destruct (k =? 0) eqn:Ek.
    + specialize (IH queue found Hq'). cbn zeta in IH. lia.
    + match goal with
      | |- context [difflib.blocks a b fuel ?q2 ?f] =>
          assert (Hq2 : Forall (fun r => let '(alo, ahi, blo, bhi) := r in
                                         alo <= ahi /\ blo <= bhi) q2);
          [| specialize (IH q2 f Hq2); cbn zeta in IH]
      end.
      { destruct ((alo <? i) && (blo <? j)) eqn:E1;
          destruct ((i + k <? ahi) && (j + k <? bhi)) eqn:E2;
          rewrite ?andb_true_iff, ?Nat.ltb_lt in *;
          repeat constructor; auto; lia. }
      rewrite sizes_app in IH. cbn [fold_left snd] in IH.
      destruct ((alo <? i) && (blo <? j)) eqn:E1;
        destruct ((i + k <? ahi) && (j + k <? bhi)) eqn:E2;
        rewrite ?andb_true_iff, ?Nat.ltb_lt in *;
        cbn [fold_right] in IH; lia.
Qed.

Lemma matches_le :
  difflib.matches a b <= List.length a /\ difflib.matches a b <= List.length b.
Proof.
  unfold difflib.matches.
  assert (H := blocks_sizes (2 * List.length a + 1)
                            [(0, List.length a, 0, List.length b)] []).
  cbn zeta in H. cbn [fold_right fold_left] in H.
  assert (Hq : Forall (fun q => let '(alo, ahi, blo, bhi) := q in
                                alo <= ahi /\ blo <= bhi)
                      [(0, List.length a, 0, List.length b)])
    by (repeat constructor; lia).
  specialize (H Hq). lia.
Qed.

Lemma ratio_bounds : (0 <= difflib.ratio a b <= 1)%Q.
Proof.
  unfold difflib.ratio. destruct matches_le as [Ha Hb].
  destruct (List.length a + List.length b =? 0) eqn:E; [split; discriminate |].
  apply Nat.eqb_neq in E. unfold Qle. cbn [Qnum Qden].
  rewrite !Z.mul_1_r, Z.mul_1_l.
  rewrite <- positive_nat_Z, Nat2Pos.id by exact E. lia.
Qed.

End MatcherBounds.

Lemma intersection_length K1 K2 : List.length (intersection K1 K2) <= List.length K1.
Proof. unfold intersection. apply filter_length_le. Qed.

Lemma add_length w s : List.length s <= List.length (add w s).
Proof. unfold add. destruct (mem w s); [lia | rewrite length_app; lia]. Qed.

Lemma union_length K2 : forall K1, List.length K1 <= List.length (union K1 K2).
Proof.
  unfold union. induction K2 as [| w K2 IH]; intro K1; cbn [fold_left]; [lia |].
  eapply Nat.le_trans; [apply (add_length w) | apply IH].
Qed.

Lemma jaccard_bounds K1 K2 : (0 <= jaccard K1 K2 <= 1)%Q.
Proof.
  unfold jaccard.
  assert (H := intersection_length K1 K2). assert (H' := union_length K2 K1).
  destruct (union K1 K2) as [| u us] eqn:E; [split; discriminate |].
  unfold Qle. cbn [Qnum Qden]. rewrite !Z.mul_1_r, Z.mul_1_l.
  rewrite <- positive_nat_Z, Nat2Pos.id by discriminate. lia.
Qed.

Lemma round_half_even_ge (n : Z) x : (inject_Z n <= x)%Q -> (n <= round_half_even x)%Z.
Proof.
  intro H. unfold round_half_even.
  assert (Hf : (n <= Qfloor x)%Z).
  { rewrite <- (Qfloor_Z n). apply Qfloor_resp_le. exact H. }
  destruct (x - inject_Z (Qfloor x) ?= 1 # 2)%Q; [destruct (Z.even (Qfloor x)) | |]; lia.
Qed.

Lemma round_half_even_le (n : Z) x : (x <= inject_Z n)%Q -> (round_half_even x <= n)%Z.
Proof.
  intro H. unfold round_half_even.
  assert (Hf : (Qfloor x <= n)%Z).
  { rewrite <- (Qfloor_Z n). apply Qfloor_resp_le. exact H. }
  destruct (Z.eq_dec (Qfloor x) n) as [E | E].
  - assert (Hx : (x == inject_Z n)%Q).
    { apply Qle_antisym; [exact H |]. rewrite <- E. apply Qfloor_le. }
    assert (Hr : (x - inject_Z (Qfloor x) == 0)%Q) by (rewrite E, Hx; ring).
    rewrite (Qcompare_comp _ _ Hr (1#2)%Q (1#2)%Q (Qeq_refl _)). cbn. lia.
  - destruct (x - inject_Z (Qfloor x) ?= 1 # 2)%Q; [destruct (Z.even (Qfloor x)) | |]; lia.
Qed.

Lemma round_half_even_Z (n : Z) : round_half_even (inject_Z n) = n.
Proof.
  apply Z.le_antisymm;
    [apply round_half_even_le | apply round_half_even_ge]; apply Qle_refl.
Qed.

Lemma round3_ge (n : Z) x : (n # 1000 <= x)%Q -> (n # 1000 <= Py.round x 3)%Q.
Proof.
  intro H. unfold Py.round.
  change (Z.to_pos (10 ^ Z.of_nat 3)) with 1000%positive.
  change (10 ^ Z.of_nat 3)%Z with 1000%Z.
  unfold Qle. cbn [Qnum Qden]. apply Z.mul_le_mono_nonneg_r; [lia |].
  apply round_half_even_ge.
  unfold Qle in *. cbn [Qnum Qden inject_Z Qmult] in *. lia.
Qed.

Lemma round3_le (n : Z) x : (x <= n # 1000)%Q -> (Py.round x 3 <= n # 1000)%Q.
Proof.
  intro H. unfold Py.round.
  change (Z.to_pos (10 ^ Z.of_nat 3)) with 1000%positive.
  change (10 ^ Z.of_nat 3)%Z with 1000%Z.
  unfold Qle. cbn [Qnum Qden]. apply Z.mul_le_mono_nonneg_r; [lia |].
  apply round_half_even_le.
  unfold Qle in *. cbn [Qnum Qden inject_Z Qmult] in *. lia.
Qed.

Lemma round3_fixed x : (Py.round (Py.round x 3) 3 == Py.round x 3)%Q.
Proof.
  unfold Py.round at 1.
  change (Z.to_pos (10 ^ Z.of_nat 3)) with 1000%positive.
  change (10 ^ Z.of_nat 3)%Z with 1000%Z.
  set (z := round_half_even (x * inject_Z 1000)).
  assert (E : (Py.round x 3 * inject_Z 1000 == inject_Z z)%Q).
  { unfold Py.round.
    change (Z.to_pos (10 ^ Z.of_nat 3)) with 1000%positive.
    change (10 ^ Z.of_nat 3)%Z with 1000%Z. fold z.
    unfold Qeq. cbn [Qnum Qden inject_Z Qmult]. lia. }
  rewrite (round_half_even_comp _ _ E), round_half_even_Z.
  unfold Py.round.
  change (Z.to_pos (10 ^ Z.of_nat 3)) with 1000%positive.
  change (10 ^ Z.of_nat 3)%Z with 1000%Z. fold z. reflexivity.
Qed.

(** X4: The lexical scorer stays within its scale: the two sub-scores and
    the combined score lie between 0 and 1, the confidence lies between
    0 and 1 and has at most three decimals, and it is at least 0.65 when
    [same_event] holds and at most 0.65 when it does not. *)
Theorem lexical_verdict_bounds (product1 product2 : string) :
  let v := calculate_similarity_rule_based product1 product2 in
  (0 <= jaccard (extract_keywords product1) (extract_keywords product2) <= 1)%Q /\
  (0 <= sequence product1 product2 <= 1)%Q /\
  (0 <= combined_similarity product1 product2 <= 1)%Q /\
  (0 <= confidence v <= 1)%Q /\
  (Py.round (confidence v) 3 == confidence v)%Q /\
  (same_event v = true -> (65 # 100 <= confidence v)%Q) /\
  (same_event v = false -> (confidence v <= 65 # 100)%Q).
Proof.
  cbv zeta. unfold calculate_similarity_rule_based, combined_similarity.
  assert (Hj := jaccard_bounds (extract_keywords product1) (extract_keywords product2)).
  assert (Hs : (0 <= sequence product1 product2 <= 1)%Q) by apply ratio_bounds.
  set (j := jaccard _ _) in *. set (s := sequence _ _) in *.
  assert (Hc : (0 <= combine_scores j s <= 1)%Q).
  { unfold combine_scores. lra. }
  unfold verdict_of_scores. cbn [same_event confidence].
  set (c := combine_scores j s) in *.
  split; [exact Hj |]. split; [exact Hs |]. split; [exact Hc |].
  split; [| split; [apply round3_fixed |]].
  - split.
    + assert (E : (0 == 0 # 1000)%Q) by reflexivity. rewrite E.
      apply round3_ge. rewrite <- E. apply Hc.
    + assert (E : (1 == 1000 # 1000)%Q) by reflexivity. rewrite E.
      apply round3_le. rewrite <- E. apply Hc.
  - assert (E : (65 # 100 == 650 # 1000)%Q) by reflexivity. split; intro H.
    + apply Qltb_lt in H. unfold threshold in H. rewrite E.
      apply round3_ge. rewrite <- E. apply Qlt_le_weak. exact H.
    + apply Qltb_ge in H. unfold threshold in H. rewrite E.
      apply round3_le. rewrite <- E. exact H.
Qed.

(** ** The reply of the service *)

Lemma from_first_brace_skip pre s :
  Forall (fun c => code c <> 123) pre ->
  re.from_first_brace (pre ++ s) = re.from_first_brace s.
Proof.
  induction 1 as [| c pre Hc _ IH]; cbn [app re.from_first_brace]; [reflexivity |].
  apply Nat.eqb_neq in Hc. rewrite Hc. exact IH.
Qed.

Lemma upto_last_brace_none post :
  Forall (fun c => code c <> 125) post -> re.upto_last_brace post = None.
Proof.
  induction 1 as [| c post Hc _ IH]; cbn [re.upto_last_brace]; [reflexivity |].
  rewrite IH. apply Nat.eqb_neq in Hc. rewrite Hc. reflexivity.
Qed.

Lemma upto_last_brace_last body post :
  Forall (fun c => code c <> 125) post ->
  re.upto_last_brace (body ++ "}"%char :: post) = Some (body ++ ["}"%char]).
Proof.
  intro H. induction body as [| c body IH]; cbn [app re.upto_last_brace].
  - rewrite (upto_last_brace_none post H). reflexivity.
  - rewrite IH. reflexivity.
Qed.

(** The search for the object in a reply: the text from the first
    opening brace to the last closing brace. *)
Lemma search_braces_surrounded pre body post :
  Forall (fun c => code c <> 123) pre ->
  Forall (fun c => code c <> 125) post ->
  re.search_braces (pre ++ "{"%char :: body ++ "}"%char :: post)
  = Some ("{"%char :: body ++ ["}"%char]).
Proof.
  intros Hpre Hpost. unfold re.search_braces.
  rewrite (from_first_brace_skip pre _ Hpre). cbn [re.from_first_brace].
  change (code "{" =? 123) with true. cbn iota.
  rewrite (upto_last_brace_last body post Hpost). reflexivity.
Qed.

Section Reply.
Variable World : Type.
Variable KEY : option string.
Variable completion : string -> string -> M World string.
Variable json_loads : string -> Result Answer.

(** X5: With a credential, a reply of the service that holds an object
    between its first opening and its last closing brace, whatever text
    surrounds it, is decoded from exactly that object, and the decoded
    dictionary is returned as it is: no key and no value is checked. *)
Theorem semantic_scorer_returns_decoded_object
        (product1 product2 content : string) (pre body post : chars)
        (r : Answer) (w w' : World) :
  truthy KEY = true ->
  completion product1 product2 w = (Ok content, w') ->
  strip (of_str content) = pre ++ "{"%char :: body ++ "}"%char :: post ->
  Forall (fun c => code c <> 123) pre ->
  Forall (fun c => code c <> 125) post ->
  json_loads (to_str ("{"%char :: body ++ ["}"%char])) = Ok r ->
  calculate_similarity_llm KEY completion json_loads product1 product2 w = (Ok r, w').
Proof.
  intros Hk Hc Hs Hpre Hpost Hj.
  unfold calculate_similarity_llm, try_except, llm_try. rewrite Hk. cbn [negb].
  unfold bind. rewrite Hc. rewrite Hs.
  rewrite (search_braces_surrounded pre body post Hpre Hpost).
  unfold lift. rewrite Hj. reflexivity.
Qed.

End Reply.

Lemma semantic_scorer_returns_decoded_object_witness :
  calculate_similarity_llm
    (Some "key"%string)
    (always "Here is the verdict: {'same_event': true} Thanks.  ")
    (fun text =>
       if String.eqb text "{'same_event': true}"
       then Ok {| a_same_event := Some true; a_confidence := None;
                  a_unified_name := None; a_reasoning := None |}
       else Raise ValueError)
    "Bitcoin above $100k" "BTC over $100,000" tt
  = (Ok {| a_same_event := Some true; a_confidence := None;
           a_unified_name := None; a_reasoning := None |}, tt).
Proof.
  apply (semantic_scorer_returns_decoded_object
           unit (Some "key"%string) _ _
           "Bitcoin above $100k" "BTC over $100,000"
           "Here is the verdict: {'same_event': true} Thanks.  "
           (of_str "Here is the verdict: ") (of_str "'same_event': true")
           (of_str " Thanks.")).
  - reflexivity.
  - reflexivity.
  - reflexivity.
  - repeat constructor; discriminate.
  - repeat constructor; discriminate.
  - reflexivity.
Defined.

Section Trust.
Variable World : Type.
Variable KEY : option string.
Variable completion : string -> string -> M World string.
Variable json_loads : string -> Result Answer.

Abbreviation matcher := (match_products KEY completion json_loads).

Lemma first_comparison_raises (l1 l2 : Listing) (rest : list Listing)
      (t1 t2 : string) (r : Answer) (k : string) (w w1 : World) :
  product l1 = Some t1 -> product l2 = Some t2 ->
  calculate_similarity_llm KEY completion json_loads t1 t2 w = (Ok r, w1) ->
  (accepted r = Raise (KeyError k) \/
   (accepted r = Ok true /\
    Eff.bind (World := World) (item "unified_name" (a_unified_name r))
             (fun _ => item "confidence" (a_confidence r)) w1
    = (Raise (KeyError k), w1))) ->
  matcher (l1 :: l2 :: rest) w = (Raise (KeyError k), w1).
Proof.
  intros H1 H2 Hr Ha.
  unfold match_products, outer_body, outer_turn, form_group.
  cbn [enumerate for_each processed existsb skipn Nat.add].
  unfold inner_body. cbn [processed existsb].
  unfold bind, item, lift in *. rewrite H1, H2. unfold ret. cbv beta iota zeta.
  rewrite Hr. cbv beta iota zeta.
  destruct Ha as [Ha | [Ha Hb]]; rewrite Ha; cbv beta iota; [reflexivity |].
  destruct (a_unified_name r) as [name |]; unfold raise, ret in *; cbv beta iota in *;
    [| inversion Hb; subst; reflexivity].
  destruct (a_confidence r) as [c |]; cbv beta iota in *;
    [discriminate Hb | inversion Hb; subst; reflexivity].
Qed.

(** X6: The engine indexes the dictionary of the scorer without checking
    it: when the first comparison of a batch gets an answer without the
    key [same_event], or one that says same event without the key
    [confidence], or one that passes the test without the key
    [unified_name], the engine ends with the [KeyError] of that key. *)
Theorem match_products_trusts_the_answer
        (l1 l2 : Listing) (rest : list Listing) (t1 t2 : string)
        (r : Answer) (w w1 : World) :
  product l1 = Some t1 -> product l2 = Some t2 ->
  calculate_similarity_llm KEY completion json_loads t1 t2 w = (Ok r, w1) ->
  (a_same_event r = None ->
   matcher (l1 :: l2 :: rest) w = (Raise (KeyError "same_event"), w1)) /\
  (a_same_event r = Some true -> a_confidence r = None ->
   matcher (l1 :: l2 :: rest) w = (Raise (KeyError "confidence"), w1)) /\
  (forall c, a_same_event r = Some true -> a_confidence r = Some c ->
             (65 # 100 < c)%Q -> a_unified_name r = None ->
             matcher (l1 :: l2 :: rest) w = (Raise (KeyError "unified_name"), w1)).
Proof.
  intros H1 H2 Hr. split; [| split].
  - intro Hs. apply (first_comparison_raises l1 l2 rest t1 t2 r _ w w1 H1 H2 Hr).
    left. unfold accepted. rewrite Hs. reflexivity.
  - intros Hs Hc. apply (first_comparison_raises l1 l2 rest t1 t2 r _ w w1 H1 H2 Hr).
    left. unfold accepted. rewrite Hs, Hc. reflexivity.
  - intros c Hs Hc Hlt Hn.
    apply (first_comparison_raises l1 l2 rest t1 t2 r _ w w1 H1 H2 Hr).
    right. split.
    + unfold accepted. rewrite Hs, Hc. apply Qltb_lt in Hlt.
      unfold threshold. rewrite Hlt. reflexivity.
    + unfold bind, item. rewrite Hn. reflexivity.
Qed.

End Trust.

Lemma match_products_trusts_the_answer_witness :
  let r := {| a_same_event := None; a_confidence := Some (9 # 10)%Q;
              a_unified_name := Some "U"%string; a_reasoning := None |} in
  (a_same_event r = None ->
   match_products (Some "key"%string) (always "{}") (decoded r) sample_batch tt
   = (Raise (KeyError "same_event"), tt)) /\
  (a_same_event r = Some true -> a_confidence r = None ->
   match_products (Some "key"%string) (always "{}") (decoded r) sample_batch tt
   = (Raise (KeyError "confidence"), tt)) /\
  (forall c, a_same_event r = Some true -> a_confidence r = Some c ->
             (65 # 100 < c)%Q -> a_unified_name r = None ->
             match_products (Some "key"%string) (always "{}") (decoded r) sample_batch tt
             = (Raise (KeyError "unified_name"), tt)).
Proof.
  apply (match_products_trusts_the_answer
           unit (Some "key"%string) (always "{}")
           (decoded {| a_same_event := None; a_confidence := Some (9 # 10)%Q;
                       a_unified_name := Some "U"%string; a_reasoning := None |})
           _ _ [] "Will Trump win 2024 presidential election?"
           "Trump elected president 2024?"); reflexivity.
Defined.

(** ** The groups of the returned mapping *)

Lemma set_keys_In {V} (d : dict V) k v k' :
  In k' (keys (set d k v)) <-> k' = k \/ In k' (keys d).
Proof.
  induction d as [| [k0 v0] d IH]; cbn [set keys map fst In].
  - intuition.
  - destruct (String.eqb k0 k) eqn:E; cbn [keys map fst In].
    + apply String.eqb_eq in E. subst. intuition.
    + fold (keys (set d k v)). fold (keys d). rewrite IH. intuition.
Qed.

Lemma set_keys_NoDup {V} (d : dict V) k v : NoDup (keys d) -> NoDup (keys (set d k v)).
Proof.
  induction d as [| [k0 v0] d IH]; cbn [set keys map fst]; intro H.
  - repeat constructor. intros [].
  - inversion H as [| ? ? Hn Hd]; subst.
    destruct (String.eqb k0 k) eqn:E; cbn [keys map fst].
    + constructor; assumption.
    + constructor.
      * fold (keys (set d k v)). rewrite set_keys_In. intros [-> | Hin].
        -- rewrite String.eqb_refl in E. discriminate.
        -- contradiction.
      * apply IH. exact Hd.
Qed.

Lemma set_Forall {V} (P : string * V -> Prop) (d : dict V) k v :
  (forall k', P (k', v)) -> Forall P d -> Forall P (set d k v).
Proof.
  intros Hv. induction 1 as [| [k0 v0] d H0 Hd IH]; cbn [set].
  - repeat constructor. apply Hv.
  - destruct (String.eqb k0 k); constructor; auto.
Qed.

Section Groups.
Variable World : Type.
Variable KEY : option string.
Variable completion : string -> string -> M World string.
Variable json_loads : string -> Result Answer.

Lemma add_platform_shape pl l w pl' w' :
  add_platform (World := World) pl l w = (Ok pl', w') ->
  Forall (fun sp => snd sp <> []) pl -> NoDup (keys pl) ->
  Forall (fun sp => snd sp <> []) pl' /\ NoDup (keys pl').
Proof.
  unfold add_platform, bind, item.
  destruct (site l) as [s |]; cbn; [| discriminate].
  destruct (product l) as [t |]; cbn; [| discriminate].
  destruct (price l) as [pr |]; cbn; [| discriminate].
  intros E Hne Hnd. inversion E; subst. clear E.
  assert (Hp : forall (ps : list Payload) p (k' : string),
             snd (k', (ps ++ [p])%list) <> []).
  { intros ps p k'. cbn. destruct ps; discriminate. }
  destruct (get pl s) as [ps |] eqn:G.
  - split; [apply set_Forall; [apply Hp | exact Hne] | apply set_keys_NoDup; exact Hnd].
  - rewrite set_set. split; [apply set_Forall; [apply Hp | exact Hne] |].
    apply set_keys_NoDup; exact Hnd.
Qed.

Lemma add_platforms_shape ls : forall pl w pl' w',
  for_each ls (add_platform (World := World)) pl w = (Ok pl', w') ->
  Forall (fun sp => snd sp <> []) pl -> NoDup (keys pl) ->
  Forall (fun sp => snd sp <> []) pl' /\ NoDup (keys pl') /\
  List.length (platform_items pl') = List.length (platform_items pl) + List.length ls.
Proof.
  induction ls as [| l ls IH]; intros pl w pl' w' E Hne Hnd; cbn [for_each] in E.
  - inversion E; subst. cbn. repeat split; auto.
  - unfold bind in E.
    assert (S := add_platform_spec World [l] pl l w (or_introl eq_refl)).
    destruct (add_platform (World := World) pl l w) as [[pl1 | e] w1] eqn:E1;
      [| discriminate].
    destruct S as (_ & _ & Hperm).
    destruct (add_platform_shape pl l w pl1 w1 E1 Hne Hnd) as [Hne1 Hnd1].
    destruct (IH pl1 w1 pl' w' E Hne1 Hnd1) as (H1 & H2 & H3).
    repeat split; auto. rewrite H3, (Permutation_length Hperm). cbn. lia.
Qed.

Abbreviation inner := (inner_body KEY completion json_loads).
Abbreviation confidences := (accepted_confidences KEY completion json_loads).

(** What the inner loop leaves of the group it started from. *)
Lemma inner_loop_accepted entry1 js :
  forall g P mc w,
    match for_each js (inner entry1) (g, P, mc) w with
    | (Ok (g', _, _), _) =>
        let cs := confidences entry1 js P w in
        Forall (fun c => (65 # 100 < c)%Q) cs /\
        (cs = [] -> g' = g)
    | (Raise _, _) => True
    end.
Proof.
  induction js as [| [j e2] js IH]; intros g P mc w;
    cbn [for_each accepted_confidences].
  - cbn. split; [constructor | reflexivity].
  - unfold bind. unfold inner_body at 1.
    destruct (processed j P) eqn:Ep.
    + apply IH.
    + unfold bind, item.
      destruct (product entry1) as [t1 |]; cbn; [| exact I].
      destruct (product e2) as [t2 |]; cbn; [| exact I].
      destruct (llm_total World KEY completion json_loads t1 t2 w) as (r & w' & ->).
      unfold lift, accepted.
      destruct (a_same_event r) as [[|] |]; cbn; [| apply IH | exact I].
      destruct (a_confidence r) as [c |]; cbn; [| exact I].
      destruct (Qltb threshold c) eqn:Ec; cbn; [| apply IH].
      destruct (a_unified_name r) as [name |]; cbn; [| exact I].
      match goal with
      | |- context [for_each js (inner entry1) (?g1, ?P1, ?m1) w'] =>
          specialize (IH g1 P1 m1 w');
          destruct (for_each js (inner entry1) (g1, P1, m1) w')
            as [[[[g' P'] mc'] | e] w'']; [| exact I]
      end.
      cbn zeta in IH. destruct IH as [IH1 _]. split; [| discriminate].
      constructor; [| exact IH1]. apply Qltb_lt in Ec. exact Ec.
Qed.

Lemma min_list_bounds (cs : list Q) :
  Forall (fun c => (65 # 100 < c)%Q) cs ->
  (65 # 100 < min_list 1%Q cs <= 1)%Q.
Proof.
  intro H. split; [| apply min_list_le].
  destruct (min_list_In 1%Q cs) as [-> | Hin]; [reflexivity |].
  rewrite Forall_forall in H. apply H. exact Hin.
Qed.

Abbreviation form := (form_group KEY completion json_loads).

Lemma form_group_shape raw i entry1 P mc w key entry P' mc' w' :
  form raw i entry1 P mc w = (Ok (key, entry, P', mc'), w') ->
  1 <= product_count entry /\
  product_count entry = List.length (platform_items (platforms entry)) /\
  Forall (fun sp => snd sp <> []) (platforms entry) /\
  NoDup (keys (platforms entry)) /\
  (65 # 100 <= u_confidence entry <= 1)%Q /\
  (product_count entry = 1 ->
   (u_confidence entry == 1)%Q /\
   u_match_reasoning entry = "Primary product"%string /\
   product entry1 = Some key).
Proof.
  unfold form_group, bind, item.
  destruct (product entry1) as [title |]; cbn; [| discriminate].
  fold (later raw i).
  assert (T := inner_loop_trace World KEY completion json_loads entry1 (later raw i)
                                (seed_group title entry1) P mc w).
  assert (A := inner_loop_accepted entry1 (later raw i) (seed_group title entry1) P mc w).
  destruct (for_each (later raw i) (inner entry1) (seed_group title entry1, P, mc) w)
    as [[[[g P1] mc1] | e] w1]; [| discriminate].
  destruct (for_each (g_products g) (add_platform (World := World)) [] w1)
    as [[pl | e] w2] eqn:Ea; [| discriminate].
  intro E. inversion E; subst. clear E.
  cbn zeta in T, A. destruct T as [T1 T2]. destruct A as [A1 A2].
  cbn [seed_group g_confidence g_products List.length] in T1, T2.
  destruct (add_platforms_shape (g_products g) [] w1 pl w' Ea (Forall_nil _) (NoDup_nil _))
    as (S1 & S2 & S3).
  cbn in S3.
  destruct (min_list_bounds _ A1) as [B1 B2].
  assert (E65 : (65 # 100 == 650 # 1000)%Q) by reflexivity.
  assert (E1 : (1 == 1000 # 1000)%Q) by reflexivity.
  assert (Hcs : product_count (finalize g pl) = 1 ->
                confidences entry1 (later raw i) P w = []).
  { cbn [finalize product_count]. intro H1. apply length_zero_iff_nil. lia. }
  cbn [finalize product_count platforms u_confidence u_match_reasoning] in *.
  split; [lia |]. split; [lia |]. split; [exact S1 |]. split; [exact S2 |].
  split; [split |].
  - rewrite T1. apply Qle_trans with (650 # 1000)%Q; [discriminate |].
    apply round3_ge. apply Qle_trans with (65 # 100)%Q; [discriminate |].
    apply Qlt_le_weak. exact B1.
  - rewrite T1. apply Qle_trans with (1000 # 1000)%Q; [| discriminate].
    apply round3_le. apply Qle_trans with 1%Q; [exact B2 | discriminate].
  - intro H1. specialize (Hcs H1).
    split; [rewrite T1, Hcs; reflexivity | rewrite (A2 Hcs); split; reflexivity].
Qed.

Abbreviation matcher := (match_products KEY completion json_loads).

(** X7: Every group of the returned mapping has at least one member, as
    many members as payloads under its platforms, no platform without a
    payload and no platform twice; its confidence lies between 0.65 and
    1; a group of one member has confidence 1, the reasoning "Primary
    product" and the title of its only member as its name. *)
Theorem unified_entry_invariants (raw : list Listing) (w w' : World)
        (d : dict UnifiedEntry) (key : string) (entry : UnifiedEntry) :
  matcher raw w = (Ok d, w') -> In (key, entry) d ->
  1 <= product_count entry /\
  product_count entry = List.length (platform_items (platforms entry)) /\
  Forall (fun sp => snd sp <> []) (platforms entry) /\
  NoDup (keys (platforms entry)) /\
  (65 # 100 <= u_confidence entry <= 1)%Q /\
  (product_count entry = 1 ->
   (u_confidence entry == 1)%Q /\
   u_match_reasoning entry = "Primary product"%string /\
   exists l, In l raw /\ product l = Some key).
Proof.
  intros H Hin.
  destruct (match_products_entries World KEY completion json_loads raw w d w' key entry H Hin)
    as (i & entry1 & P & mc & w0 & P' & mc' & w1 & Hnth & Hf).
  destruct (form_group_shape raw i entry1 P mc w0 key entry P' mc' w1 Hf)
    as (H1 & H2 & H3 & H4 & H5 & H6).
  split; [exact H1 |]. split; [exact H2 |]. split; [exact H3 |].
  split; [exact H4 |]. split; [exact H5 |].
  intro Hc. destruct (H6 Hc) as (H7 & H8 & H9).
  split; [exact H7 |]. split; [exact H8 |].
  exists entry1. split; [eapply nth_error_In; eauto | exact H9].
Qed.

End Groups.

Lemma unified_entry_invariants_witness :
  1 <= product_count sample_entry /\
  product_count sample_entry = List.length (platform_items (platforms sample_entry)) /\
  Forall (fun sp => snd sp <> []) (platforms sample_entry) /\
  NoDup (keys (platforms sample_entry)) /\
  (65 # 100 <= u_confidence sample_entry <= 1)%Q /\
  (product_count sample_entry = 1 ->
   (u_confidence sample_entry == 1)%Q /\
   u_match_reasoning sample_entry = "Primary product"%string /\
   exists l, In l sample_batch /\ product l = Some "Trump elected president 2024?"%string).
Proof.
  apply (unified_entry_invariants unit None offline undecodable sample_batch tt tt
                                  sample_mapping "Trump elected president 2024?"%string
                                  sample_entry).
  - vm_compute. reflexivity.
  - left. reflexivity.
Defined.

(** ** The size of the returned mapping *)

Lemma dict_of_log_NoDup log : NoDup (keys (dict_of_log log)).
Proof.
  induction log as [| [k e] log IH] using rev_ind.
  - constructor.
  - rewrite dict_of_log_app. apply set_keys_NoDup. exact IH.
Qed.

Lemma set_not_nil {V} (d : dict V) k v : set d k v <> [].
Proof. destruct d as [| [k0 v0] d]; cbn [set]; [| destruct (String.eqb k0 k)]; discriminate. Qed.

Lemma dict_of_log_length log :
  List.length (dict_of_log log) <= List.length log /\
  (log <> [] -> dict_of_log log <> []).
Proof.
  split.
  - destruct (dict_of_log_keeps log) as (lost & H).
    rewrite (Permutation_length H), length_app. lia.
  - destruct log as [| x log] using rev_ind; [congruence |].
    intros _. destruct x as [k e]. rewrite dict_of_log_app. apply set_not_nil.
Qed.

Section Size.
Variable World : Type.
Variable KEY : option string.
Variable completion : string -> string -> M World string.
Variable json_loads : string -> Result Answer.

Abbreviation matcher := (match_products KEY completion json_loads).
Abbreviation outer_log := (outer_turn KEY completion json_loads log_group).

(** Every turn of the outer loop forms at most one group, and the first
    turn forms one. *)
Lemma outer_loop_count raw w :
  match for_each (enumerate raw 0) (outer_log raw) ([], [], 0) w with
  | (Ok (log, _, _), _) =>
      List.length log <= List.length raw /\ (raw <> [] -> log <> [])
  | (Raise _, _) => True
  end.
Proof.
  assert (S := for_each_spec
                 (outer_log raw)
                 (fun done (st : list (string * UnifiedEntry) * list nat * nat) =>
                    let '(log, P, _) := st in
                    List.length log <= List.length done /\
                    (done = [] -> P = []) /\ (done <> [] -> log <> []))
                 (fun _ => True)
                 (enumerate raw 0) [] ([], [], 0) w).
  cbn [app] in S.
  destruct (for_each (enumerate raw 0) (outer_log raw) ([], [], 0) w)
    as [[[[log P] mc] | e] w1]; [| exact I].
  rewrite enumerate_length in S.
  assert (H : List.length log <= List.length raw /\
              (enumerate raw 0 = [] -> P = []) /\ (enumerate raw 0 <> [] -> log <> [])).
  { apply S.
    - cbn. repeat split; auto; congruence.
    - clear. intros done' [i entry1] rest [[log P] mc] w Heq (H1 & H2 & H3).
      unfold outer_turn.
      destruct (processed i P) eqn:Ep.
      + rewrite length_app. cbn. split; [lia |].
        split; [intro H; destruct done'; discriminate |].
        intros _. apply H3. intro Hd. rewrite (H2 Hd) in Ep. discriminate.
      + unfold bind.
        destruct (form_group KEY completion json_loads raw i entry1 P mc w)
          as [[[[[key entry] P'] mc'] | e] w1]; [| exact I].
        cbn. unfold log_group. rewrite !length_app. cbn. split; [lia |].
        split; [intro H; destruct done'; discriminate |].
        intros _. destruct log; discriminate. }
  destruct H as (H1 & _ & H3). split; [exact H1 |].
  intro Hr. apply H3. destruct raw; [congruence | discriminate].
Qed.

(** X8: The returned mapping has no name twice, at most as many groups as
    the batch has listings, and at least one group when the batch has a
    listing. *)
Theorem match_products_size (raw : list Listing) (w w' : World)
        (d : dict UnifiedEntry) :
  matcher raw w = (Ok d, w') ->
  NoDup (keys d) /\
  List.length d <= List.length raw /\
  (raw <> [] -> d <> []).
Proof.
  rewrite (match_products_log World KEY completion json_loads raw w).
  unfold groups_formed, bind.
  assert (C := outer_loop_count raw w).
  destruct (for_each (enumerate raw 0) (outer_log raw) ([], [], 0) w)
    as [[[[log P] mc] | e] w1]; [| discriminate].
  cbn. intro E. inversion E; subst. clear E.
  destruct C as [C1 C2]. destruct (dict_of_log_length log) as [L1 L2].
  split; [apply dict_of_log_NoDup |]. split; [lia |].
  intro Hr. apply L2. apply C2. exact Hr.
Qed.

(** ** The names of the groups under the lexical scorer *)

Hypothesis no_credential : truthy KEY = false.

Abbreviation inner := (inner_body KEY completion json_loads).

Lemma lexical_name_cases p1 p2 :
  unified_name (calculate_similarity_rule_based p1 p2) = p1 \/
  unified_name (calculate_similarity_rule_based p1 p2) = p2.
Proof.
  unfold calculate_similarity_rule_based, verdict_of_scores. cbn [unified_name].
  destruct (String.length p1 <=? String.length p2); auto.
Qed.

Lemma inner_loop_names entry1 js :
  forall g P mc w g' P' mc' w',
    In entry1 (g_products g) ->
    In (Some (g_unified_name g)) (map product (g_products g)) ->
    for_each js (inner entry1) (g, P, mc) w = (Ok (g', P', mc'), w') ->
    In (Some (g_unified_name g')) (map product (g_products g')).
Proof.
  induction js as [| [j e2] js IH]; intros g P mc w g' P' mc' w' Ha Hn E;
    cbn [for_each] in E.
  - inversion E; subst. exact Hn.
  - unfold bind in E. unfold inner_body at 1 in E.
    destruct (processed j P); [exact (IH g P mc w g' P' mc' w' Ha Hn E) |].
    unfold bind, item in E.
    destruct (product entry1) as [t1 |] eqn:E1; [| discriminate E].
    destruct (product e2) as [t2 |] eqn:E2; [| discriminate E].
    unfold ret at 1 2 in E. cbv beta iota in E.
    rewrite (llm_without_credential KEY completion json_loads t1 t2 w no_credential) in E.
    unfold lift in E. rewrite accepted_answer in E.
    destruct (lexical_name_cases t1 t2) as [Hname | Hname].
    all: set (v := calculate_similarity_rule_based t1 t2) in *; clearbody v.
    all: destruct (same_event v && Qltb threshold (confidence v));
      [| exact (IH g P mc w g' P' mc' w' Ha Hn E)].
    all: unfold answer in E; cbn [a_unified_name a_confidence a_reasoning] in E;
      unfold ret in E; cbv beta iota in E.
    all: eapply IH; [| | exact E]; cbn [g_products g_unified_name];
      [apply in_or_app; left; exact Ha |].
    all: rewrite map_app, in_app_iff; cbn [map In]; rewrite Hname.
    + left. rewrite <- E1. apply in_map. exact Ha.
    + right. left. exact E2.
Qed.

(** X9: Without the semantic scorer every group of the returned mapping is
    named after one of its own members: its name is the original title
    of one of the payloads under its platforms. *)
Theorem lexical_group_names (raw : list Listing) (w w' : World)
        (d : dict UnifiedEntry) (key : string) (entry : UnifiedEntry) :
  matcher raw w = (Ok d, w') -> In (key, entry) d ->
  exists platform payload,
    In (platform, payload) (platform_items (platforms entry)) /\
    original_product payload = key.
Proof.
  intros H Hin.
  destruct (match_products_entries World KEY completion json_loads raw w d w' key entry H Hin)
    as (i & entry1 & P & mc & w0 & P' & mc' & w1 & Hnth & Hf).
  unfold form_group, bind, item in Hf.
  destruct (product entry1) as [title |] eqn:Et; cbn in Hf; [| discriminate].
  destruct (for_each _ (inner entry1) (seed_group title entry1, P, mc) w0)
    as [[[[g P1] mc1] | e] w2] eqn:Ei; [| discriminate].
  assert (Hn : In (Some (g_unified_name g)) (map product (g_products g))).
  { eapply inner_loop_names; [| | exact Ei]; cbn; auto. }
  assert (S := add_platforms_spec World (g_products g) (g_products g) [] w2
                                  (incl_refl _)).
  destruct (for_each (g_products g) (add_platform (World := World)) [] w2)
    as [[pl | e] w3]; [| discriminate].
  inversion Hf; subst. clear Hf. destruct S as (_ & _ & Hp). cbn in Hp.
  apply in_map_iff in Hn. destruct Hn as (l & Hl & Hin').
  exists (default EmptyString (site l)),
         (payload_of (default EmptyString (product l)) (default VNone (price l)) l).
  split.
  - cbn [finalize platforms]. eapply Permutation_in; [symmetry; exact Hp |].
    apply in_map_iff. exists l. split; [reflexivity | exact Hin'].
  - cbn. rewrite Hl. reflexivity.
Qed.

End Size.

Lemma match_products_size_witness :
  NoDup (keys sample_mapping) /\
  List.length sample_mapping <= List.length sample_batch /\
  (sample_batch <> [] -> sample_mapping <> []).
Proof.
  apply (match_products_size unit None offline undecodable sample_batch tt tt
                             sample_mapping).
  vm_compute. reflexivity.
Defined.

Lemma lexical_group_names_witness :
  exists platform payload,
    In (platform, payload) (platform_items (platforms sample_entry)) /\
    original_product payload = "Trump elected president 2024?"%string.
Proof.
  apply (lexical_group_names unit None offline undecodable eq_refl sample_batch tt tt
                             sample_mapping "Trump elected president 2024?"%string
                             sample_entry).
  - vm_compute. reflexivity.
  - left. reflexivity.
Defined.


(* ================================================================== *)
(** * Further properties of the arrangement *)
(* ================================================================== *)

Import rearrange_data.

(** ** Order of the statistics *)

Lemma Qmin_spec x y : (Qmin x y <= x /\ Qmin x y <= y)%Q /\ (Qmin x y = x \/ Qmin x y = y).
Proof.
  unfold Qmin. destruct (Qltb y x) eqn:E.
  - apply Qltb_lt in E. split; [split; [apply Qlt_le_weak; exact E | apply Qle_refl] | auto].
  - apply Qltb_ge in E. split; [split; [apply Qle_refl | exact E] | auto].
Qed.

Lemma Qmax_spec x y : (x <= Qmax x y /\ y <= Qmax x y)%Q /\ (Qmax x y = x \/ Qmax x y = y).
Proof.
  unfold Qmax. destruct (Qltb x y) eqn:E.
  - apply Qltb_lt in E. split; [split; [apply Qlt_le_weak; exact E | apply Qle_refl] | auto].
  - apply Qltb_ge in E. split; [split; [apply Qle_refl | exact E] | auto].
Qed.

Lemma min_list_spec l : forall x,
  In (min_list x l) (x :: l) /\ Forall (fun y => (min_list x l <= y)%Q) (x :: l).
Proof.
  unfold min_list. induction l as [| y l IH]; intro x; cbn [fold_left].
  - split; [left; reflexivity | repeat constructor; apply Qle_refl].
  - destruct (IH (Qmin x y)) as [H1 H2].
    destruct (Qmin_spec x y) as [[Hx Hy] Hc].
    inversion H2 as [| ? ? Hm Hl]; subst. split.
    + destruct H1 as [H1 | H1]; [| right; right; exact H1].
      rewrite <- H1. destruct Hc as [-> | ->]; [left | right; left]; reflexivity.
    + constructor; [eapply Qle_trans; eauto |].
      constructor; [eapply Qle_trans; eauto | exact Hl].
Qed.

Lemma max_list_spec l : forall x,
  In (max_list x l) (x :: l) /\ Forall (fun y => (y <= max_list x l)%Q) (x :: l).
Proof.
  unfold max_list. induction l as [| y l IH]; intro x; cbn [fold_left].
  - split; [left; reflexivity | repeat constructor; apply Qle_refl].
  - destruct (IH (Qmax x y)) as [H1 H2].
    destruct (Qmax_spec x y) as [[Hx Hy] Hc].
    inversion H2 as [| ? ? Hm Hl]; subst. split.
    + destruct H1 as [H1 | H1]; [| right; right; exact H1].
      rewrite <- H1. destruct Hc as [-> | ->]; [left | right; left]; reflexivity.
    + constructor; [eapply Qle_trans; eauto |].
      constructor; [eapply Qle_trans; eauto | exact Hl].
Qed.



Lemma len_nonneg (l : list Q) : (0 <= len l)%Q.
Proof. unfold len, Qle. cbn. lia. Qed.









Lemma price_statistics_some p ps :
  price_statistics (p :: ps) =
  Ok (Some {| min_price := min_list p ps;
              max_price := max_list p ps;
              avg_price := (sum (p :: ps) / len (p :: ps))%Q;
              price_spread :=
                if 1 <? List.length (p :: ps)
                then Qminus (max_list p ps) (min_list p ps) else 0%Q;
              price_variance :=
                (sum (map (fun x => Qpower (Qminus x (sum (p :: ps) / len (p :: ps))) 2)
                          (p :: ps)) / len (p :: ps))%Q |}).
Proof.
  unfold price_statistics.
  rewrite div_len by discriminate. cbn [bind].
  rewrite div_len by discriminate. cbn [bind]. reflexivity.
Qed.

Lemma single_extremes (p : Q) ps :
  (1 <? List.length (p :: ps)) = false -> max_list p ps = p /\ min_list p ps = p.
Proof.
  destruct ps; [split; reflexivity |]. cbn. discriminate.
Qed.


(** ** The best platform *)

Lemma argmax_max first d :
  snd (argmax first d) = max_list (snd first) (map snd d).
Proof.
  unfold argmax, max_list. revert first.
  induction d as [| kv d IH]; intro first; cbn [fold_left map]; [reflexivity |].
  rewrite IH. unfold Qmax. destruct (Qltb (snd first) (snd kv)); reflexivity.
Qed.

Lemma get_In_NoDup {V} (d : dict V) k v :
  NoDup (keys d) -> In (k, v) d -> get d k = Some v.
Proof.
  induction d as [| [k0 v0] d IH]; cbn [keys map fst get In]; intros Hnd Hin;
    [contradiction |].
  inversion Hnd as [| ? ? Hn Hd]; subst.
  destruct Hin as [Hin | Hin].
  - inversion Hin; subst. rewrite String.eqb_refl. reflexivity.
  - destruct (String.eqb k0 k) eqn:E.
    + apply String.eqb_eq in E. subst. exfalso. apply Hn.
      apply (in_map fst) in Hin. exact Hin.
    + apply IH; assumption.
Qed.

Lemma priced_keys pd k : In k (map fst (priced pd)) -> In k (keys pd).
Proof.
  rewrite in_map_iff. intros ([k' q] & <- & H). apply priced_In in H.
  destruct H as (data & rest & Hin & _). apply (in_map fst) in Hin. exact Hin.
Qed.

Lemma priced_NoDup pd : NoDup (keys pd) -> NoDup (map fst (priced pd)).
Proof.
  induction pd as [| [k l] pd IH]; cbn [keys map fst]; intro H; [constructor |].
  inversion H as [| ? ? Hn Hd]; subst.
  change ((k, l) :: pd) with ([(k, l)] ++ pd). rewrite priced_app, map_app.
  unfold priced at 1. cbn [flat_map snd fst app].
  destruct l as [| data rest]; [apply IH; exact Hd |].
  destruct (Qltb 0 (coerced (p_price data))); [| apply IH; exact Hd].
  cbn [app map fst]. constructor; [| apply IH; exact Hd].
  intro Hin. apply Hn. apply priced_keys. exact Hin.
Qed.

Lemma assign_all_distinct kqs :
  NoDup (map fst kqs) -> assign_all [] kqs = kqs.
Proof.
  unfold assign_all.
  assert (G : forall d, NoDup (keys (d ++ kqs)) ->
                        fold_left (fun d kq => set d (fst kq) (snd kq)) kqs d = d ++ kqs).
  { induction kqs as [| [k q] kqs IH]; intros d H; cbn [fold_left fst snd].
    - rewrite app_nil_r. reflexivity.
    - assert (Hk : ~ In k (keys d)).
      { unfold keys in *. rewrite map_app in H. cbn [map fst] in H.
        apply NoDup_remove_2 in H. rewrite in_app_iff in H. tauto. }
      rewrite set_fresh by exact Hk.
      rewrite IH; rewrite <- app_assoc; [reflexivity | exact H]. }
  intro H. apply (G []). exact H.
Qed.

Lemma Qltb_comp x y y' : (y == y')%Q -> Qltb x y = Qltb x y'.
Proof.
  intro H. unfold Qltb.
  rewrite (Qcompare_comp x x (Qeq_refl x) y y' H). reflexivity.
Qed.

(** X11: The best opportunity of a group names a platform whose first payload
    carries the greatest positive price: the price reported is the
    greatest price of the statistics, no platform has a greater one, and
    the arbitrage flag says whether the spread of the statistics exceeds
    0.05. *)
Theorem best_opportunity_is_the_maximum
        (platforms_data : dict (list Payload)) (m : Metrics) (b : Best) :
  NoDup (keys platforms_data) ->
  calculate_advanced_metrics platforms_data = Ok m ->
  best_opportunities m = Some b ->
  exists ps,
    price_stats m = Some ps /\
    highest_probability_price b = max_price ps /\
    (exists data rest,
        In (highest_probability_platform b, data :: rest) platforms_data /\
        coerced (p_price data) = highest_probability_price b) /\
    (forall k data rest,
        In (k, data :: rest) platforms_data ->
        (coerced (p_price data) <= highest_probability_price b)%Q) /\
    arbitrage_opportunity b = Qltb (5 # 100) (price_spread ps).
Proof.
  intros Hnd Hm Hb.
  destruct (metrics_shape platforms_data) as (ps0 & vs & H1 & H2 & Hm').
  rewrite Hm in Hm'. injection Hm' as ->. cbn [best_opportunities price_stats] in *.
  assert (Hp := priced_NoDup platforms_data Hnd).
  rewrite (assign_all_distinct _ Hp) in Hb.
  assert (HIn := priced_In platforms_data).
  destruct (priced platforms_data) as [| [k p] rest] eqn:Ep; [discriminate Hb |].
  cbn [map snd] in H1, Hb. rewrite price_statistics_some in H1. injection H1 as <-.
  unfold best_opportunity in Hb. injection Hb as <-.
  cbn [highest_probability_platform highest_probability_price arbitrage_opportunity
       max_price price_spread].
  assert (Hbest := argmax_In (k, p) rest).
  assert (Hmax := argmax_max (k, p) rest). cbn [snd] in Hmax.
  destruct (argmax (k, p) rest) as [bk bp] eqn:Ea. cbn [fst snd] in *.
  assert (Hget : get ((k, p) :: rest) bk = Some bp).
  { apply get_In_NoDup; [exact Hp | exact Hbest]. }
  cbn [get] in Hget. rewrite Hget. cbn [default].
  eexists. split; [reflexivity |]. cbn [max_price price_spread].
  split; [exact Hmax |].
  split.
  { apply HIn in Hbest. destruct Hbest as (data & rest' & Hin & Hq & _).
    exists data, rest'. split; [exact Hin | symmetry; exact Hq]. }
  split.
  { intros k' data rest' Hin.
    destruct (Qltb 0 (coerced (p_price data))) eqn:E.
    - apply Qltb_lt in E.
      assert (Hin' : In (k', coerced (p_price data)) ((k, p) :: rest)).
      { apply HIn. exists data, rest'. auto. }
      rewrite Hmax. destruct (max_list_spec (map snd rest) p) as [_ Hall].
      rewrite Forall_forall in Hall. apply Hall.
      change (p :: map snd rest) with (map snd ((k, p) :: rest)).
      apply (in_map snd) in Hin'. exact Hin'.
    - apply Qltb_ge in E. eapply Qle_trans; [exact E |].
      apply Qlt_le_weak. apply HIn in Hbest.
      destruct Hbest as (_ & _ & _ & _ & Hpos). exact Hpos. }
  match goal with |- context [if ?c then _ else _] => destruct c eqn:E end;
    [reflexivity |].
  destruct (single_extremes p (map snd rest) E) as [-> ->].
  apply Qltb_comp. ring.
Qed.

(** ** The volume statistics *)




Lemma best_opportunity_is_the_maximum_witness :
  exists ps,
    price_stats sample_metrics = Some ps /\
    highest_probability_price sample_best = max_price ps /\
    (exists data rest,
        In (highest_probability_platform sample_best, data :: rest)
           (platforms sample_entry) /\
        coerced (p_price data) = highest_probability_price sample_best) /\
    (forall k data rest,
        In (k, data :: rest) (platforms sample_entry) ->
        (coerced (p_price data) <= highest_probability_price sample_best)%Q) /\
    arbitrage_opportunity sample_best = Qltb (5 # 100) (price_spread ps).
Proof.
  apply (best_opportunity_is_the_maximum (platforms sample_entry) sample_metrics
                                         sample_best).
  - vm_compute. repeat constructor; cbn; intuition discriminate.
  - vm_compute. reflexivity.
  - reflexivity.
Defined.

(** ** The comprehensive table *)

Lemma get_set_other {V} (d : dict V) k v k' :
  k <> k' -> get (set d k v) k' = get d k'.
Proof.
  intro H. induction d as [| [k0 v0] d IH]; cbn [set get].
  - destruct (String.eqb k k') eqn:E; [| reflexivity].
    apply String.eqb_eq in E. contradiction.
  - destruct (String.eqb k0 k) eqn:E; cbn [get].
    + apply String.eqb_eq in E. subst k0.
      destruct (String.eqb k k') eqn:E'; [| reflexivity].
      apply String.eqb_eq in E'. contradiction.
    + rewrite IH. reflexivity.
Qed.

Lemma set_keys_present {V} (d : dict V) k v : In k (keys d) -> keys (set d k v) = keys d.
Proof.
  induction d as [| [k0 v0] d IH]; cbn [keys map fst set In]; [contradiction |].
  intro H. destruct (String.eqb k0 k) eqn:E; cbn [keys map fst]; [reflexivity |].
  f_equal. apply IH. destruct H as [H | H]; [| exact H].
  subst. rewrite String.eqb_refl in E. discriminate.
Qed.

Lemma cell_total field : cell field = Ok (shown field).
Proof.
  unfold shown, cell. destruct field as [[| b | q | s] |]; try reflexivity.
  cbn [float]. destruct (parse_float (of_str s)); reflexivity.
Qed.

Lemma set_cells_keys platform price volume row :
  keys row = columns -> keys (set_cells platform price volume row) = columns.
Proof.
  intro H. unfold set_cells.
  repeat match goal with
         | |- context [if ?c then _ else _] => destruct c
         end;
    try exact H;
    rewrite !set_keys_present; try exact H;
    rewrite ?set_keys_present; rewrite ?H; cbn; tauto.
Qed.

Lemma set_cells_untouched platform price volume row key :
  existsb (String.eqb key) written = false ->
  get (set_cells platform price volume row) key = get row key.
Proof.
  intro H. cbn [existsb written] in H. rewrite !orb_false_iff in H.
  repeat match type of H with
         | _ /\ _ => let H1 := fresh "N" in destruct H as [H1 H]
         end.
  repeat match goal with
         | N : String.eqb _ _ = false |- _ => apply String.eqb_neq in N
         end.
  unfold set_cells.
  repeat match goal with
         | |- context [if ?c then _ else _] => destruct c
         end;
    try reflexivity; rewrite !get_set_other; auto.
Qed.

Lemma fill_all_spec platforms :
  forall (row : Row) (market_ids categories : list string),
  keys row = columns ->
  exists row' market_ids' categories',
    fill_all (row, market_ids, categories) platforms
    = Ok (row', market_ids', categories') /\
    keys row' = columns /\
    forall key, existsb (String.eqb key) written = false ->
                get row' key = get row key.
Proof.
  induction platforms as [| [platform data_list] platforms IH];
    intros row market_ids categories Hk; cbn [fill_all].
  - exists row, market_ids, categories. auto.
  - unfold fill. destruct data_list as [| data rest].
    + cbn [bind]. apply IH. exact Hk.
    + rewrite !cell_total. cbn [bind].
      match goal with
      | |- context [fill_all (?r, ?m, ?c) platforms] =>
          destruct (IH r m c) as (row' & m' & c' & H1 & H2 & H3)
      end.
      { apply set_cells_keys. exact Hk. }
      exists row', m', c'. split; [exact H1 |]. split; [exact H2 |].
      intros key Hkey. rewrite (H3 key Hkey). apply set_cells_untouched. exact Hkey.
Qed.

Ltac known_cases H :=
  cbn [known_platforms In] in H;
  repeat match type of H with
         | _ \/ _ => destruct H as [H | H]
         | False => contradiction
         end;
  injection H as <- <-.

Lemma set_cells_same platform column price volume row :
  In (platform, column) known_platforms ->
  get (set_cells platform price volume row) (column ++ "_Price") = Some price /\
  get (set_cells platform price volume row) (column ++ "_Volume") = Some volume.
Proof.
  intro H. known_cases H; unfold set_cells; cbn [String.eqb Ascii.eqb Bool.eqb append];
    (split; [rewrite get_set_other by discriminate |]); apply get_set_same.
Qed.

Lemma set_cells_other platform' platform column price volume row :
  In (platform, column) known_platforms -> platform' <> platform ->
  get (set_cells platform' price volume row) (column ++ "_Price")
  = get row (column ++ "_Price") /\
  get (set_cells platform' price volume row) (column ++ "_Volume")
  = get row (column ++ "_Volume").
Proof.
  intros H Hne. unfold set_cells.
  repeat match goal with
         | |- context [if String.eqb platform' ?name then _ else _] =>
             let E := fresh "E" in
             destruct (String.eqb platform' name) eqn:E;
             [apply String.eqb_eq in E; subst platform' |]
         end;
    known_cases H; cbn [append]; try congruence;
    split; try reflexivity; rewrite !get_set_other by discriminate; reflexivity.
Qed.

Lemma first_payload_cons k l platforms platform :
  first_payload ((k, l) :: platforms) platform =
  if String.eqb k platform
  then match l with data :: _ => Some data | [] => None end
  else first_payload platforms platform.
Proof.
  unfold first_payload. cbn [get]. destruct (String.eqb k platform); reflexivity.
Qed.

Lemma first_payload_absent platforms platform :
  ~ In platform (keys platforms) -> first_payload platforms platform = None.
Proof.
  induction platforms as [| [k l] platforms IH]; intro H; [reflexivity |].
  rewrite first_payload_cons. cbn [keys map fst In] in H.
  destruct (String.eqb k platform) eqn:E.
  - apply String.eqb_eq in E. tauto.
  - apply IH. tauto.
Qed.

Lemma fill_all_columns platform column platforms :
  In (platform, column) known_platforms -> NoDup (keys platforms) ->
  forall (row : Row) (market_ids categories : list string) row' market_ids' categories',
    fill_all (row, market_ids, categories) platforms
    = Ok (row', market_ids', categories') ->
    get row' (column ++ "_Price")
    = match first_payload platforms platform with
      | Some data => Some (shown (p_price data))
      | None => get row (column ++ "_Price")
      end /\
    get row' (column ++ "_Volume")
    = match first_payload platforms platform with
      | Some data => Some (shown (p_volume data))
      | None => get row (column ++ "_Volume")
      end.
Proof.
  intros Hk. induction platforms as [| [k l] platforms IH];
    intros Hnd row m c row' m' c' E; cbn [fill_all] in E.
  - injection E as <- <- <-. split; reflexivity.
  - cbn [keys map fst] in Hnd. inversion Hnd as [| ? ? Hn Hd]; subst.
    rewrite first_payload_cons. unfold fill in E.
    destruct l as [| data rest].
    + cbn [bind] in E. destruct (IH Hd _ _ _ _ _ _ E) as [H1 H2].
      destruct (String.eqb k platform) eqn:Ek; [| split; assumption].
      apply String.eqb_eq in Ek. subst k.
      rewrite (first_payload_absent platforms platform Hn) in H1, H2.
      split; assumption.
    + rewrite !cell_total in E. cbn [bind] in E.
      destruct (IH Hd _ _ _ _ _ _ E) as [H1 H2].
      destruct (String.eqb k platform) eqn:Ek.
      * apply String.eqb_eq in Ek. subst k.
        rewrite (first_payload_absent platforms platform Hn) in H1, H2.
        destruct (set_cells_same platform column (shown (p_price data))
                                 (shown (p_volume data)) row Hk) as [S1 S2].
        rewrite H1, H2. split; assumption.
      * apply String.eqb_neq in Ek.
        destruct (set_cells_other k platform column (shown (p_price data))
                                  (shown (p_volume data)) row Hk Ek) as [S1 S2].
        rewrite S1 in H1. rewrite S2 in H2. split; assumption.
Qed.

Lemma shown_number field q : shown field = VNum q -> coerced field = q.
Proof.
  unfold shown, cell, coerced, coerce.
  destruct field as [[| b | x | s] |]; cbn [default float]; try discriminate.
  - intro H. injection H as <-. reflexivity.
  - intro H. injection H as <-. reflexivity.
  - destruct (parse_float (of_str s)); [| discriminate].
    intro H. injection H as <-. reflexivity.
Qed.

Lemma Forall2_at {A B} (R : A -> B -> Prop) l l' i x y :
  Forall2 R l l' -> nth_error l i = Some x -> nth_error l' i = Some y -> R x y.
Proof.
  intro H. revert i. induction H as [| a b l l' Hab _ IH]; intros [| i] Hx Hy;
    cbn [nth_error] in Hx, Hy; try discriminate.
  - injection Hx as <-. injection Hy as <-. exact Hab.
  - exact (IH i Hx Hy).
Qed.

Lemma get_In {V} (d : dict V) k v : get d k = Some v -> In (k, v) d.
Proof.
  induction d as [| [k0 v0] d IH]; cbn [get]; [discriminate |].
  destruct (String.eqb k0 k) eqn:E.
  - apply String.eqb_eq in E. subst. intro H. injection H as <-. left. reflexivity.
  - intro H. right. exact (IH H).
Qed.

Lemma first_payload_priced pd platform data :
  first_payload pd platform = Some data -> (0 < coerced (p_price data))%Q ->
  In (coerced (p_price data)) (map snd (priced pd)).
Proof.
  unfold first_payload. intros H Hpos.
  destruct (get pd platform) as [[| data' rest] |] eqn:Eg; try discriminate H.
  injection H as ->. apply get_In in Eg.
  apply in_map_iff. exists (platform, coerced (p_price data)). split; [reflexivity |].
  unfold priced. apply in_flat_map. exists (platform, data :: rest).
  split; [exact Eg |]. cbn [snd fst].
  apply Qltb_lt in Hpos. rewrite Hpos. left. reflexivity.
Qed.

Lemma price_stats_bracket pd m q :
  calculate_advanced_metrics pd = Ok m -> In q (map snd (priced pd)) ->
  exists ps, price_stats m = Some ps /\ (min_price ps <= q <= max_price ps)%Q.
Proof.
  intros Hm Hin.
  destruct (metrics_shape pd) as (ps0 & vs & H1 & _ & Hm').
  rewrite Hm in Hm'. injection Hm' as ->. cbn [price_stats].
  destruct (map snd (priced pd)) as [| p rest]; [contradiction |].
  rewrite price_statistics_some in H1. injection H1 as <-.
  eexists. split; [reflexivity |]. cbn [min_price max_price].
  destruct (min_list_spec rest p) as [_ Hmin].
  destruct (max_list_spec rest p) as [_ Hmax].
  rewrite Forall_forall in Hmin, Hmax. split; [apply Hmin | apply Hmax]; exact Hin.
Qed.

Section Table.
Variable set_order : list string -> list string.

Lemma csv_row_spec product_name product_data :
  exists metrics row,
    calculate_advanced_metrics (default [] (d_platforms product_data)) = Ok metrics /\
    csv_row set_order product_name product_data = Ok row /\
    keys row = columns /\
    forall key, existsb (String.eqb key) written = false ->
                get row key = get (initial_row product_name product_data metrics) key.
Proof.
  unfold csv_row.
  destruct (metrics_shape (default [] (d_platforms product_data)))
    as (ps & vs & _ & _ & Hm).
  rewrite Hm. cbn [bind].
  match type of Hm with _ = Ok ?m => set (metrics := m) in * end.
  exists metrics.
  destruct (fill_all_spec (default [] (d_platforms product_data))
                          (initial_row product_name product_data metrics) [] [])
    as (row' & m' & c' & H1 & H2 & H3); [reflexivity |].
  rewrite H1. cbn [bind].
  eexists. split; [reflexivity |]. split; [reflexivity |]. split.
  - rewrite !set_keys_present; [exact H2 | rewrite H2; cbn; tauto |].
    rewrite set_keys_present; rewrite H2; cbn; tauto.
  - intros key Hkey. rewrite <- (H3 key Hkey).
    cbn [existsb written] in Hkey. rewrite !orb_false_iff in Hkey.
    repeat match type of Hkey with
           | _ /\ _ => let H1 := fresh "N" in destruct Hkey as [H1 Hkey]
           end.
    repeat match goal with
           | N : String.eqb _ _ = false |- _ => apply String.eqb_neq in N
           end.
    rewrite !get_set_other; auto.
Qed.

Lemma create_comprehensive_csv_spec unified_data :
  exists csv_data,
    create_comprehensive_csv set_order unified_data = Ok csv_data /\
    Forall2 (fun kd row => csv_row set_order (fst kd) (snd kd) = Ok row)
            unified_data csv_data.
Proof.
  induction unified_data as [| [product_name product_data] unified_data IH];
    cbn [create_comprehensive_csv].
  - exists []. split; [reflexivity | constructor].
  - destruct (csv_row_spec product_name product_data) as (m & row & _ & Hr & _).
    destruct IH as (csv_data & Hc & Hall).
    rewrite Hr, Hc. cbn [bind]. exists (row :: csv_data).
    split; [reflexivity |]. constructor; [exact Hr | exact Hall].
Qed.


Lemma csv_row_cells (product_name : string) (product_data : ProductData)
      (row : Row) (platform column : string) :
  csv_row set_order product_name product_data = Ok row ->
  NoDup (keys (default [] (d_platforms product_data))) ->
  In (platform, column) known_platforms ->
  get row (column ++ "_Price")
  = Some match first_payload (default [] (d_platforms product_data)) platform with
         | Some data => shown (p_price data)
         | None => VNone
         end /\
  get row (column ++ "_Volume")
  = Some match first_payload (default [] (d_platforms product_data)) platform with
         | Some data => shown (p_volume data)
         | None => VNone
         end.
Proof.
  intros Hr Hnd Hk. unfold csv_row in Hr.
  destruct (calculate_advanced_metrics (default [] (d_platforms product_data)))
    as [metrics | e]; [| discriminate Hr].
  cbn [bind] in Hr.
  destruct (fill_all (initial_row product_name product_data metrics, [], [])
                     (default [] (d_platforms product_data)))
    as [[[row' m'] c'] | e] eqn:Ef; [| discriminate Hr].
  cbn [bind] in Hr. injection Hr as <-.
  destruct (fill_all_columns platform column _ Hk Hnd _ _ _ _ _ _ Ef) as [H1 H2].
  assert (Hi : get (initial_row product_name product_data metrics) (column ++ "_Price")
               = Some VNone /\
               get (initial_row product_name product_data metrics) (column ++ "_Volume")
               = Some VNone).
  { known_cases Hk; split; reflexivity. }
  destruct Hi as [I1 I2]. rewrite I1 in H1. rewrite I2 in H2.
  assert (Hp : get (set (set row' "Primary_Category"
                              (VStr match c' with
                                    | [] => "General"
                                    | _ :: _ => hd "General"%string (set_order c')
                                    end))
                         "Market_IDs" (VStr (String.concat " | " m')))
                   (column ++ "_Price") = get row' (column ++ "_Price") /\
               get (set (set row' "Primary_Category"
                              (VStr match c' with
                                    | [] => "General"
                                    | _ :: _ => hd "General"%string (set_order c')
                                    end))
                         "Market_IDs" (VStr (String.concat " | " m')))
                   (column ++ "_Volume") = get row' (column ++ "_Volume")).
  { known_cases Hk; cbn [append]; split; rewrite !get_set_other by discriminate;
      reflexivity. }
  destruct Hp as [P1 P2]. rewrite P1, P2, H1, H2.
  destruct (first_payload _ platform); split; reflexivity.
Qed.

Lemma table_row unified_data csv_data i product_name product_data row :
  create_comprehensive_csv set_order unified_data = Ok csv_data ->
  nth_error unified_data i = Some (product_name, product_data) ->
  nth_error csv_data i = Some row ->
  csv_row set_order product_name product_data = Ok row.
Proof.
  intros Hc Hu Hr.
  destruct (create_comprehensive_csv_spec unified_data) as (csv_data' & Hc' & Hall).
  rewrite Hc in Hc'. injection Hc' as <-.
  exact (Forall2_at _ _ _ _ _ _ Hall Hu Hr).
Qed.


(** X15: A positive price in the column of a platform lies between the least
    and the greatest price of the same row. *)
Theorem shown_price_within_statistics
        (unified_data : dict ProductData) (csv_data : list Row) (i : nat)
        (product_name : string) (product_data : ProductData) (row : Row)
        (platform column : string) (q : Q) :
  create_comprehensive_csv set_order unified_data = Ok csv_data ->
  nth_error unified_data i = Some (product_name, product_data) ->
  nth_error csv_data i = Some row ->
  NoDup (keys (default [] (d_platforms product_data))) ->
  In (platform, column) known_platforms ->
  get row (column ++ "_Price") = Some (VNum q) -> (0 < q)%Q ->
  exists lo hi,
    get row "Min_Price" = Some (VNum lo) /\
    get row "Max_Price" = Some (VNum hi) /\
    (lo <= q <= hi)%Q.
Proof.
  intros Hc Hu Hr Hnd Hk Hq Hpos.
  assert (Hrow := table_row _ _ _ _ _ _ Hc Hu Hr).
  destruct (csv_row_cells product_name product_data row platform column Hrow Hnd Hk)
    as [Hp _].
  rewrite Hq in Hp. injection Hp as Hp.
  destruct (first_payload (default [] (d_platforms product_data)) platform)
    as [data |] eqn:Ef; [| discriminate Hp].
  symmetry in Hp. apply shown_number in Hp.
  destruct (csv_row_spec product_name product_data)
    as (metrics & row' & Hm & Hr' & _ & Hg).
  rewrite Hrow in Hr'. injection Hr' as <-.
  destruct (price_stats_bracket _ metrics q Hm) as (ps & Hps & Hb).
  { rewrite <- Hp. apply first_payload_priced with platform; [exact Ef |].
    rewrite Hp. exact Hpos. }
  exists (min_price ps), (max_price ps).
  rewrite !Hg by reflexivity. cbn [initial_row get String.eqb Ascii.eqb Bool.eqb].
  rewrite Hps. split; [reflexivity |]. split; [reflexivity | exact Hb].
Qed.

End Table.

(** ** The simplified table *)

Lemma or_dash_spec row key :
  or_dash row key =
  match get row key with
  | Some v => Ok (dashed v)
  | None => Raise (KeyError key)
  end.
Proof.
  unfold or_dash, getitem. destruct (get row key) as [[| b | q | t] |]; reflexivity.
Qed.

Lemma simple_row_spec row :
  match simple_row row with
  | Ok simple => simple_of row simple
  | Raise e =>
      exists key,
        In key (map (fun s => snd (fst s)) simple_sources) /\
        get row key = None /\ e = KeyError key
  end.
Proof.
  unfold simple_row. rewrite !or_dash_spec. unfold getitem.
  repeat match goal with
         | |- context [get row ?k] =>
             let E := fresh "E" in
             destruct (get row k) eqn:E; cbn [bind];
             [| exists k; split; [cbn; tauto | split; [exact E | reflexivity]]]
         end.
  split; [reflexivity |].
  intros target source dash H. cbn [simple_sources In] in H.
  repeat match type of H with
         | _ \/ _ => destruct H as [H | H]
         | False => contradiction
         end;
    injection H as <- <- <-; eexists; (split; [eassumption | reflexivity]).
Qed.

Lemma create_simplified_csv_cases csv_data :
  match create_simplified_csv csv_data with
  | Ok simplified_data => Forall2 simple_of csv_data simplified_data
  | Raise e =>
      exists row key,
        In row csv_data /\
        In key (map (fun s => snd (fst s)) simple_sources) /\
        get row key = None /\ e = KeyError key
  end.
Proof.
  induction csv_data as [| row csv_data IH]; cbn [create_simplified_csv].
  - constructor.
  - assert (S := simple_row_spec row).
    destruct (simple_row row) as [simple | e]; cbn [bind].
    + destruct (create_simplified_csv csv_data) as [simplified_data | e]; cbn [bind].
      * constructor; assumption.
      * destruct IH as (row' & key & H1 & H2). exists row', key.
        split; [right; exact H1 | exact H2].
    + destruct S as (key & H). exists row, key. split; [left; reflexivity | exact H].
Qed.

(** X16: The simplified table either has one row for each row it is given,
    with the ten columns in order, each holding the cell of the column
    it reads and a dash in place of [None] in the four price columns,
    the best price and the spread; or it raises [KeyError] for a column
    that one of the rows lacks. *)
Theorem create_simplified_csv_rows_or_key_error (csv_data : list Row) :
  match create_simplified_csv csv_data with
  | Ok simplified_data =>
      List.length simplified_data = List.length csv_data /\
      Forall2
        (fun row simple =>
           keys simple = simple_columns /\
           forall target source dash,
             In (target, source, dash) simple_sources ->
             exists v, get row source = Some v /\
                       get simple target = Some (if dash : bool then dashed v else v))
        csv_data simplified_data
  | Raise e =>
      exists row key,
        In row csv_data /\
        In key (map (fun s => snd (fst s)) simple_sources) /\
        get row key = None /\ e = KeyError key
  end.
Proof.
  assert (H := create_simplified_csv_cases csv_data).
  destruct (create_simplified_csv csv_data) as [simplified_data | e]; [| exact H].
  split; [symmetry; exact (Forall2_length H) | exact H].
Qed.

(** ** The reports *)

Lemma cover_total row ps :
  exists st,
    cover row ps = Ok (fst ps, st) /\
    count st = count (snd ps) + (if has_price (fst ps) row then 1 else 0).
Proof.
  destruct ps as [platform st]. unfold cover, has_price. cbn [fst snd].
  destruct (get row (platform ++ "_Volume")) as [[| b | q | t] |];
    cbn [float]; try destruct (parse_float (of_str t));
    eexists; (split; [reflexivity |]); cbn [count];
    destruct (get row (platform ++ "_Price")) as [[| b' | q' | t'] |]; lia.
Qed.

Lemma cover_all_total row platform_stats :
  exists platform_stats',
    cover_all row platform_stats = Ok platform_stats' /\
    Forall2 (covered [row]) platform_stats platform_stats'.
Proof.
  induction platform_stats as [| ps rest IH]; cbn [cover_all].
  - exists []. split; [reflexivity | constructor].
  - destruct (cover_total row ps) as (st & H1 & H2).
    destruct IH as (rest' & H3 & H4). rewrite H1, H3. cbn [bind].
    eexists. split; [reflexivity |]. constructor; [| exact H4].
    split; [reflexivity |]. cbn [fst snd filter]. rewrite H2.
    destruct (has_price (fst ps) row); reflexivity.
Qed.

Lemma covered_refl l : Forall2 (covered []) l l.
Proof.
  induction l; constructor; [| assumption].
  split; [reflexivity | cbn; lia].
Qed.

Lemma covered_step row rows l1 l2 l3 :
  Forall2 (covered [row]) l1 l2 -> Forall2 (covered rows) l2 l3 ->
  Forall2 (covered (row :: rows)) l1 l3.
Proof.
  intro H. revert l3. induction H as [| a b l1 l2 [H1 H2] _ IH]; intros l3 H3;
    inversion H3 as [| ? c ? l3' [H4 H5] H6]; subst; constructor.
  - split; [congruence |]. rewrite H5, H2, H1. cbn [filter List.length].
    destruct (has_price (fst a) row); cbn [List.length]; lia.
  - apply IH. exact H6.
Qed.

Lemma tally_counted category_stats category :
  counted (tally category_stats category) = counted category_stats + 1.
Proof.
  induction category_stats as [| [c n] rest IH]; cbn [tally counted]; [reflexivity |].
  destruct (py_eqb c category); cbn [counted]; lia.
Qed.

Lemma tally_keys category_stats category c :
  In c (map fst (tally category_stats category)) ->
  c = category \/ In c (map fst category_stats).
Proof.
  induction category_stats as [| [c0 n] rest IH]; cbn [tally map fst In].
  - intros [<- | []]. left. reflexivity.
  - destruct (py_eqb c0 category); cbn [map fst In]; tauto.
Qed.

Lemma as_number_eqb x y p q :
  as_number x = Some p -> as_number y = Some q -> py_eqb x y = Qeq_bool p q.
Proof.
  destruct x as [| bx | qx | sx]; destruct y as [| b2 | qy | sy];
    cbn [as_number py_eqb]; try discriminate;
    intros H1 H2; injection H1 as <-; injection H2 as <-; reflexivity.
Qed.

Lemma py_eqb_sym x y : py_eqb x y = py_eqb y x.
Proof.
  destruct (as_number x) as [p |] eqn:Ex; destruct (as_number y) as [q |] eqn:Ey.
  - rewrite (as_number_eqb _ _ _ _ Ex Ey), (as_number_eqb _ _ _ _ Ey Ex).
    destruct (Qeq_bool p q) eqn:E1; destruct (Qeq_bool q p) eqn:E2; try reflexivity.
    + apply Qeq_bool_iff in E1. symmetry in E1. apply Qeq_bool_iff in E1. congruence.
    + apply Qeq_bool_iff in E2. symmetry in E2. apply Qeq_bool_iff in E2. congruence.
  - destruct x as [| bx | qx | sx]; destruct y as [| b2 | qy | sy];
      cbn [as_number] in Ex, Ey; try discriminate; reflexivity.
  - destruct x as [| bx | qx | sx]; destruct y as [| b2 | qy | sy];
      cbn [as_number] in Ex, Ey; try discriminate; reflexivity.
  - destruct x as [| bx | qx | sx]; destruct y as [| b2 | qy | sy];
      cbn [as_number] in Ex, Ey; try discriminate; cbn [py_eqb as_number];
      try reflexivity. apply String.eqb_sym.
Qed.

Lemma tally_distinct category_stats category :
  distinct category_stats -> distinct (tally category_stats category).
Proof.
  induction category_stats as [| [c n] rest IH]; cbn [tally distinct].
  - intros _. split; [constructor | exact I].
  - intros [H1 H2]. destruct (py_eqb c category) eqn:E; cbn [distinct].
    + split; assumption.
    + split; [| exact (IH H2)].
      rewrite Forall_forall in H1 |- *. intros [d m] Hd. cbn [fst].
      assert (Hk : In d (map fst (tally rest category))).
      { apply in_map_iff. exists (d, m). split; [reflexivity | exact Hd]. }
      apply tally_keys in Hk. destruct Hk as [-> | Hk].
      * rewrite py_eqb_sym. exact E.
      * apply in_map_iff in Hk. destruct Hk as (x & <- & Hx). exact (H1 x Hx).
Qed.

Lemma tallied_step row rows st1 st2 st3 :
  tallied [row] st1 st2 -> tallied rows st2 st3 -> tallied (row :: rows) st1 st3.
Proof.
  destruct st1 as [[p1 c1] r1], st2 as [[p2 c2] r2], st3 as [[p3 c3] r3].
  unfold tallied. intros (A1 & A2 & A3 & A4 & A5 & A6) (B1 & B2 & B3 & B4 & B5 & B6).
  split; [exact (covered_step _ _ _ _ _ A1 B1) |].
  cbn [filter List.length] in *.
  destruct (scored in_high row); destruct (scored in_low row);
    cbn [List.length] in *; repeat split; try lia; auto.
Qed.

Lemma report_row_spec st row :
  match report_row st row with
  | Ok st' => tallied [row] st st'
  | Raise e => report_error row e
  end.
Proof.
  destruct st as [[platform_stats category_stats] r]. unfold report_row.
  destruct (cover_all_total row platform_stats) as (platform_stats' & H1 & H2).
  rewrite H1. cbn [bind]. unfold getitem, report_error, scored, confidence_of.
  destruct (get row "Primary_Category") as [category |] eqn:Ec; cbn [bind];
    [| left; split; reflexivity].
  destruct (get row "Confidence_Score") as [confidence |] eqn:Es; cbn [bind];
    [| right; left; split; [discriminate | split; reflexivity]].
  unfold at_least.
  destruct (as_number confidence) as [q |] eqn:En; cbn [bind];
    [| right; right; split; [discriminate | split; [discriminate |]];
       split; reflexivity].
  unfold tallied, scored, confidence_of. cbn [filter]. rewrite Es, En.
  unfold in_high, in_low.
  destruct (Qle_bool (8 # 10) q) eqn:E8.
  - assert (E6 : Qle_bool (6 # 10) q = true).
    { apply Qle_bool_iff. apply Qle_bool_iff in E8.
      apply Qle_trans with (8 # 10)%Q; [discriminate | exact E8]. }
    rewrite E6. cbn [negb List.length high medium low]. rewrite tally_counted.
    split; [exact H2 |]. split; [reflexivity |].
    split; [apply tally_distinct |]. lia.
  - cbn [bind]. destruct (Qle_bool (6 # 10) q) eqn:E6;
      cbn [negb List.length high medium low]; rewrite tally_counted;
      (split; [exact H2 |]); (split; [reflexivity |]);
      (split; [apply tally_distinct |]); lia.
Qed.

Lemma report_rows_spec rows : forall st,
  match report_rows st rows with
  | Ok st' => tallied rows st st'
  | Raise e => exists row, In row rows /\ report_error row e
  end.
Proof.
  induction rows as [| row rows IH]; intro st; cbn [report_rows].
  - destruct st as [[p c] r]. unfold tallied. cbn [filter List.length].
    split; [apply covered_refl |]. repeat split; auto; lia.
  - assert (S := report_row_spec st row).
    destruct (report_row st row) as [st' | e]; cbn [bind].
    + specialize (IH st').
      destruct (report_rows st' rows) as [st'' | e].
      * exact (tallied_step _ _ _ _ _ S IH).
      * destruct IH as (row' & H1 & H2). exists row'. split; [right; exact H1 | exact H2].
    + exists row. split; [left; reflexivity | exact S].
Qed.

Lemma create_analysis_reports_cases (csv_data : list Row) :
  match create_analysis_reports csv_data with
  | Ok reports =>
      let ranges := confidence_distribution reports in
      total_products reports = List.length csv_data /\
      high ranges + medium ranges + low ranges = List.length csv_data /\
      high ranges = List.length (filter (scored in_high) csv_data) /\
      low ranges = List.length (filter (scored in_low) csv_data) /\
      counted (category_breakdown reports) = List.length csv_data /\
      distinct (category_breakdown reports) /\
      keys (r_platform_coverage reports) = report_platforms /\
      Forall (fun ps =>
                count (snd ps) = List.length (filter (has_price (fst ps)) csv_data))
             (r_platform_coverage reports)
  | Raise e => exists row, In row csv_data /\ report_error row e
  end.
Proof.
  unfold create_analysis_reports.
  match goal with
  | |- context [report_rows ?st csv_data] =>
      assert (S := report_rows_spec csv_data st);
      destruct (report_rows st csv_data) as [[[p c] r] | e]
  end; cbn [bind]; [| exact S].
  cbn zeta. cbn [total_products confidence_distribution category_breakdown
                 r_platform_coverage].
  unfold tallied in S. destruct S as (S1 & S2 & S3 & S4 & S5 & S6).
  cbn [counted high medium low distinct] in S2, S3, S4, S5, S6.
  split; [reflexivity |]. split; [lia |]. split; [lia |]. split; [lia |].
  split; [lia |]. split; [exact (S3 I) |].
  repeat match type of S1 with
         | Forall2 _ (_ :: _) _ =>
             let H := fresh "C" in
             inversion S1 as [| ? ? ? ? H S1']; subst; clear S1; rename S1' into S1
         end.
  inversion S1; subst.
  repeat match goal with
         | C : covered _ _ ?x |- _ => destruct x; destruct C; cbn [fst snd] in *; subst
         end.
  split; [reflexivity |].
  repeat constructor; cbn [fst snd count] in *; lia.
Qed.



(** ** The arrangement of a mapping *)

Lemma get_present {V} (d : dict V) k : In k (keys d) -> get d k <> None.
Proof.
  induction d as [| [k0 v0] d IH]; cbn [keys map fst In get]; [tauto |].
  destruct (String.eqb k0 k) eqn:E; [discriminate |].
  intros [-> | H]; [rewrite String.eqb_refl in E; discriminate | exact (IH H)].
Qed.

Section Arrangement.
Variable set_order : list string -> list string.

Lemma table_rows unified_data csv_data :
  create_comprehensive_csv set_order unified_data = Ok csv_data ->
  Forall2 (fun kd row =>
             keys row = columns /\
             get row "Confidence_Score"
             = Some (VNum (default 0%Q (d_confidence (snd kd)))))
          unified_data csv_data.
Proof.
  intro Hc.
  destruct (create_comprehensive_csv_spec set_order unified_data)
    as (csv_data' & Hc' & Hall).
  rewrite Hc in Hc'. injection Hc' as <-. clear Hc.
  induction Hall as [| [k d] row l l' Hr _ IH]; constructor; [| exact IH].
  destruct (csv_row_spec set_order k d) as (m & row' & _ & Hr' & Hk & Hg).
  cbn [fst snd] in *. rewrite Hr in Hr'. injection Hr' as <-.
  split; [exact Hk |]. rewrite Hg by reflexivity. reflexivity.
Qed.

Lemma table_reports unified_data csv_data :
  create_comprehensive_csv set_order unified_data = Ok csv_data ->
  exists simplified_data reports,
    create_simplified_csv csv_data = Ok simplified_data /\
    create_analysis_reports csv_data = Ok reports.
Proof.
  intro Hc. assert (T := table_rows _ _ Hc).
  assert (Hrows : forall row, In row csv_data ->
                    keys row = columns /\ exists q, confidence_of row = Some q).
  { clear Hc. induction T as [| kd row l l' [H1 H2] _ IH]; intros r [].
    - subst. split; [exact H1 |]. unfold confidence_of. rewrite H2. eexists. reflexivity.
    - apply IH. assumption. }
  assert (S := create_simplified_csv_cases csv_data).
  assert (R := create_analysis_reports_cases csv_data).
  destruct (create_simplified_csv csv_data) as [simplified_data | e].
  - destruct (create_analysis_reports csv_data) as [reports | e].
    + exists simplified_data, reports. split; reflexivity.
    + exfalso. destruct R as (row & Hin & Herr).
      destruct (Hrows row Hin) as [Hk [q Hq]].
      assert (P1 : get row "Primary_Category" <> None).
      { apply get_present. rewrite Hk. cbn. tauto. }
      assert (P2 : get row "Confidence_Score" <> None).
      { apply get_present. rewrite Hk. cbn. tauto. }
      destruct Herr as [[H _] | [(_ & H & _) | (_ & _ & H & _)]]; congruence.
  - exfalso. destruct S as (row & key & Hin & Hkey & Hn & _).
    destruct (Hrows row Hin) as [Hk _].
    apply (get_present row key); [| exact Hn]. rewrite Hk.
    cbn [simple_sources map fst snd In] in Hkey. cbn [columns In].
    repeat match type of Hkey with
           | _ \/ _ => destruct Hkey as [<- | Hkey]
           | False => contradiction
           end; tauto.
Qed.


Variable World : Type.
Variable KEY : option string.
Variable completion : string -> string -> M World string.
Variable json_loads : string -> Result Answer.

Abbreviation matcher := (match_products KEY completion json_loads).

Lemma filter_none {A} (f : A -> bool) l :
  Forall (fun x => f x = false) l -> filter f l = [].
Proof.
  induction 1 as [| x l Hx _ IH]; cbn [filter]; [reflexivity |].
  rewrite Hx. exact IH.
Qed.

(** X19: The mapping that the engine returns, arranged as it is: the reports
    count every group as high or medium, none as low, and at most as
    many groups as the batch has listings. *)
Theorem matched_groups_are_never_low
        (raw : list Listing) (w w' : World) (d : dict UnifiedEntry) :
  matcher raw w = (Ok d, w') ->
  exists csv_data reports,
    create_comprehensive_csv set_order (unified_of d) = Ok csv_data /\
    create_analysis_reports csv_data = Ok reports /\
    low (confidence_distribution reports) = 0 /\
    high (confidence_distribution reports) + medium (confidence_distribution reports)
    = total_products reports /\
    total_products reports = List.length d /\
    total_products reports <= List.length raw.
Proof.
  intro H.
  destruct (create_comprehensive_csv_spec set_order (unified_of d))
    as (csv_data & Hc & Hall).
  destruct (table_reports _ _ Hc) as (simplified_data & reports & _ & Hr).
  exists csv_data, reports. split; [exact Hc |]. split; [exact Hr |].
  assert (L := Forall2_length Hall). unfold unified_of in L. rewrite length_map in L.
  assert (R := create_analysis_reports_cases csv_data). rewrite Hr in R.
  cbn zeta in R. destruct R as (R1 & R2 & _ & R4 & _).
  assert (Hlow : filter (scored in_low) csv_data = []).
  { apply filter_none. assert (T := table_rows _ _ Hc).
    assert (Hd : Forall (fun kd => (65 # 100 <= default 0 (d_confidence (snd kd)))%Q)
                        (unified_of d)).
    { apply Forall_forall. intros [k pd] Hin. unfold unified_of in Hin.
      apply in_map_iff in Hin. destruct Hin as ([key entry] & E & Hin).
      cbn [fst snd] in E. injection E as <- <-.
      cbn [snd fst product_data d_confidence default].
      destruct (match_products_entries World KEY completion json_loads raw w d w'
                                       key entry H Hin)
        as (i & entry1 & P & mc & w0 & P' & mc' & w1 & _ & Hf).
      destruct (form_group_shape World KEY completion json_loads
                                 raw i entry1 P mc w0 key entry P' mc' w1 Hf)
        as (_ & _ & _ & _ & [H5 _] & _).
      exact H5. }
    clear - T Hd. induction T as [| kd row l l' [_ H2] _ IH]; constructor.
    - inversion Hd as [| ? ? Hq _]; subst.
      unfold scored, confidence_of. rewrite H2. cbn [as_number]. unfold in_low.
      apply negb_false_iff. apply Qle_bool_iff.
      apply Qle_trans with (65 # 100)%Q; [discriminate | exact Hq].
    - apply IH. inversion Hd; assumption. }
  rewrite Hlow in R4. cbn [List.length] in R4.
  assert (Hsize : List.length d <= List.length raw).
  { revert H. rewrite (match_products_log World KEY completion json_loads raw w).
    unfold groups_formed, Eff.bind.
    assert (C := outer_loop_count World KEY completion json_loads raw w).
    destruct (for_each (enumerate raw 0)
                       (outer_turn KEY completion json_loads log_group raw)
                       ([], [], 0) w)
      as [[[[log P] mc] | e] w1]; [| discriminate].
    cbn. intro E. inversion E; subst. clear E.
    destruct C as [C1 _]. destruct (dict_of_log_length log) as [L1 _]. lia. }
  split; [exact R4 |]. split; [lia |]. split; [lia |]. lia.
Qed.

End Arrangement.


Lemma shown_price_within_statistics_witness :
  exists lo hi,
    get sample_row "Min_Price" = Some (VNum lo) /\
    get sample_row "Max_Price" = Some (VNum hi) /\
    (lo <= 59 # 100 <= hi)%Q.
Proof.
  apply (shown_price_within_statistics
           (fun categories => categories) sample_unified sample_table 0
           "Trump elected president 2024?" (product_data sample_entry)
           sample_row "Kalshi" "Kalshi" (59 # 100)%Q).
  - vm_compute. reflexivity.
  - reflexivity.
  - reflexivity.
  - vm_compute. repeat constructor; cbn; intuition discriminate.
  - right. left. reflexivity.
  - reflexivity.
  - reflexivity.
Defined.

Lemma matched_groups_are_never_low_witness :
  exists csv_data reports,
    create_comprehensive_csv (fun categories => categories) (unified_of sample_mapping)
    = Ok csv_data /\
    create_analysis_reports csv_data = Ok reports /\
    low (confidence_distribution reports) = 0 /\
    high (confidence_distribution reports) + medium (confidence_distribution reports)
    = total_products reports /\
    total_products reports = List.length sample_mapping /\
    total_products reports <= List.length sample_batch.
Proof.
  apply (matched_groups_are_never_low (fun categories => categories)
                                      unit None offline undecodable sample_batch tt tt
                                      sample_mapping).
  vm_compute. reflexivity.
Defined.
